(** * Excel journal import into the holes/assay store (app.py)

    A shallow embedding of [import_excel_to_db] from [src/app.py] and the
    properties of its validate-then-merge pipeline. Line numbers refer to
    [src/app.py].

    Conventions of the embedding:
    - a Python [str] is the list of its code points ([pystr]);
    - a cell of a pandas frame or of a store row is [option val]: [None] is
      the null value (NaN / None / SQL NULL), [Some v] a scalar; the scalars
      are an arbitrary countable type compared with Python's [==];
    - exceptions are values of [exn]; code inside a [try] block runs in the
      error monad [exn + _];
    - the outside world the function touches (the store file, the handles it
      opens and closes) is an explicit [world] value threaded through; what
      the call merely reads (the workbook behind the path, the failures of
      the store layer, the value the store keeps for a bound parameter) is
      an [env].

    What is taken for granted: the workbook does not change during the
    call, so that both reads of it (lines 52 and 73) see the same sheets;
    [conn.rollback()] and [conn.close()] do not raise. *)

From Stdlib Require Import ZArith NArith List Lia.
From stdpp Require Import base option list gmap sorting.

Local Open Scope Z_scope.

(** ** Python strings *)

Abbreviation pystr := (list N).

(** [str.isspace] for one code point (CPython's [_PyUnicode_IsWhitespace]). *)
Definition isspace (c : N) : bool :=
  (((9 <=? c) && (c <=? 13)) || ((28 <=? c) && (c <=? 32))
   || (c =? 133) || (c =? 160) || (c =? 5760)
   || ((8192 <=? c) && (c <=? 8202))
   || (c =? 8232) || (c =? 8233) || (c =? 8239) || (c =? 8287)
   || (c =? 12288))%N.

Fixpoint lstrip (s : pystr) : pystr :=
  match s with
  | c :: s' => if isspace c then lstrip s' else s
  | [] => []
  end.

(** [s.strip()] *)
Definition strip (s : pystr) : pystr := rev (lstrip (rev (lstrip s))).

(** The literals of the source, as code points. *)
Definition Holes : pystr := [72; 111; 108; 101; 115]%N.             (* "Holes" *)
Definition Assay : pystr := [65; 115; 115; 97; 121]%N.              (* "Assay" *)
Definition col_IMYA : pystr := [1048; 1052; 1071]%N.                (* "ИМЯ" *)
Definition col_X : pystr := [88]%N.                                 (* "X" *)
Definition col_Y : pystr := [89]%N.                                 (* "Y" *)
Definition col_Z : pystr := [90]%N.                                 (* "Z" *)
Definition col_DLINA : pystr := [1044; 1051; 1048; 1053; 1040]%N.   (* "ДЛИНА" *)
Definition col_GORIZONT : pystr :=
  [1043; 1054; 1056; 1048; 1047; 1054; 1053; 1058]%N.               (* "ГОРИЗОНТ" *)
Definition col_DATA_PROHODKI : pystr :=
  [1044; 1040; 1058; 1040; 32; 1055; 1056; 1054; 1061; 1054; 1044; 1050; 1048]%N.
                                                                    (* "ДАТА ПРОХОДКИ" *)
Definition col_OBJEKT : pystr := [1054; 1041; 1066; 1045; 1050; 1058]%N. (* "ОБЪЕКТ" *)
Definition col_OT : pystr := [1054; 1058]%N.                        (* "ОТ" *)
Definition col_DO : pystr := [1044; 1054]%N.                        (* "ДО" *)
Definition col_Au : pystr := [65; 117]%N.                           (* "Au" *)

(** The database field names on the right of the two dictionaries. *)
Definition fld_name : pystr := [110; 97; 109; 101]%N.
Definition fld_x : pystr := [120]%N.
Definition fld_y : pystr := [121]%N.
Definition fld_z : pystr := [122]%N.
Definition fld_lenght : pystr := [108; 101; 110; 103; 104; 116]%N.
Definition fld_level : pystr := [95; 108; 101; 118; 101; 108]%N.
Definition fld_issue_date : pystr :=
  [105; 115; 115; 117; 101; 95; 100; 97; 116; 101]%N.
Definition fld_hole_name : pystr := [104; 111; 108; 101; 95; 110; 97; 109; 101]%N.
Definition fld_from : pystr := [95; 102; 114; 111; 109]%N.
Definition fld_to : pystr := [95; 116; 111]%N.

(** [required_sheets] (lines 53 and 78). *)
Definition required_sheets : list pystr := [Holes; Assay].

(** [holes_cols] and [assay_cols] (lines 96-110): insertion-ordered dicts. *)
Definition holes_cols : list (pystr * pystr) :=
  [ (col_IMYA, fld_name); (col_X, fld_x); (col_Y, fld_y); (col_Z, fld_z);
    (col_DLINA, fld_lenght); (col_GORIZONT, fld_level);
    (col_DATA_PROHODKI, fld_issue_date) ].
Definition assay_cols : list (pystr * pystr) :=
  [ (col_OBJEKT, fld_hole_name); (col_OT, fld_from); (col_DO, fld_to);
    (col_Au, col_Au) ].

(** [dict.keys()], in insertion order. *)
Definition keys (d : list (pystr * pystr)) : list pystr := map fst d.

(** ** Exceptions *)

Inductive exn :=
| Raised (msg : pystr)              (* raised by pandas, sqlite3 or the OS; [str(e)] *)
| WorksheetNotFound (sheet : pystr) (* [xls.parse] of an absent sheet *)
| KeyError (label : pystr)          (* [row[label]] of an absent label *)
| UnhashableSeries                  (* a Series used as a dict key *)
| UnsupportedParameter.             (* a Series bound as an SQL parameter *)

Definition bind_exn {A B} (m : exn + A) (k : A -> exn + B) : exn + B :=
  match m with
  | inl e => inl e
  | inr a => k a
  end.

Notation "'let!' x ':=' m 'in' k" := (bind_exn m (fun x => k))
  (at level 10, x name, m at level 100, k at level 200,
   format "'[v' 'let!'  x  ':='  m  'in' '/' k ']'").

(** Events the function leaves in the world: handles opened and closed,
    and what it asked of the store connection. *)
Inductive event :=
| ExcelOpen        (* [pd.ExcelFile(excel_path)] returned a handle *)
| ExcelClose       (* that handle was closed (exit of the [with] block) *)
| SqliteConnect    (* [sqlite3.connect(db_path)] was called *)
| SqliteCommit
| SqliteRollback
| SqliteClose.

Section Engine.

Context `{Countable val}.

Abbreviation cell := (option val).

(** ** pandas frames *)

(** A frame as [xls.parse] delivers it: the header labels (as [str(c)]
    renders them) and the data rows; the index is the default 0, 1, 2, ...
    A cell a row is too short to hold reads as NaN. *)
Record DataFrame := { columns : list pystr; rows : list (list cell) }.

(** [df.rename(columns=lambda c: str(c).strip(), inplace=True)] *)
Definition rename_strip (df : DataFrame) : DataFrame :=
  {| columns := map strip (columns df); rows := rows df |}.

Definition cell_at (r : list cell) (i : nat) : cell :=
  match r !! i with
  | Some c => c
  | None => None
  end.

(** Positions of [label] in the header, counted from [i]. *)
Fixpoint positions_from (i : nat) (label : pystr) (cols : list pystr) : list nat :=
  match cols with
  | [] => []
  | c :: cols' =>
      if decide (c = label) then i :: positions_from (S i) label cols'
      else positions_from (S i) label cols'
  end.

Definition positions := positions_from 0.

(** What [row[label]] evaluates to: a scalar when the label is unique in
    the header, a Series when it is repeated. *)
Inductive pyobj :=
| Scalar (c : cell)
| Series (cs : list cell).

Definition getitem (cols : list pystr) (r : list cell) (label : pystr) : exn + pyobj :=
  match positions label cols with
  | [] => inl (KeyError label)
  | [i] => inr (Scalar (cell_at r i))
  | ps => inr (Series (map (cell_at r) ps))
  end.

(** Hashing a value to use it as a dict key. *)
Definition hashable (o : pyobj) : exn + cell :=
  match o with
  | Scalar c => inr c
  | Series _ => inl UnhashableSeries
  end.

(** Binding a value as an SQL parameter. *)
Definition param (o : pyobj) : exn + cell :=
  match o with
  | Scalar c => inr c
  | Series _ => inl UnsupportedParameter
  end.

Definition isnull (c : cell) : bool :=
  match c with
  | None => true
  | Some _ => false
  end.

(** [df[required].isnull().any().any()] *)
Definition any_null (df : DataFrame) (required : list pystr) : bool :=
  existsb (fun r =>
    existsb (fun label =>
      existsb (fun i => isnull (cell_at r i)) (positions label (columns df)))
      required)
    (rows df).

(** ** The workbook *)

(** A workbook: its sheets by name, each with what [xls.parse] makes of it. *)
Definition workbook := list (pystr * (exn + DataFrame)).

Definition sheet_names (xls : workbook) : list pystr := map fst xls.

Fixpoint parse (xls : workbook) (name : pystr) : exn + DataFrame :=
  match xls with
  | [] => inl (WorksheetNotFound name)
  | (n, r) :: xls' => if decide (n = name) then r else parse xls' name
  end.

(** ** The store *)

(** The rows of the two tables, with the columns the statements of the
    source name. *)
Record hole_row := {
  h_id : Z; h_name : cell; h_x : cell; h_y : cell; h_z : cell;
  h_lenght : cell; h_level : cell; h_issue_date : cell }.

Record assay_row := {
  a_id : Z; a_hole_id : Z; a_from : cell; a_to : cell; a_Au : cell }.

Record tables := { holes : list hole_row; assay : list assay_row }.

(** The statements the function executes, with their bound parameters. *)
Inductive stmt :=
| PRAGMA_foreign_keys
| SELECT_holes
| UPDATE_holes (x y z lenght level issue_date : cell) (id : Z)
| INSERT_holes (name x y z lenght level issue_date : cell)
| INSERT_assay (hole_id : Z) (from to Au : cell)
| COMMIT.

(** Modelled from the spec: the schema of the store is provisioned by the
    caller and is not in the source. The spec gives
    [holes(id PK, ...)] and [assay(id PK, ...)] with generated
    identities; a new identity is one more than the largest one in the
    table (SQLite's rule for an integer primary key). *)
Definition next_id (ids : list Z) : Z := 1 + foldr Z.max 0 ids.

Definition set_attrs (x y z lenght level issue_date : cell) (h : hole_row) : hole_row :=
  {| h_id := h_id h; h_name := h_name h; h_x := x; h_y := y; h_z := z;
     h_lenght := lenght; h_level := level; h_issue_date := issue_date |}.

(** The effect on the tables of a statement the store accepts, given the
    values the store keeps for its parameters. *)
Definition apply_stmt (s : stmt) (t : tables) : tables :=
  match s with
  | UPDATE_holes x y z l lv d id =>
      {| holes := map (fun h => if decide (h_id h = id)
                               then set_attrs x y z l lv d h else h) (holes t);
         assay := assay t |}
  | INSERT_holes n x y z l lv d =>
      {| holes := holes t ++
           [ {| h_id := next_id (map h_id (holes t)); h_name := n; h_x := x;
                h_y := y; h_z := z; h_lenght := l; h_level := lv;
                h_issue_date := d |} ];
         assay := assay t |}
  | INSERT_assay hid f to au =>
      {| holes := holes t;
         assay := assay t ++
           [ {| a_id := next_id (map a_id (assay t)); a_hole_id := hid;
                a_from := f; a_to := to; a_Au := au |} ] |}
  | PRAGMA_foreign_keys | SELECT_holes | COMMIT => t
  end.

(** [cur.lastrowid] right after an [INSERT INTO holes]. *)
Definition lastrowid (t : tables) : Z :=
  match last (holes t) with
  | Some h => h_id h
  | None => 0
  end.

(** ** The environment of one call *)

(** What the call finds outside: the workbook behind [excel_path] and the
    failures the store layer answers with. [rejects s t] is the exception
    the store raises for statement [s] on the (uncommitted) contents [t],
    if any: constraint violations, a missing table, a locked file. *)
Record env := {
  excel : exn + workbook;              (* what [pd.ExcelFile(excel_path)] gives *)
  excel_isfile : bool;                 (* [os.path.isfile(excel_path)] *)
  connect_error : option exn;          (* what [sqlite3.connect(db_path)] raises *)
  rejects : stmt -> tables -> option exn;
  stored : pystr -> val -> val }.

(** [stored E sheet v] is the value the store keeps, and hands back when it
    is read, for a cell [v] of the given sheet bound as a parameter. sqlite3
    keeps a [str], a [float] and an [int] as they are. The cells of a sheet
    that holds nothing but integers reach it as [numpy.int64], which it
    does not know as a number: it keeps the eight bytes of the value as a
    BLOB, and a later read returns a [bytes] object. NULL stays NULL. *)
Definition kept (E : env) (sheet : pystr) (c : cell) : cell := stored E sheet <$> c.

(** The parameters of a statement as the store keeps them: those of the
    statements on [holes] are cells of the Holes sheet, those of the
    [INSERT INTO assay] cells of the Assay sheet; an identity is a Python
    [int] that the store itself has handed out. *)
Definition bind (E : env) (s : stmt) : stmt :=
  match s with
  | UPDATE_holes x y z l lv d id =>
      UPDATE_holes (kept E Holes x) (kept E Holes y) (kept E Holes z) (kept E Holes l)
                   (kept E Holes lv) (kept E Holes d) id
  | INSERT_holes n x y z l lv d =>
      INSERT_holes (kept E Holes n) (kept E Holes x) (kept E Holes y) (kept E Holes z)
                   (kept E Holes l) (kept E Holes lv) (kept E Holes d)
  | INSERT_assay hid f to au =>
      INSERT_assay hid (kept E Assay f) (kept E Assay to) (kept E Assay au)
  | PRAGMA_foreign_keys | SELECT_holes | COMMIT => s
  end.

(** The mutable world: the store file behind one database path and the
    trace of the calls. A call is given the world of the [db_path] it is
    called with; two calls share a world only when they are given the same
    path. *)
Record world := {
  db_isfile : bool;                    (* [os.path.isfile(db_path)] *)
  db : tables;                         (* the committed contents of the store *)
  log : list event }.

Definition emit (ev : list event) (w : world) : world :=
  {| db_isfile := db_isfile w; db := db w; log := log w ++ ev |}.

(** [cur.execute(s, params)] on the connection's view [t] of the store:
    the parameters are bound and, unless the store raises, the statement
    takes effect. *)
Definition execute (E : env) (s : stmt) (t : tables) : exn + tables :=
  match rejects E s t with
  | Some e => inl e
  | None => inr (apply_stmt (bind E s) t)
  end.

(** ** Diagnostics: one constructor per message of the source *)

Inductive diagnostic :=
| ExcelReadOrParseError (e : exn)               (* line 64 *)
| ExcelFileNotFound (excel_path : pystr)        (* line 68 *)
| DbFileNotFound (db_path : pystr)              (* line 70 *)
| ExcelReadError (e : exn)                      (* line 75 *)
| MissingSheet (sheet : pystr)                  (* lines 56 and 81 *)
| SheetParseError (e : exn)                     (* line 93 *)
| MissingColumn (col : pystr) (sheet : pystr)   (* lines 115 and 118 *)
| NullValues (sheet : pystr)                    (* lines 124 and 126 *)
| UnknownHole (hole_name : cell) (row : Z)      (* line 180 *)
| DbError (e : exn).                            (* line 202 *)

(** ** The merge phase (lines 130-202) *)

(** [cur.fetchall()] after [SELECT id, name FROM holes]. *)
Definition fetchall (t : tables) : list (Z * cell) :=
  map (fun h => (h_id h, h_name h)) (holes t).

(** Lines 138-141: the name -> id dictionary of the holes already stored. *)
Definition load_names (fetched : list (Z * cell)) : gmap cell Z :=
  foldl (fun hole_name_to_id row => <[row.2 := row.1]> hole_name_to_id) ∅ fetched.

(** Lines 146-168: the body of the loop over the rows of the Holes sheet. *)
Definition hole_step (E : env) (cols : list pystr)
    (s : gmap cell Z * tables) (row : list cell) : exn + (gmap cell Z * tables) :=
  let hole_name_to_id := s.1 in
  let t := s.2 in
  let! name := getitem cols row col_IMYA in
  let! x_val := getitem cols row col_X in
  let! y_val := getitem cols row col_Y in
  let! z_val := getitem cols row col_Z in
  let! length_val := getitem cols row col_DLINA in
  let! level_val := getitem cols row col_GORIZONT in
  let! issue_date_val := getitem cols row col_DATA_PROHODKI in
  let! key := hashable name in
  match hole_name_to_id !! key with
  | Some hole_id =>
      let! x := param x_val in
      let! y := param y_val in
      let! z := param z_val in
      let! l := param length_val in
      let! lv := param level_val in
      let! d := param issue_date_val in
      let! t' := execute E (UPDATE_holes x y z l lv d hole_id) t in
      inr (hole_name_to_id, t')
  | None =>
      let! x := param x_val in
      let! y := param y_val in
      let! z := param z_val in
      let! l := param length_val in
      let! lv := param level_val in
      let! d := param issue_date_val in
      let! t' := execute E (INSERT_holes key x y z l lv d) t in
      let hole_id := lastrowid t' in
      inr (<[key := hole_id]> hole_name_to_id, t')
  end.

(** Line 145: [for idx, row in holes_df.iterrows()]. *)
Fixpoint holes_loop (E : env) (cols : list pystr)
    (s : gmap cell Z * tables) (rs : list (list cell)) : exn + (gmap cell Z * tables) :=
  match rs with
  | [] => inr s
  | row :: rs' =>
      let! s' := hole_step E cols s row in
      holes_loop E cols s' rs'
  end.

(** Lines 172-186: the body of the loop over the rows of the Assay sheet;
    [s] is the pair of [errors] and the connection's view of the store. *)
Definition assay_step (E : env) (cols : list pystr) (hole_name_to_id : gmap cell Z)
    (idx : Z) (s : list diagnostic * tables) (row : list cell)
    : exn + (list diagnostic * tables) :=
  let errors := s.1 in
  let t := s.2 in
  let! hole_name := getitem cols row col_OBJEKT in
  let! from_val := getitem cols row col_OT in
  let! to_val := getitem cols row col_DO in
  let! au_val := getitem cols row col_Au in
  let! key := hashable hole_name in
  match hole_name_to_id !! key with
  | None => inr (errors ++ [UnknownHole key (idx + 2)], t)
  | Some hole_id =>
      let! f := param from_val in
      let! to := param to_val in
      let! au := param au_val in
      let! t' := execute E (INSERT_assay hole_id f to au) t in
      inr (errors, t')
  end.

(** Line 171: [for idx, row in assay_df.iterrows()], from index [idx]. *)
Fixpoint assay_loop (E : env) (cols : list pystr) (hole_name_to_id : gmap cell Z)
    (idx : Z) (s : list diagnostic * tables) (rs : list (list cell))
    : exn + (list diagnostic * tables) :=
  match rs with
  | [] => inr s
  | row :: rs' =>
      let! s' := assay_step E cols hole_name_to_id idx s row in
      assay_loop E cols hole_name_to_id (idx + 1) s' rs'
  end.

(** Lines 133-186: everything between [sqlite3.connect] and the decision
    to commit, on the connection's view [t0] of the store. *)
Definition merge_rows (E : env) (holes_df assay_df : DataFrame)
    (errors : list diagnostic) (t0 : tables) : exn + (list diagnostic * tables) :=
  let! t1 := execute E PRAGMA_foreign_keys t0 in
  let! t2 := execute E SELECT_holes t1 in
  let hole_name_to_id := load_names (fetchall t2) in
  let! s := holes_loop E (columns holes_df) (hole_name_to_id, t2) (rows holes_df) in
  assay_loop E (columns assay_df) s.1 0 (errors, s.2) (rows assay_df).

Definition result : Type := (bool * list diagnostic) * world.

(** Lines 130-202. A rollback or a close discards the connection's view;
    only a commit writes it to the store. [conn.rollback()] and
    [conn.close()] themselves are taken not to raise. *)
Definition merge (E : env) (holes_df assay_df : DataFrame)
    (errors : list diagnostic) (w : world) : result :=
  let w := emit [SqliteConnect] w in
  match connect_error E with
  | Some e => ((false, [DbError e]), w)
  | None =>
      let w := {| db_isfile := true; db := db w; log := log w |} in
      match merge_rows E holes_df assay_df errors (db w) with
      | inl e => ((false, [DbError e]), emit [SqliteRollback; SqliteClose] w)
      | inr (errors, t) =>
          match errors with
          | _ :: _ => ((false, errors), emit [SqliteRollback; SqliteClose] w)
          | [] =>
              match execute E COMMIT t with
              | inl e => ((false, [DbError e]), emit [SqliteRollback; SqliteClose] w)
              | inr t' =>
                  ((true, []),
                   {| db_isfile := true; db := t'; log := log w ++ [SqliteCommit; SqliteClose] |})
              end
          end
      end
  end.

(** ** The reader and the validator (lines 49-128) *)

(** Lines 54-56 and 79-81. *)
Definition check_sheets (xls : workbook) (errors : list diagnostic) : list diagnostic :=
  foldl (fun errors sheet =>
           if decide (sheet ∈ sheet_names xls) then errors
           else errors ++ [MissingSheet sheet])
        errors required_sheets.

(** Lines 59-62 and 87-91. *)
Definition parse_sheets (xls : workbook) : exn + (DataFrame * DataFrame) :=
  let! holes_df := parse xls Holes in
  let! assay_df := parse xls Assay in
  inr (rename_strip holes_df, rename_strip assay_df).

(** Lines 113-118. *)
Definition check_columns (df : DataFrame) (cols : list (pystr * pystr))
    (sheet : pystr) (errors : list diagnostic) : list diagnostic :=
  foldl (fun errors col =>
           if decide (col ∈ columns df) then errors
           else errors ++ [MissingColumn col sheet])
        errors (keys cols).

(** Lines 123-126. *)
Definition check_nulls (df : DataFrame) (cols : list (pystr * pystr))
    (sheet : pystr) (errors : list diagnostic) : list diagnostic :=
  if any_null df (keys cols) then errors ++ [NullValues sheet] else errors.

(** Lines 65-202: what follows the first [try] block. The workbook is
    opened a second time (line 73) and bound to a plain local. *)
Definition validate_and_merge (E : env) (excel_path db_path : pystr) (w : world) : result :=
  let errors : list diagnostic := [] in
  if negb (excel_isfile E) then ((false, [ExcelFileNotFound excel_path]), w) else
  if negb (db_isfile w) then ((false, [DbFileNotFound db_path]), w) else
  match excel E with
  | inl e => ((false, [ExcelReadError e]), w)
  | inr xls =>
      let w := emit [ExcelOpen] w in
      let errors := check_sheets xls errors in
      match errors with
      | _ :: _ => ((false, errors), w)
      | [] =>
          match parse_sheets xls with
          | inl e => ((false, [SheetParseError e]), w)
          | inr (holes_df, assay_df) =>
              let errors := check_columns holes_df holes_cols Holes errors in
              let errors := check_columns assay_df assay_cols Assay errors in
              match errors with
              | _ :: _ => ((false, errors), w)
              | [] =>
                  let errors := check_nulls holes_df holes_cols Holes errors in
                  let errors := check_nulls assay_df assay_cols Assay errors in
                  match errors with
                  | _ :: _ => ((false, errors), w)
                  | [] => merge E holes_df assay_df errors w
                  end
              end
          end
      end
  end.

(** [import_excel_to_db(excel_path, db_path)] (lines 36-202). *)
Definition import_excel_to_db (E : env) (excel_path db_path : pystr) (w : world) : result :=
  let errors : list diagnostic := [] in
  match excel E with
  | inl e => ((false, [ExcelReadOrParseError e]), w)
  | inr xls =>
      let w := emit [ExcelOpen] w in
      let errors := check_sheets xls errors in
      match errors with
      | _ :: _ => ((false, errors), emit [ExcelClose] w)
      | [] =>
          match parse_sheets xls with
          | inl e => ((false, [ExcelReadOrParseError e]), emit [ExcelClose] w)
          | inr _ => validate_and_merge E excel_path db_path (emit [ExcelClose] w)
          end
      end
  end.

(** ** Notions the properties are stated with *)

(** The required columns a header lacks, as the diagnostics reporting them. *)
Definition missing_columns (header : list pystr) (cols : list (pystr * pystr))
    (sheet : pystr) : list diagnostic :=
  map (fun col => MissingColumn col sheet)
      (filter (fun col => col ∉ header) (keys cols)).

(** Some cell of a required column is null. *)
Definition null_in_required (df : DataFrame) (required : list pystr) : Prop :=
  ∃ r label i, r ∈ rows df ∧ label ∈ required ∧
    columns df !! i = Some label ∧ cell_at r i = None.

(** The sheet-level diagnostic of the completeness check. *)
Definition null_report (df : DataFrame) (cols : list (pystr * pystr))
    (sheet : pystr) : list diagnostic :=
  if any_null df (keys cols) then [NullValues sheet] else [].

(** The call passes the reader and the validator: the workbook opens and
    parses into the two frames, both paths name files, no required column
    is missing and no required cell is null. *)
Definition validated (E : env) (w : world) (xls : workbook)
    (hdf adf : DataFrame) : Prop :=
  excel E = inr xls ∧ parse_sheets xls = inr (hdf, adf) ∧
  excel_isfile E = true ∧ db_isfile w = true ∧
  missing_columns (columns hdf) holes_cols Holes = [] ∧
  missing_columns (columns adf) assay_cols Assay = [] ∧
  any_null hdf (keys holes_cols) = false ∧
  any_null adf (keys assay_cols) = false.

(** What the reader and the validator leave in the trace on the way to
    the merge: the scoped handle of line 52 and the handle of line 73. *)
Definition reader_trace : list event := [ExcelOpen; ExcelClose; ExcelOpen].

(** The values one row of the Holes sheet contributes: what lines 146-152
    read, hashed as a key (line 154) and bound as parameters. *)
Record hole_fields := {
  f_name : cell; f_x : cell; f_y : cell; f_z : cell;
  f_lenght : cell; f_level : cell; f_issue_date : cell }.

Definition read_hole (cols : list pystr) (row : list cell) : exn + hole_fields :=
  let! name := getitem cols row col_IMYA in
  let! x_val := getitem cols row col_X in
  let! y_val := getitem cols row col_Y in
  let! z_val := getitem cols row col_Z in
  let! length_val := getitem cols row col_DLINA in
  let! level_val := getitem cols row col_GORIZONT in
  let! issue_date_val := getitem cols row col_DATA_PROHODKI in
  let! key := hashable name in
  let! x := param x_val in
  let! y := param y_val in
  let! z := param z_val in
  let! l := param length_val in
  let! lv := param level_val in
  let! d := param issue_date_val in
  inr {| f_name := key; f_x := x; f_y := y; f_z := z;
         f_lenght := l; f_level := lv; f_issue_date := d |}.

(** The statement a row of the Holes sheet turns into. *)
Definition update_of (f : hole_fields) (hole_id : Z) : stmt :=
  UPDATE_holes (f_x f) (f_y f) (f_z f) (f_lenght f) (f_level f) (f_issue_date f) hole_id.

Definition insert_of (f : hole_fields) : stmt :=
  INSERT_holes (f_name f) (f_x f) (f_y f) (f_z f) (f_lenght f) (f_level f)
               (f_issue_date f).

(** Lines 154-168 on the values of one row: update if the name is known,
    insert and extend the dictionary otherwise. *)
Definition upsert_hole (E : env) (s : gmap cell Z * tables) (f : hole_fields)
    : exn + (gmap cell Z * tables) :=
  match s.1 !! f_name f with
  | Some hole_id =>
      let! t' := execute E (update_of f hole_id) s.2 in
      inr (s.1, t')
  | None =>
      let! t' := execute E (insert_of f) s.2 in
      inr (<[f_name f := lastrowid t']> s.1, t')
  end.

(** The attributes of a hole, and the store seen by name: the attributes
    recorded under each hole name, and the assay intervals with the name
    of the hole each one refers to. *)
Definition attrs : Type := cell * cell * cell * cell * cell * cell.

Definition attrs_of (h : hole_row) : attrs :=
  (h_x h, h_y h, h_z h, h_lenght h, h_level h, h_issue_date h).

Definition attrs_of_fields (f : hole_fields) : attrs :=
  (f_x f, f_y f, f_z f, f_lenght f, f_level f, f_issue_date f).

(** The values of a row of the Holes sheet as the store keeps them. *)
Definition kept_fields (E : env) (f : hole_fields) : hole_fields :=
  {| f_name := kept E Holes (f_name f); f_x := kept E Holes (f_x f);
     f_y := kept E Holes (f_y f); f_z := kept E Holes (f_z f);
     f_lenght := kept E Holes (f_lenght f); f_level := kept E Holes (f_level f);
     f_issue_date := kept E Holes (f_issue_date f) |}.

Definition hole_view (t : tables) : gmap cell attrs :=
  list_to_map (map (fun h => (h_name h, attrs_of h)) (holes t)).

Definition id_names (t : tables) : gmap Z cell := list_to_map (fetchall t).

Definition assay_view (t : tables) : list (option cell * cell * cell * cell) :=
  map (fun a => (id_names t !! a_hole_id a, a_from a, a_to a, a_Au a)) (assay t).

(** The constraints of the schema as the spec gives it: [id] is a primary
    key, [name] is unique, [assay.hole_id] refers to a stored hole. *)
Definition store_ok (t : tables) : Prop :=
  NoDup (map h_id (holes t)) ∧ NoDup (map h_name (holes t)) ∧
  Forall (fun a => a_hole_id a ∈ map h_id (holes t)) (assay t).

(** The key constraints alone: [id] is a primary key and [assay.hole_id]
    refers to a stored hole. *)
Definition keys_ok (t : tables) : Prop :=
  NoDup (map h_id (holes t)) ∧
  Forall (fun a => a_hole_id a ∈ map h_id (holes t)) (assay t).

(** The dictionary is the index of the holes table: it binds a name to an
    identity exactly when a stored hole has that name and identity. *)
Definition indexed (hole_name_to_id : gmap cell Z) (t : tables) : Prop :=
  store_ok t ∧
  ∀ k hole_id, hole_name_to_id !! k = Some hole_id ↔ (hole_id, k) ∈ fetchall t.

(** The same environment with another workbook behind [excel_path]. *)
Definition with_excel (E : env) (x : exn + workbook) : env :=
  {| excel := x; excel_isfile := excel_isfile E;
     connect_error := connect_error E; rejects := rejects E; stored := stored E |}.

(** A header in which each of the given labels occurs exactly once. *)
Definition unique_labels (cols : list pystr) (required : list pystr) : Prop :=
  Forall (fun label => length (positions label cols) = 1%nat) required.

(** The scalar a row holds under a label (the first column so labelled). *)
Definition field (cols : list pystr) (row : list cell) (label : pystr) : cell :=
  match positions label cols with
  | i :: _ => cell_at row i
  | [] => None
  end.

(** The values of a Holes row under a header with unique labels. *)
Definition hole_of_row (cols : list pystr) (row : list cell) : hole_fields :=
  {| f_name := field cols row col_IMYA; f_x := field cols row col_X;
     f_y := field cols row col_Y; f_z := field cols row col_Z;
     f_lenght := field cols row col_DLINA; f_level := field cols row col_GORIZONT;
     f_issue_date := field cols row col_DATA_PROHODKI |}.

(** The Holes pass seen by name: each row records its attributes, as the
    store keeps them, under its name, in row order, so that a later row of
    the same name wins. *)
Definition record_rows (E : env) (cols : list pystr) (rs : list (list cell))
    (v : gmap cell attrs) : gmap cell attrs :=
  foldl (fun v row =>
           <[field cols row col_IMYA :=
               attrs_of_fields (kept_fields E (hole_of_row cols row))]> v)
        v rs.

(** The hole names of the sheet are kept by the store as they are written
    (as text names are). *)
Definition names_kept (E : env) (cols : list pystr) (rs : list (list cell)) : Prop :=
  Forall (fun row => kept E Holes (field cols row col_IMYA) = field cols row col_IMYA) rs.

(** Every binding of the dictionary leads to a stored hole, which carries
    the name as it is written or as the store keeps it. *)
Definition resolves (E : env) (hole_name_to_id : gmap cell Z) (t : tables) : Prop :=
  ∀ k hole_id, hole_name_to_id !! k = Some hole_id →
    ∃ h, h ∈ holes t ∧ h_id h = hole_id
         ∧ (h_name h = k ∨ h_name h = kept E Holes k).

(** Step 3 of the spec for one row of the Holes sheet: if the name
    already maps to an identity, the attributes of the record with that
    identity are overwritten with the values of the row; otherwise a new
    record is inserted, with a generated identity, and the name is added to
    the map at once. *)
Definition overwrite (hole_id : Z) (f : hole_fields) (t : tables) : tables :=
  {| holes :=
       map (fun h =>
              if decide (h_id h = hole_id)
              then {| h_id := h_id h; h_name := h_name h; h_x := f_x f; h_y := f_y f;
                      h_z := f_z f; h_lenght := f_lenght f; h_level := f_level f;
                      h_issue_date := f_issue_date f |}
              else h) (holes t);
     assay := assay t |}.

Definition upsert_row (E : env) (cols : list pystr)
    (s : gmap cell Z * tables) (row : list cell) : gmap cell Z * tables :=
  let name := field cols row col_IMYA in
  let f := kept_fields E (hole_of_row cols row) in
  match s.1 !! name with
  | Some hole_id => (s.1, overwrite hole_id f s.2)
  | None =>
      let hole_id := next_id (map h_id (holes s.2)) in
      (<[name := hole_id]> s.1,
       {| holes := holes s.2 ++
            [ {| h_id := hole_id; h_name := f_name f; h_x := f_x f; h_y := f_y f;
                 h_z := f_z f; h_lenght := f_lenght f; h_level := f_level f;
                 h_issue_date := f_issue_date f |} ];
          assay := assay s.2 |})
  end.

(** The last row of the sheet that carries a name. *)
Definition last_named (cols : list pystr) (k : cell) (rs : list (list cell))
    : option (list cell) :=
  last (filter (fun row => field cols row col_IMYA = k) rs).


(** The hole row an [INSERT INTO holes] adds, from the values kept. *)
Definition new_hole (hole_id : Z) (f : hole_fields) : hole_row :=
  {| h_id := hole_id; h_name := f_name f; h_x := f_x f; h_y := f_y f;
     h_z := f_z f; h_lenght := f_lenght f; h_level := f_level f;
     h_issue_date := f_issue_date f |}.

(** The assay row an [INSERT INTO assay] adds for a row of the sheet. *)
Definition new_assay (E : env) (t : tables) (hole_id : Z) (cols : list pystr)
    (row : list cell) : assay_row :=
  {| a_id := next_id (map a_id (assay t)); a_hole_id := hole_id;
     a_from := kept E Assay (field cols row col_OT);
     a_to := kept E Assay (field cols row col_DO);
     a_Au := kept E Assay (field cols row col_Au) |}.


(** The diagnostics of the pass over the Assay sheet: one for each row
    whose hole name the dictionary does not hold, numbered as the sheet
    numbers its rows (the header is row 1, the row of index 0 is row 2). *)
Definition unknown_holes (cols : list pystr) (hole_name_to_id : gmap cell Z)
    (idx : Z) (rs : list (list cell)) : list diagnostic :=
  concat (imap (fun (i : nat) row =>
                  match hole_name_to_id !! field cols row col_OBJEKT with
                  | None => [UnknownHole (field cols row col_OBJEKT) (idx + Z.of_nat i + 2)]
                  | Some _ => []
                  end) rs).


(** The intervals of the rows of the Assay sheet as the store keeps them,
    each with the hole name the row carries. *)
Definition sheet_intervals (E : env) (cols : list pystr) (rs : list (list cell))
    : list (option cell * cell * cell * cell) :=
  map (fun row => (Some (field cols row col_OBJEKT),
                   kept E Assay (field cols row col_OT),
                   kept E Assay (field cols row col_DO),
                   kept E Assay (field cols row col_Au))) rs.

(** Those of them whose hole name the dictionary holds. *)
Definition named_intervals (E : env) (cols : list pystr)
    (hole_name_to_id : gmap cell Z) (rs : list (list cell))
    : list (option cell * cell * cell * cell) :=
  sheet_intervals E cols
    (filter (fun row => is_Some (hole_name_to_id !! field cols row col_OBJEKT)) rs).

(** The kinds of diagnostics the function has messages for. *)
Inductive diagnostic_kind :=
| ReadFailure | FileNotFound | SheetMissing | ColumnMissing | ValuesMissing
| HoleUnknown | StoreFailure.

Definition kind_of (d : diagnostic) : diagnostic_kind :=
  match d with
  | ExcelReadOrParseError _ | ExcelReadError _ | SheetParseError _ => ReadFailure
  | ExcelFileNotFound _ | DbFileNotFound _ => FileNotFound
  | MissingSheet _ => SheetMissing
  | MissingColumn _ _ => ColumnMissing
  | NullValues _ => ValuesMissing
  | UnknownHole _ _ => HoleUnknown
  | DbError _ => StoreFailure
  end.

(** What the call asked of the store connection, in order. *)
Definition is_store_event (ev : event) : bool :=
  match ev with
  | ExcelOpen | ExcelClose => false
  | SqliteConnect | SqliteCommit | SqliteRollback | SqliteClose => true
  end.

Definition store_events (evs : list event) : list event :=
  List.filter is_store_event evs.

(** A call the reader or the validator stops: the diagnostics it returns
    and the trace it leaves. *)
Definition stopped_early (E : env) (excel_path db_path : pystr)
    (errs : list diagnostic) (evs : list event) : Prop :=
  ((∃ e, errs = [ExcelReadOrParseError e]) ∧ (evs = [] ∨ evs = [ExcelOpen; ExcelClose]))
  ∨ ((∃ xls, excel E = inr xls ∧ errs = check_sheets xls []) ∧ evs = [ExcelOpen; ExcelClose])
  ∨ (errs = [ExcelFileNotFound excel_path] ∧ evs = [ExcelOpen; ExcelClose])
  ∨ (errs = [DbFileNotFound db_path] ∧ evs = [ExcelOpen; ExcelClose])
  ∨ ((∃ hdf adf, errs = missing_columns (columns hdf) holes_cols Holes ++
                        missing_columns (columns adf) assay_cols Assay)
     ∧ evs = reader_trace)
  ∨ ((∃ hdf adf, errs = null_report hdf holes_cols Holes ++
                        null_report adf assay_cols Assay)
     ∧ evs = reader_trace).

(** Handles opened and not closed again in a trace. *)
Fixpoint unreleased (evs : list event) : Z :=
  match evs with
  | [] => 0
  | ExcelOpen :: evs' => unreleased evs' + 1
  | ExcelClose :: evs' => unreleased evs' - 1
  | _ :: evs' => unreleased evs'
  end.

End Engine.

(** * The widget (lines 206-329)

    [ImportWidget] keeps the path of the store, the text of the line edit
    and the cells of the table; the message boxes its handlers open are
    returned to the caller. *)

Section Widget.

Context `{Countable val}.

Abbreviation cell := (option val).

Record ImportWidget := {
  self_db_path : pystr;                (* [self.db_path] *)
  file_line_edit : pystr;              (* [self.file_line_edit.text()] *)
  table : list (list pystr) }.         (* the items of [self.table], row by row *)

(** [self.file_line_edit.setText(text)] *)
Definition setText (text : pystr) (self : ImportWidget) : ImportWidget :=
  {| self_db_path := self_db_path self; file_line_edit := text; table := table self |}.

(** The message boxes of the two handlers. *)
Inductive message_box :=
| Warning                                             (* line 298 *)
| Information                                         (* line 302 *)
| Critical (messages : list (diagnostic (val:=val)))  (* line 304, one message per line *)
| LoadFailed (e : exn).                               (* line 320 *)

(** [handle_import] (lines 294-304), on the world of [self.db_path]. [E]
    is what the call of [import_excel_to_db] finds behind the trimmed
    path. *)
Definition handle_import (E : env) (self : ImportWidget) (w : world)
    : message_box * world :=
  let excel_path := strip (file_line_edit self) in
  match excel_path with
  | [] => (Warning, w)
  | _ :: _ =>
      let r := import_excel_to_db E excel_path (self_db_path self) w in
      if r.1.1 then (Information, r.2) else (Critical r.1.2, r.2)
  end.

(** What [show_data] finds outside: the failures of [sqlite3.connect] and
    of the query, the latter on the contents of the store. *)
Record viewer := {
  view_connect_error : option exn;
  view_query_error : tables (val:=val) -> option exn }.

(** A row of the query of lines 312-316: [h.name, a._from, a._to, a.Au]. *)
Abbreviation shown := (cell * cell * cell * cell)%type.

(** [FROM assay a JOIN holes h ON a.hole_id = h.id]: the pairs of an assay
    row and a hole row with that identity, in scan order. *)
Definition join_rows (t : tables) : list shown :=
  a ← assay t;
  h ← holes t;
  if decide (a_hole_id a = h_id h) then [(h_name h, a_from a, a_to a, a_Au a)] else [].

(** [str] renders a fetched value (line 325); [sql_le] is the order in
    which the store sorts values. *)
Variable str : cell -> pystr.
Variable sql_le : cell -> cell -> bool.

(** [ORDER BY h.name, a._from]: by name, and by [_from] among equal names. *)
Definition order_by (r1 r2 : shown) : Prop :=
  sql_le r1.1.1.1 r2.1.1.1 = true
  ∧ (sql_le r2.1.1.1 r1.1.1.1 = true → sql_le r1.1.1.2 r2.1.1.2 = true).

#[local] Instance order_by_dec r1 r2 : Decision (order_by r1 r2) :=
  ltac:(unfold order_by; apply _).

(** A row put before the first row that may come after it. *)
Fixpoint insert_row (r : shown) (l : list shown) : list shown :=
  match l with
  | [] => [r]
  | r' :: l' => if decide (order_by r r') then r :: l else r' :: insert_row r l'
  end.

(** [cur.execute(query).fetchall()]: the joined rows in the order asked
    for. Rows the order does not tell apart stay in scan order; the store
    does so without promising it, and no property below relies on it. *)
Definition select_rows (t : tables) : list shown :=
  foldr insert_row [] (join_rows t).

(** Lines 324-328: the four items of one row of the table. *)
Definition items (r : shown) : list pystr :=
  [str r.1.1.1; str r.1.1.2; str r.1.2; str r.2].

(** [show_data] (lines 306-329), on the world of [self.db_path].
    [sqlite3.connect] creates the file of the store when there is none;
    [conn.close()] is reached only when the query has not raised. *)
Definition show_data (V : viewer) (self : ImportWidget) (w : world)
    : option message_box * ImportWidget * world :=
  let w := emit [SqliteConnect] w in
  match view_connect_error V with
  | Some e => (Some (LoadFailed e), self, w)
  | None =>
      let w := {| db_isfile := true; db := db w; log := log w |} in
      match view_query_error V (db w) with
      | Some e => (Some (LoadFailed e), self, w)
      | None =>
          let rows := select_rows (db w) in
          (None,
           {| self_db_path := self_db_path self;
              file_line_edit := file_line_edit self;
              table := map items rows |},
           emit [SqliteClose] w)
      end
  end.

(** ** Notions the properties of the widget are stated with *)

(** Nothing but whitespace. *)
Definition blank (s : pystr) : Prop := Forall (fun c => isspace c = true) s.

(** A row of the query as the by-name view of the store has it. *)
Definition by_name (r : shown) : option cell * cell * cell * cell :=
  (Some r.1.1.1, r.1.1.2, r.1.2, r.2).

(** Two workbooks with the same sheets, whose frames have the same rows
    and headers that agree once trimmed. *)
Definition same_trimmed (xls xls' : workbook (val:=val)) : Prop :=
  Forall2 (fun s s' =>
             s.1 = s'.1 ∧
             match s.2, s'.2 with
             | inl e, inl e' => e = e'
             | inr df, inr df' =>
                 rows df = rows df' ∧ map strip (columns df) = map strip (columns df')
             | _, _ => False
             end) xls xls'.

End Widget.

(** * A small journal

    Concrete workbooks and stores on which the properties below are
    exercised. The hole names are text, as in the journals the tests of
    the repository write: a frame with a text column hands its cells over
    as Python objects, [str] and [int], which the store keeps as they are.
    The ledger at the end holds nothing but integers. *)

Module Journal.

(** The values of the cells: text, integers, and the byte strings the
    store hands back for what it kept as a BLOB. Values that Python's
    [==] tells apart are apart here. *)
Inductive pyval :=
| Text (s : pystr)
| Int (z : Z)
| Bytes (bs : list N).

#[global] Instance pyval_eq_dec : EqDecision pyval := ltac:(solve_decision).

#[global] Instance pyval_countable : Countable pyval :=
  inj_countable'
    (fun v => match v with
              | Text s => inl s
              | Int z => inr (inl z)
              | Bytes bs => inr (inr bs)
              end)
    (fun x => match x with
              | inl s => Text s
              | inr (inl z) => Int z
              | inr (inr bs) => Bytes bs
              end)
    (fun v => match v with Text _ | Int _ | Bytes _ => eq_refl end).

Definition txt (s : pystr) : option pyval := Some (Text s).
Definition num (z : Z) : option pyval := Some (Int z).

Definition journal_path : pystr := [106; 46; 120; 108; 115; 120]%N.   (* "j.xlsx" *)
Definition store_path : pystr := [100; 98]%N.                         (* "db" *)

(** The header of the Holes sheet as typed in the workbook, with stray
    blanks around "X" and after "Z". *)
Definition holes_header : list pystr :=
  [col_IMYA; [32; 88; 32]%N; col_Y; [90; 9]%N; col_DLINA; col_GORIZONT;
   col_DATA_PROHODKI].

Definition assay_header : list pystr := [col_OBJEKT; col_OT; col_DO; col_Au].

(** The hole names "A", "B" and "C", and "O" for the hole of the old store. *)
Definition name_A : option pyval := txt [65]%N.
Definition name_B : option pyval := txt [66]%N.
Definition name_C : option pyval := txt [67]%N.
Definition name_O : option pyval := txt [79]%N.

Definition hole_A : list (option pyval) :=
  [name_A; num 0; num 0; num 0; num 10; num 100; num 20231231].
Definition hole_B : list (option pyval) :=
  [name_B; num 5; num 5; num 5; num 12; num 100; num 20231231].
(** The hole "A" once more, surveyed again. *)
Definition hole_A' : list (option pyval) :=
  [name_A; num 1; num 2; num 3; num 11; num 100; num 20240101].
(** The hole of the old store with new attributes. *)
Definition hole_O : list (option pyval) :=
  [name_O; num 2; num 2; num 2; num 9; num 90; num 20220101].

Definition holes_AB : DataFrame :=
  {| columns := holes_header; rows := [hole_A; hole_B] |}.

(** A stored hole, a new one, and the new one again. *)
Definition holes_OAA : DataFrame :=
  {| columns := holes_header; rows := [hole_O; hole_A; hole_A'] |}.

(** Intervals of the holes "A" and "B". *)
Definition assay_AB : DataFrame :=
  {| columns := assay_header;
     rows := [ [name_A; num 0; num 1; num 7];
               [name_B; num 0; num 1; num 3] ] |}.

(** An interval of the hole "A". *)
Definition assay_A : DataFrame :=
  {| columns := assay_header; rows := [ [name_A; num 0; num 1; num 7] ] |}.

(** The second row names a hole "C" that exists nowhere. *)
Definition assay_unknown : DataFrame :=
  {| columns := assay_header;
     rows := [ [name_A; num 0; num 1; num 7];
               [name_C; num 0; num 1; num 3] ] |}.

(** A Holes sheet without the column "X", an Assay sheet without "Au". *)
Definition holes_no_X : DataFrame :=
  {| columns := [col_IMYA; col_Y; col_Z; col_DLINA; col_GORIZONT; col_DATA_PROHODKI];
     rows := [ [name_A; num 0; num 0; num 10; num 100; num 20231231] ] |}.
Definition assay_no_Au : DataFrame :=
  {| columns := [col_OBJEKT; col_OT; col_DO];
     rows := [ [name_A; num 0; num 1] ] |}.

(** Sheets with empty cells: two on the Holes sheet, one on the Assay sheet. *)
Definition holes_null : DataFrame :=
  {| columns := holes_header;
     rows := [ [name_A; num 0; None; num 0; num 10; num 100; num 20231231];
               [name_B; None; num 5; num 5; num 12; num 100; num 20231231] ] |}.
Definition assay_null : DataFrame :=
  {| columns := assay_header; rows := [ [name_A; num 0; None; num 7] ] |}.

Definition book (h a : DataFrame (val:=pyval)) : workbook :=
  [(Holes, inr h); (Assay, inr a)].

(** An environment in which the workbook is a readable file, the store
    raises nothing and keeps every value as it is bound: that of a
    workbook whose sheets have a text column. *)
Definition quiet (xls : workbook (val:=pyval)) : env :=
  {| excel := inr xls; excel_isfile := true; connect_error := None;
     rejects := fun _ _ => None; stored := fun _ v => v |}.

(** A store that holds one hole, named "O", with one interval. *)
Definition old_tables : tables (val:=pyval) :=
  {| holes := [ {| h_id := 1; h_name := name_O; h_x := num 1; h_y := num 1;
                   h_z := num 1; h_lenght := num 9; h_level := num 90;
                   h_issue_date := num 20220101 |} ];
     assay := [ {| a_id := 1; a_hole_id := 1; a_from := num 0; a_to := num 2;
                   a_Au := num 4 |} ] |}.

Definition old_store : world := {| db_isfile := true; db := old_tables; log := [] |}.

Definition empty_store : world (val:=pyval) :=
  {| db_isfile := true; db := {| holes := []; assay := [] |}; log := [] |}.

(** No file at the database path. *)
Definition no_store : world (val:=pyval) :=
  {| db_isfile := false; db := {| holes := []; assay := [] |}; log := [] |}.

(** ** A ledger of integers

    A workbook whose two sheets hold nothing but integers, the holes
    being numbered 101 and 102: pandas hands every cell over as a
    [numpy.int64], and the store keeps its eight bytes. *)

(** The eight bytes of a 64-bit integer, least significant first. *)
Definition int64_bytes (z : Z) : list N :=
  map (fun i => Z.to_N ((z mod 2 ^ 64) / 2 ^ (8 * Z.of_nat i) mod 256)) (seq 0 8).

Definition as_int64 (v : pyval) : pyval :=
  match v with
  | Int z => Bytes (int64_bytes z)
  | Text _ | Bytes _ => v
  end.

Definition ledger_holes : DataFrame :=
  {| columns := keys holes_cols;
     rows := [ [num 101; num 0; num 0; num 0; num 10; num 100; num 20231231];
               [num 102; num 5; num 5; num 5; num 12; num 100; num 20231231] ] |}.
Definition ledger_assay : DataFrame :=
  {| columns := keys assay_cols;
     rows := [ [num 101; num 0; num 1; num 7];
               [num 102; num 0; num 1; num 3] ] |}.
Definition ledger : workbook := book ledger_holes ledger_assay.

(** The ledger behind the path, and a store without constraints. *)
Definition lenient : env :=
  {| excel := inr ledger; excel_isfile := true; connect_error := None;
     rejects := fun _ _ => None; stored := fun _ => as_int64 |}.

(** The same with the store of the spec, where [holes.name] is unique: an
    insert of a name that is stored already raises. *)
Definition unique_failed : exn := Raised [85; 78; 73; 81; 85; 69]%N.  (* "UNIQUE ..." *)

Definition strict : env :=
  {| excel := inr ledger; excel_isfile := true; connect_error := None;
     rejects := fun s t =>
       match s with
       | INSERT_holes n _ _ _ _ _ _ =>
           if decide (as_int64 <$> n ∈ map h_name (holes t))
           then Some unique_failed else None
       | _ => None
       end;
     stored := fun _ => as_int64 |}.

(** ** The viewer *)

(** [str] of an integer, of a string, of a [bytes] object and of [None]. *)
Fixpoint digits (fuel : nat) (n : N) (acc : pystr) : pystr :=
  match fuel with
  | O => acc
  | S fuel' =>
      let acc' := (48 + n mod 10)%N :: acc in
      if (n / 10 =? 0)%N then acc' else digits fuel' (n / 10)%N acc'
  end.

Definition hex_digit (n : N) : N := (if n <? 10 then 48 + n else 87 + n)%N.

(** One byte in the [repr] of a [bytes] object delimited by [quote]. *)
Definition repr_byte (quote : N) (c : N) : pystr :=
  (if (c =? quote) || (c =? 92) then [92; c]
   else if c =? 9 then [92; 116]
   else if c =? 10 then [92; 110]
   else if c =? 13 then [92; 114]
   else if (c <? 32) || (127 <=? c) then [92; 120; hex_digit (c / 16); hex_digit (c mod 16)]
   else [c])%N.

Definition repr_bytes (bs : list N) : pystr :=
  let quote : N :=
    if existsb (N.eqb 39) bs && negb (existsb (N.eqb 34) bs) then 34%N else 39%N in
  [98%N; quote] ++ concat (map (repr_byte quote) bs) ++ [quote].

Definition str_cell (c : option pyval) : pystr :=
  match c with
  | None => [78; 111; 110; 101]%N                                    (* "None" *)
  | Some (Text s) => s
  | Some (Int z) =>
      (if z <? 0 then [45%N] else []) ++
      digits (S (Z.to_nat (Z.log2 (Z.abs z)))) (Z.to_N (Z.abs z)) []
  | Some (Bytes bs) => repr_bytes bs
  end.

(** The order of the store: NULL, then numbers by value, then text and
    then BLOBs, each compared unit by unit. *)
Fixpoint lex_le (a b : list N) : bool :=
  match a, b with
  | [], _ => true
  | _ :: _, [] => false
  | x :: a', y :: b' => ((x <? y) || ((x =? y) && lex_le a' b'))%N
  end.

Definition le_cell (a b : option pyval) : bool :=
  match a, b with
  | None, _ => true
  | Some _, None => false
  | Some (Int x), Some (Int y) => x <=? y
  | Some (Int _), Some _ => true
  | Some (Text _), Some (Int _) => false
  | Some (Text s), Some (Text s') => lex_le s s'
  | Some (Text _), Some (Bytes _) => true
  | Some (Bytes bs), Some (Bytes bs') => lex_le bs bs'
  | Some (Bytes _), Some _ => false
  end.

(** The widget with the path of the journal typed in, a blank before it
    and a line feed after it. *)
Definition window : ImportWidget :=
  {| self_db_path := store_path;
     file_line_edit := [32%N] ++ journal_path ++ [10%N];
     table := [] |}.

(** A store that answers the viewer without raising. *)
Definition calm : viewer (val:=pyval) :=
  {| view_connect_error := None; view_query_error := fun _ => None |}.

End Journal.

(** * Properties *)

Section Properties.

Context `{Countable val}.

Implicit Types (E : env (val:=val)) (w : world (val:=val)) (t : tables (val:=val)).
Implicit Types (df hdf adf : DataFrame (val:=val)) (xls : workbook (val:=val)).
Implicit Types (errors errs : list (diagnostic (val:=val))).
Implicit Types (m : gmap (option val) Z) (row : list (option val)).

(** ** The error monad *)

Lemma bind_exn_inr {A B} (c : exn + A) (k : A → exn + B) b :
  bind_exn c k = inr b → ∃ a, c = inr a ∧ k a = inr b.
Proof. destruct c as [e|a]; simpl; [done | eauto]. Qed.

(** ** The validator's checks *)

Lemma check_sheets_eq xls errors :
  check_sheets xls errors =
  errors ++ (if decide (Holes ∈ sheet_names xls) then [] else [MissingSheet Holes])
         ++ (if decide (Assay ∈ sheet_names xls) then [] else [MissingSheet Assay]).
Proof.
  unfold check_sheets, required_sheets; simpl.
  repeat case_decide; rewrite ?app_nil_r, <-?app_assoc; done.
Qed.

Lemma parse_inr_sheet xls name df :
  parse xls name = inr df → name ∈ sheet_names xls.
Proof.
  induction xls as [|[n r] xls IH]; simpl; [done|].
  case_decide as Hn; [subst; intros _; apply list_elem_of_here|].
  intros Hp. apply list_elem_of_further, IH, Hp.
Qed.

Lemma parse_sheets_inr xls hdf adf :
  parse_sheets xls = inr (hdf, adf) →
  ∃ raw_h raw_a, parse xls Holes = inr raw_h ∧ parse xls Assay = inr raw_a ∧
    hdf = rename_strip raw_h ∧ adf = rename_strip raw_a.
Proof.
  unfold parse_sheets. intros Hp.
  apply bind_exn_inr in Hp as (raw_h & Hh & Hp).
  apply bind_exn_inr in Hp as (raw_a & Ha & Hp).
  injection Hp as <- <-. by exists raw_h, raw_a.
Qed.

Lemma parse_sheets_check xls hdf adf :
  parse_sheets xls = inr (hdf, adf) → check_sheets xls [] = [].
Proof.
  intros (raw_h & raw_a & Hh & Ha & _)%parse_sheets_inr.
  apply parse_inr_sheet in Hh, Ha. rewrite check_sheets_eq.
  rewrite !decide_True by done. done.
Qed.

Lemma check_columns_eq df cols sheet errors :
  check_columns df cols sheet errors =
  errors ++ missing_columns (columns df) cols sheet.
Proof.
  unfold check_columns, missing_columns.
  generalize (keys cols) as ks. intros ks. revert errors.
  induction ks as [|c ks IH]; intros errors; simpl.
  - by rewrite app_nil_r.
  - rewrite IH. rewrite filter_cons. case_decide as Hc.
    + rewrite decide_False by (intros Hn; by apply Hn). done.
    + rewrite decide_True by done. simpl. by rewrite <-app_assoc.
Qed.

Lemma check_nulls_eq df cols sheet errors :
  check_nulls df cols sheet errors = errors ++ null_report df cols sheet.
Proof.
  unfold check_nulls, null_report.
  destruct (any_null df (keys cols)); [done | by rewrite app_nil_r].
Qed.

(** ** The shape of a call *)

(** Closes goals [ev ∉ [ev1; ...; evn]] over distinct constructors. *)
Ltac not_in_trace :=
  rewrite ?not_elem_of_cons; split_and?; try discriminate; apply not_elem_of_nil.

Lemma emit_emit evs1 evs2 w : emit evs2 (emit evs1 w) = emit (evs1 ++ evs2) w.
Proof. unfold emit; simpl. by rewrite <-app_assoc. Qed.

Lemma emit_nil w : emit [] w = w.
Proof. destruct w; unfold emit; simpl. by rewrite app_nil_r. Qed.

(** A validated call is the merge run after the reader's trace. *)
Lemma import_validated E excel_path db_path w xls hdf adf :
  validated E w xls hdf adf →
  import_excel_to_db E excel_path db_path w =
  merge E hdf adf [] (emit reader_trace w).
Proof.
  intros (HE & Hp & Hx & Hd & Hmh & Hma & Hnh & Hna).
  unfold import_excel_to_db, validate_and_merge. rewrite HE.
  rewrite (parse_sheets_check _ _ _ Hp), Hp. simpl.
  rewrite Hx, Hd. simpl.
  rewrite !check_columns_eq, Hmh, Hma. simpl.
  rewrite !check_nulls_eq. unfold null_report. rewrite Hnh, Hna. simpl.
  by rewrite !emit_emit.
Qed.

(** Every call either stops before the store is touched, with a failure
    and at least one diagnostic, or is a validated call. *)
Lemma import_inv E excel_path db_path w :
  (∃ errs evs, import_excel_to_db E excel_path db_path w = ((false, errs), emit evs w)
     ∧ errs ≠ [] ∧ SqliteConnect ∉ evs)
  ∨ (∃ xls hdf adf, validated E w xls hdf adf).
Proof.
  unfold import_excel_to_db, validate_and_merge.
  destruct (excel E) as [e|xls] eqn:HE.
  { left. exists [ExcelReadOrParseError e], []. rewrite emit_nil.
    split_and!; [done..|]. apply not_elem_of_nil. }
  destruct (check_sheets xls []) as [|d ds] eqn:Hs.
  2:{ left. exists (d :: ds), [ExcelOpen; ExcelClose]. rewrite emit_emit.
      split_and!; [done..|]. not_in_trace. }
  destruct (parse_sheets xls) as [e|[hdf adf]] eqn:Hp.
  { left. exists [ExcelReadOrParseError e], [ExcelOpen; ExcelClose].
    rewrite emit_emit. split_and!; [done..|]. not_in_trace. }
  destruct (excel_isfile E) eqn:Hx; simpl.
  2:{ left. exists [ExcelFileNotFound excel_path], [ExcelOpen; ExcelClose].
      rewrite emit_emit. split_and!; [done..|]. not_in_trace. }
  destruct (db_isfile w) eqn:Hd; simpl.
  2:{ left. exists [DbFileNotFound db_path], [ExcelOpen; ExcelClose].
      rewrite emit_emit. split_and!; [done..|]. not_in_trace. }
  rewrite !check_columns_eq. simpl.
  destruct (missing_columns (columns hdf) holes_cols Holes ++
            missing_columns (columns adf) assay_cols Assay) as [|d ds] eqn:Hc.
  2:{ left. exists (d :: ds), reader_trace. rewrite !emit_emit.
      split_and!; [done..|]. unfold reader_trace. not_in_trace. }
  apply app_eq_nil in Hc as [Hmh Hma].
  rewrite !check_nulls_eq. simpl.
  destruct (null_report hdf holes_cols Holes ++
            null_report adf assay_cols Assay) as [|d ds] eqn:Hn.
  2:{ left. exists (d :: ds), reader_trace. rewrite !emit_emit.
      split_and!; [done..|]. unfold reader_trace. not_in_trace. }
  right. exists xls, hdf, adf. apply app_eq_nil in Hn as [Hnh Hna].
  unfold null_report in Hnh, Hna.
  destruct (any_null hdf _) eqn:Hnh'; [done|].
  destruct (any_null adf _) eqn:Hna'; [done|].
  split_and!; eauto.
Qed.

(** The outcomes of the merge phase: a failure leaves the store as it
    was; a success commits the connection's view. *)
Lemma merge_cases E hdf adf w :
  (∃ errs evs, merge E hdf adf [] w = ((false, errs), emit evs w)
     ∧ errs ≠ [] ∧ connect_error E ≠ None)
  ∨ (∃ errs b, merge E hdf adf [] w =
       ((false, errs),
        {| db_isfile := b; db := db w;
           log := log w ++ [SqliteConnect; SqliteRollback; SqliteClose] |})
     ∧ errs ≠ [] ∧ connect_error E = None
     ∧ match merge_rows E hdf adf [] (db w) with
       | inl e => errs = [DbError e]
       | inr (errs', t) =>
           errs = errs' ∨ (errs' = [] ∧ ∃ e, rejects E COMMIT t = Some e ∧ errs = [DbError e])
       end)
  ∨ (∃ t, merge E hdf adf [] w =
       ((true, []),
        {| db_isfile := true; db := t;
           log := log w ++ [SqliteConnect; SqliteCommit; SqliteClose] |})
     ∧ connect_error E = None
     ∧ merge_rows E hdf adf [] (db w) = inr ([], t)
     ∧ rejects E COMMIT t = None).
Proof.
  unfold merge. destruct (connect_error E) as [e|] eqn:Hc.
  { left. exists [DbError e], [SqliteConnect]. done. }
  right. simpl.
  destruct (merge_rows E hdf adf [] (db w)) as [e|[errs t]] eqn:Hm.
  { left. exists [DbError e], true. unfold emit; simpl.
    rewrite <-app_assoc. done. }
  destruct errs as [|d ds].
  2:{ left. exists (d :: ds), true. unfold emit; simpl.
      rewrite <-app_assoc. split_and!; [done..|]. by left. }
  unfold execute. destruct (rejects E COMMIT t) as [e|] eqn:Hr.
  { left. exists [DbError e], true. unfold emit; simpl.
    rewrite <-app_assoc. split_and!; [done..|]. right. eauto. }
  right. exists t. simpl. rewrite <-app_assoc. done.
Qed.

(** ** Headers, positions and null cells *)

Lemma elem_of_positions_from k label (cols : list pystr) i :
  i ∈ positions_from k label cols ↔ (k ≤ i)%nat ∧ cols !! (i - k)%nat = Some label.
Proof.
  revert k. induction cols as [|c cols IH]; intros k; simpl.
  - split; [by intros ?%elem_of_nil | by intros [_ ?]].
  - assert (Hstep : i ∈ positions_from (S k) label cols ↔
                    (k < i)%nat ∧ (c :: cols) !! (i - k)%nat = Some label).
    { rewrite IH. split.
      - intros [Hle Hl]. split; [lia|].
        replace (i - k)%nat with (S (i - S k)) by lia. done.
      - intros [Hlt Hl]. split; [lia|].
        replace (i - k)%nat with (S (i - S k)) in Hl by lia. done. }
    case_decide as Hc.
    + rewrite elem_of_cons, Hstep. split.
      * intros [->|[Hlt Hl]]; [|split; [lia|done]].
        split; [lia|]. rewrite Nat.sub_diag. simpl. by subst.
      * intros [Hle Hl]. destruct (decide (i = k)) as [->|Hne]; [by left|].
        right. split; [lia|done].
    + rewrite Hstep. split.
      * intros [Hlt Hl]. split; [lia|done].
      * intros [Hle Hl]. split; [|done].
        destruct (decide (i = k)) as [->|Hne]; [|lia].
        rewrite Nat.sub_diag in Hl. simpl in Hl. congruence.
Qed.

Lemma elem_of_positions label (cols : list pystr) i :
  i ∈ positions label cols ↔ cols !! i = Some label.
Proof.
  unfold positions. rewrite elem_of_positions_from, Nat.sub_0_r.
  split; [by intros [_ ?] | intros ?; split; [lia|done]].
Qed.

Lemma positions_nil label (cols : list pystr) :
  positions label cols = [] ↔ label ∉ cols.
Proof.
  split.
  - intros Hp [i Hi]%list_elem_of_lookup.
    apply elem_of_positions in Hi. rewrite Hp in Hi. by apply elem_of_nil in Hi.
  - intros Hn. destruct (positions label cols) as [|i ps] eqn:Hp; [done|].
    exfalso. apply Hn. apply list_elem_of_lookup. exists i.
    apply elem_of_positions. rewrite Hp. apply list_elem_of_here.
Qed.

Lemma isnull_true (c : option val) : isnull c = true ↔ c = None.
Proof. destruct c; simpl; split; congruence. Qed.

(** [any_null] is true exactly when a required cell is null. *)
Lemma any_null_spec df required :
  any_null df required = true ↔ null_in_required df required.
Proof.
  unfold any_null, null_in_required. rewrite existsb_exists. split.
  - intros (r & Hr & Hex). apply existsb_exists in Hex as (label & Hl & Hex).
    apply existsb_exists in Hex as (i & Hi & Hn).
    exists r, label, i. rewrite <-!list_elem_of_In in *.
    apply elem_of_positions in Hi. apply isnull_true in Hn. done.
  - intros (r & label & i & Hr & Hl & Hi & Hn). exists r.
    rewrite <-list_elem_of_In. split; [done|].
    apply existsb_exists. exists label. rewrite <-list_elem_of_In. split; [done|].
    apply existsb_exists. exists i. rewrite <-list_elem_of_In.
    split; [by apply elem_of_positions | by apply isnull_true].
Qed.

Lemma elem_of_missing_columns (header : list pystr) cols sheet (d : diagnostic (val:=val)) :
  d ∈ missing_columns header cols sheet ↔
  ∃ col, d = MissingColumn col sheet ∧ col ∈ keys cols ∧ col ∉ header.
Proof.
  unfold missing_columns. rewrite list_elem_of_fmap. split.
  - intros (col & -> & Hc). apply list_elem_of_filter in Hc as [Hn Hk]. eauto.
  - intros (col & -> & Hk & Hn). exists col. split; [done|].
    by apply list_elem_of_filter.
Qed.

Lemma missing_columns_nil (header : list pystr) cols sheet :
  missing_columns (val:=val) header cols sheet = [] ↔
  ∀ col, col ∈ keys cols → col ∈ header.
Proof.
  split.
  - intros Hm col Hk. destruct (decide (col ∈ header)) as [|Hn]; [done|].
    assert (Hin : MissingColumn (val:=val) col sheet ∈ missing_columns header cols sheet)
      by (apply elem_of_missing_columns; eauto).
    rewrite Hm in Hin. by apply elem_of_nil in Hin.
  - intros Hall. destruct (missing_columns header cols sheet) as [|d ds] eqn:Hm; [done|].
    assert (Hin : d ∈ missing_columns header cols sheet)
      by (rewrite Hm; apply list_elem_of_here).
    apply elem_of_missing_columns in Hin as (col & _ & Hk & Hn).
    exfalso. by apply Hn, Hall.
Qed.

(** ** Failures before the merge phase *)

Lemma import_missing_sheet E excel_path db_path w xls :
  excel E = inr xls → check_sheets xls [] ≠ [] →
  import_excel_to_db E excel_path db_path w =
  ((false, check_sheets xls []), emit [ExcelOpen; ExcelClose] w).
Proof.
  intros HE Hs. unfold import_excel_to_db. rewrite HE.
  destruct (check_sheets xls []) as [|d ds]; [done|]. by rewrite emit_emit.
Qed.

Lemma check_sheets_missing xls sheet :
  sheet ∈ required_sheets → sheet ∉ sheet_names xls →
  MissingSheet (val:=val) sheet ∈ check_sheets xls [].
Proof.
  intros Hs Hn. rewrite check_sheets_eq. unfold required_sheets in Hs.
  apply elem_of_cons in Hs as [->|Hs].
  - rewrite (decide_False (P:=Holes ∈ _)) by done. simpl. apply list_elem_of_here.
  - apply elem_of_cons in Hs as [->|Hs]; [|by apply elem_of_nil in Hs].
    rewrite (decide_False (P:=Assay ∈ _)) by done. simpl.
    rewrite elem_of_app. right. apply list_elem_of_here.
Qed.

(** C2. A call that fails before the merge phase (a required sheet is
    missing, a required column is missing after trimming the headers, or
    a required cell is null) returns a failure with at least one
    diagnostic, never calls [sqlite3.connect], and leaves the store
    untouched; a missing sheet is named in the diagnostics. *)
Theorem validation_failure_never_connects E excel_path db_path w xls :
  excel E = inr xls →
  ( (∃ sheet, sheet ∈ required_sheets ∧ sheet ∉ sheet_names xls)
  ∨ (∃ hdf adf, parse_sheets xls = inr (hdf, adf) ∧
       ( (∃ col, col ∈ keys holes_cols ∧ col ∉ columns hdf)
       ∨ (∃ col, col ∈ keys assay_cols ∧ col ∉ columns adf)
       ∨ null_in_required hdf (keys holes_cols)
       ∨ null_in_required adf (keys assay_cols))) ) →
  ∃ errs evs,
    import_excel_to_db E excel_path db_path w = ((false, errs), emit evs w)
    ∧ errs ≠ []
    ∧ (SqliteConnect ∉ evs)
    ∧ db (emit evs w) = db w ∧ db_isfile (emit evs w) = db_isfile w
    ∧ (∀ sheet, sheet ∈ required_sheets → sheet ∉ sheet_names xls →
         MissingSheet sheet ∈ errs).
Proof.
  intros HE Hfail.
  destruct (decide (check_sheets (val:=val) xls [] = [])) as [Hs|Hs].
  - destruct (import_inv E excel_path db_path w)
      as [(errs & evs & Hr & Hne & Hev)|(xls' & hdf & adf & Hv)].
    + exists errs, evs. split_and!; [done..|].
      intros sheet Hreq Hn. pose proof (check_sheets_missing xls sheet Hreq Hn) as Hin.
      rewrite Hs in Hin. by apply elem_of_nil in Hin.
    + exfalso.
      destruct Hv as (HE' & Hp & _ & _ & Hmh & Hma & Hnh & Hna).
      assert (xls' = xls) as -> by congruence.
      destruct Hfail as [(sheet & Hreq & Hn)|(hdf' & adf' & Hp' & Hbad)].
      * pose proof (check_sheets_missing xls sheet Hreq Hn) as Hin.
        rewrite Hs in Hin. by apply elem_of_nil in Hin.
      * assert (hdf' = hdf ∧ adf' = adf) as [-> ->] by (split; congruence).
        destruct Hbad as [(col & Hk & Hn)|[(col & Hk & Hn)|[Hnull|Hnull]]].
        -- by apply Hn, (proj1 (missing_columns_nil _ _ _) Hmh).
        -- by apply Hn, (proj1 (missing_columns_nil _ _ _) Hma).
        -- apply any_null_spec in Hnull. congruence.
        -- apply any_null_spec in Hnull. congruence.
  - exists (check_sheets xls []), [ExcelOpen; ExcelClose].
    rewrite (import_missing_sheet E excel_path db_path w xls HE Hs).
    split_and!; [done..| not_in_trace |done|done|].
    intros sheet Hreq Hn. by apply check_sheets_missing.
Qed.

(** C10. When the database path names no file the call never reaches
    [sqlite3.connect]: it fails, the store file is still absent afterwards,
    and for a workbook that the reader accepts the single diagnostic is the
    one naming the database path. *)
Theorem missing_database_is_refused E excel_path db_path w :
  db_isfile w = false →
  (∃ errs evs,
     import_excel_to_db E excel_path db_path w = ((false, errs), emit evs w)
     ∧ errs ≠ [] ∧ (SqliteConnect ∉ evs)
     ∧ db_isfile (emit evs w) = false ∧ db (emit evs w) = db w)
  ∧ (∀ xls hdf adf,
       excel E = inr xls → parse_sheets xls = inr (hdf, adf) →
       excel_isfile E = true →
       import_excel_to_db E excel_path db_path w =
       ((false, [DbFileNotFound db_path]), emit [ExcelOpen; ExcelClose] w)).
Proof.
  intros Hd. split.
  - destruct (import_inv E excel_path db_path w)
      as [(errs & evs & Hr & Hne & Hev)|(xls & hdf & adf & Hv)].
    + exists errs, evs. done.
    + destruct Hv as (_ & _ & _ & Hd' & _). congruence.
  - intros xls hdf adf HE Hp Hx.
    unfold import_excel_to_db, validate_and_merge.
    rewrite HE, (parse_sheets_check _ _ _ Hp), Hp. simpl.
    rewrite Hx, Hd. simpl.
    by rewrite emit_emit.
Qed.

Lemma keys_holes_cols_NoDup : NoDup (keys holes_cols).
Proof. apply (bool_decide_unpack _). vm_compute. reflexivity. Qed.

Lemma keys_assay_cols_NoDup : NoDup (keys assay_cols).
Proof. apply (bool_decide_unpack _). vm_compute. reflexivity. Qed.

Lemma Holes_neq_Assay : Holes ≠ Assay.
Proof. discriminate. Qed.

Lemma missing_columns_NoDup (header : list pystr) cols sheet :
  NoDup (keys cols) → NoDup (missing_columns (val:=val) header cols sheet).
Proof.
  intros Hk. unfold missing_columns. apply NoDup_fmap_2.
  - intros c1 c2 [= ->]. done.
  - by apply NoDup_filter.
Qed.

(** C5. Once the reader has delivered the two sheets, the column check
    compares the trimmed headers with the required names of both sheets and
    reports every missing column exactly once, with its sheet; if anything
    is missing the call fails with exactly these diagnostics (none of them a
    null-value diagnostic) and the store is not contacted. A column missing
    on each sheet gives at least two diagnostics. *)
Theorem column_check_reports_every_missing_column
    E excel_path db_path w xls raw_h raw_a :
  excel E = inr xls →
  parse xls Holes = inr raw_h → parse xls Assay = inr raw_a →
  excel_isfile E = true → db_isfile w = true →
  let header_h := map strip (columns raw_h) in
  let header_a := map strip (columns raw_a) in
  let errs := missing_columns header_h holes_cols Holes ++
              missing_columns header_a assay_cols Assay in
  errs ≠ [] →
  import_excel_to_db E excel_path db_path w = ((false, errs), emit reader_trace w)
  ∧ (SqliteConnect ∉ reader_trace)
  ∧ NoDup errs
  ∧ (∀ d, d ∈ errs ↔
       (∃ col, d = MissingColumn col Holes ∧ col ∈ keys holes_cols ∧ col ∉ header_h)
       ∨ (∃ col, d = MissingColumn col Assay ∧ col ∈ keys assay_cols ∧ col ∉ header_a))
  ∧ (∀ sheet, NullValues sheet ∉ errs)
  ∧ ((∃ col, col ∈ keys holes_cols ∧ col ∉ header_h) →
     (∃ col, col ∈ keys assay_cols ∧ col ∉ header_a) →
     (2 ≤ length errs)%nat).
Proof.
  intros HE Hh Ha Hx Hd header_h header_a errs Hne.
  assert (Hp : parse_sheets xls = inr (rename_strip raw_h, rename_strip raw_a)).
  { unfold parse_sheets. rewrite Hh, Ha. done. }
  assert (Hmem : ∀ d, d ∈ errs ↔
       (∃ col, d = MissingColumn col Holes ∧ col ∈ keys holes_cols ∧ col ∉ header_h)
       ∨ (∃ col, d = MissingColumn col Assay ∧ col ∈ keys assay_cols ∧ col ∉ header_a)).
  { intros d. unfold errs. rewrite elem_of_app, !elem_of_missing_columns. done. }
  split_and!.
  - unfold import_excel_to_db, validate_and_merge.
    rewrite HE, (parse_sheets_check _ _ _ Hp), Hp. simpl.
    rewrite Hx, Hd. simpl.
    rewrite !check_columns_eq. simpl. fold header_h header_a errs.
    destruct errs as [|d ds]; [done|]. by rewrite !emit_emit.
  - unfold reader_trace. not_in_trace.
  - apply NoDup_app. split_and!.
    + apply missing_columns_NoDup, keys_holes_cols_NoDup.
    + intros d (c1 & -> & _)%elem_of_missing_columns
               (c2 & Heq & _)%elem_of_missing_columns.
      injection Heq as _ Heq. by apply Holes_neq_Assay.
    + apply missing_columns_NoDup, keys_assay_cols_NoDup.
  - done.
  - intros sheet Hin. apply Hmem in Hin as [(col & Heq & _)|(col & Heq & _)]; discriminate.
  - intros (c1 & Hk1 & Hn1) (c2 & Hk2 & Hn2). unfold errs. rewrite length_app.
    assert (H1 : MissingColumn (val:=val) c1 Holes ∈ missing_columns header_h holes_cols Holes)
      by (apply elem_of_missing_columns; eauto).
    assert (H2 : MissingColumn (val:=val) c2 Assay ∈ missing_columns header_a assay_cols Assay)
      by (apply elem_of_missing_columns; eauto).
    destruct (missing_columns header_h holes_cols Holes); [by apply elem_of_nil in H1|].
    destruct (missing_columns header_a assay_cols Assay); [by apply elem_of_nil in H2|].
    simpl. lia.
Qed.

(** C6. With every required column present, the completeness check gives
    one diagnostic per sheet that has a null required cell, however many
    cells are null, and the call fails with exactly these diagnostics
    without contacting the store; nulls on both sheets give exactly two. *)
Theorem null_check_reports_once_per_sheet E excel_path db_path w xls hdf adf :
  excel E = inr xls → parse_sheets xls = inr (hdf, adf) →
  excel_isfile E = true → db_isfile w = true →
  missing_columns (val:=val) (columns hdf) holes_cols Holes = [] →
  missing_columns (val:=val) (columns adf) assay_cols Assay = [] →
  null_in_required hdf (keys holes_cols) ∨ null_in_required adf (keys assay_cols) →
  ∃ errs,
    import_excel_to_db E excel_path db_path w = ((false, errs), emit reader_trace w)
    ∧ (SqliteConnect ∉ reader_trace)
    ∧ (null_in_required hdf (keys holes_cols) →
       ¬ null_in_required adf (keys assay_cols) → errs = [NullValues Holes])
    ∧ (¬ null_in_required hdf (keys holes_cols) →
       null_in_required adf (keys assay_cols) → errs = [NullValues Assay])
    ∧ (null_in_required hdf (keys holes_cols) →
       null_in_required adf (keys assay_cols) →
       errs = [NullValues Holes; NullValues Assay]).
Proof.
  intros HE Hp Hx Hd Hmh Hma Hnull.
  exists (null_report hdf holes_cols Holes ++ null_report adf assay_cols Assay).
  rewrite <-!any_null_spec in *. unfold null_report.
  split_and!.
  - unfold import_excel_to_db, validate_and_merge.
    rewrite HE, (parse_sheets_check _ _ _ Hp), Hp. simpl.
    rewrite Hx, Hd. simpl.
    rewrite !check_columns_eq, Hmh, Hma. simpl.
    rewrite !check_nulls_eq. unfold null_report. simpl.
    destruct (any_null hdf _), (any_null adf _); simpl; rewrite ?emit_emit;
      try done. by destruct Hnull.
  - unfold reader_trace. not_in_trace.
  - intros -> Hn. by destruct (any_null adf _).
  - intros Hn ->. by destruct (any_null hdf _).
  - intros -> ->. done.
Qed.

(** ** One row of the Holes sheet *)

Implicit Types (f : hole_fields (val:=val)) (s : gmap (option val) Z * tables (val:=val)).
Implicit Types (cols acols : list pystr) (rs : list (list (option val))).

(** The loop body reads the row, then upserts what it read. *)
Lemma hole_step_read E cols s row :
  hole_step E cols s row =
  let! f := read_hole cols row in upsert_hole E s f.
Proof.
  unfold hole_step, read_hole, upsert_hole, update_of, insert_of.
  destruct (getitem cols row col_IMYA) as [?|name]; [done|].
  destruct (getitem cols row col_X) as [?|x]; [done|].
  destruct (getitem cols row col_Y) as [?|y]; [done|].
  destruct (getitem cols row col_Z) as [?|z]; [done|].
  destruct (getitem cols row col_DLINA) as [?|l]; [done|].
  destruct (getitem cols row col_GORIZONT) as [?|lv]; [done|].
  destruct (getitem cols row col_DATA_PROHODKI) as [?|d]; [done|].
  simpl. destruct name as [key|?]; simpl.
  2:{ done. }
  destruct x, y, z, l, lv, d; simpl; destruct (s.1 !! key); simpl; done.
Qed.

Lemma getitem_unique cols row label :
  length (positions label cols) = 1%nat →
  getitem cols row label = inr (Scalar (field cols row label)).
Proof.
  unfold getitem, field. destruct (positions label cols) as [|i [|j ps]]; done.
Qed.

Lemma unique_labels_elem cols required label :
  unique_labels cols required → label ∈ required →
  length (positions label cols) = 1%nat.
Proof. unfold unique_labels. rewrite Forall_forall. eauto. Qed.

Ltac known_label :=
  first [ apply list_elem_of_here | apply list_elem_of_further; known_label ].

Lemma read_hole_unique cols row :
  unique_labels cols (keys holes_cols) →
  read_hole cols row = inr (hole_of_row cols row).
Proof.
  intros Hu. unfold read_hole.
  rewrite !getitem_unique by (eapply unique_labels_elem; [done | known_label]).
  done.
Qed.

Lemma lastrowid_insert t f :
  lastrowid (apply_stmt (insert_of f) t) = next_id (map h_id (holes t)).
Proof. unfold lastrowid. simpl. by rewrite last_snoc. Qed.

Lemma apply_insert_holes t f :
  holes (apply_stmt (insert_of f) t) =
  holes t ++ [new_hole (next_id (map h_id (holes t))) f].
Proof. done. Qed.

Lemma bind_update_of E f hole_id :
  bind E (update_of f hole_id) = update_of (kept_fields E f) hole_id.
Proof. done. Qed.

Lemma bind_insert_of E f : bind E (insert_of f) = insert_of (kept_fields E f).
Proof. done. Qed.

(** The two ways a row can be upserted. *)
Lemma upsert_hole_inr E m t f m' t' :
  upsert_hole E (m, t) f = inr (m', t') →
  (∃ hole_id, m !! f_name f = Some hole_id
     ∧ rejects E (update_of f hole_id) t = None
     ∧ m' = m ∧ t' = apply_stmt (update_of (kept_fields E f) hole_id) t)
  ∨ (m !! f_name f = None
     ∧ rejects E (insert_of f) t = None
     ∧ m' = <[f_name f := next_id (map h_id (holes t))]> m
     ∧ t' = apply_stmt (insert_of (kept_fields E f)) t).
Proof.
  unfold upsert_hole, execute. cbn [fst snd].
  destruct (m !! f_name f) as [hole_id|] eqn:Hm.
  - destruct (rejects E (update_of f hole_id) t) eqn:Hr; cbn [bind_exn]; [done|].
    intros [= <- <-]. left. eauto.
  - destruct (rejects E (insert_of f) t) eqn:Hr; cbn [bind_exn]; [done|].
    intros [= <- <-]. right. unfold lastrowid. simpl. rewrite last_snoc. done.
Qed.

Lemma hole_step_inr E cols m t row m' t' :
  hole_step E cols (m, t) row = inr (m', t') →
  ∃ f, read_hole cols row = inr f ∧ upsert_hole E (m, t) f = inr (m', t').
Proof. rewrite hole_step_read. intros (f & Hf & Hu)%bind_exn_inr. eauto. Qed.

Lemma holes_loop_cons_inr E cols m t row rs m' t' :
  holes_loop E cols (m, t) (row :: rs) = inr (m', t') →
  ∃ m1 t1, hole_step E cols (m, t) row = inr (m1, t1)
    ∧ holes_loop E cols (m1, t1) rs = inr (m', t').
Proof. simpl. intros ([m1 t1] & Hs & Hl)%bind_exn_inr. eauto. Qed.

(** ** What an update and an insert do to the holes table *)

Lemma next_id_bound (ids : list Z) id : id ∈ ids → id < next_id ids.
Proof.
  unfold next_id. induction ids as [|i ids IH]; simpl.
  - by intros ?%elem_of_nil.
  - intros [->|Hin]%elem_of_cons; [lia|]. specialize (IH Hin). lia.
Qed.

Lemma next_id_fresh (ids : list Z) : next_id ids ∉ ids.
Proof. intros Hin%next_id_bound. lia. Qed.

Lemma update_ids t f hole_id :
  map h_id (holes (apply_stmt (update_of f hole_id) t)) = map h_id (holes t).
Proof.
  simpl. rewrite map_map. apply map_ext. intros h. by case_decide.
Qed.

Lemma update_names t f hole_id :
  map h_name (holes (apply_stmt (update_of f hole_id) t)) = map h_name (holes t).
Proof.
  simpl. rewrite map_map. apply map_ext. intros h. by case_decide.
Qed.

Lemma update_fetchall t f hole_id :
  fetchall (apply_stmt (update_of f hole_id) t) = fetchall t.
Proof.
  unfold fetchall. simpl. rewrite map_map. apply map_ext. intros h. by case_decide.
Qed.

Lemma update_lookup t f hole_id (i : nat) h :
  holes t !! i = Some h →
  holes (apply_stmt (update_of f hole_id) t) !! i =
  Some (if decide (h_id h = hole_id)
        then set_attrs (f_x f) (f_y f) (f_z f) (f_lenght f) (f_level f) (f_issue_date f) h
        else h).
Proof. intros Hi. simpl. rewrite list_lookup_fmap, Hi. done. Qed.

(** A binding of the dictionary survives the rest of the loop. *)
Lemma holes_loop_keeps E cols rs : ∀ m t m' t' k hole_id,
  holes_loop E cols (m, t) rs = inr (m', t') →
  m !! k = Some hole_id → m' !! k = Some hole_id.
Proof.
  induction rs as [|row rs IH]; intros m t m' t' k hole_id.
  - simpl. by intros [= <- <-].
  - intros (m1 & t1 & Hs & Hl)%holes_loop_cons_inr Hk.
    apply (IH _ _ _ _ _ _ Hl).
    apply hole_step_inr in Hs as (f & _ & Hu).
    apply upsert_hole_inr in Hu as [(id & _ & _ & -> & _)|(Hn & _ & -> & _)]; [done|].
    rewrite lookup_insert_ne; [done|]. intros Heq. congruence.
Qed.

(** ** One row of the Assay sheet *)

Lemma assay_step_unique E cols m idx errs t row :
  unique_labels cols (keys assay_cols) →
  assay_step E cols m idx (errs, t) row =
  match m !! field cols row col_OBJEKT with
  | None => inr (errs ++ [UnknownHole (field cols row col_OBJEKT) (idx + 2)], t)
  | Some hole_id =>
      let! t' := execute E (INSERT_assay hole_id (field cols row col_OT)
                              (field cols row col_DO) (field cols row col_Au)) t in
      inr (errs, t')
  end.
Proof.
  intros Hu. unfold assay_step.
  rewrite !getitem_unique by (eapply unique_labels_elem; [done | known_label]).
  simpl. by destruct (m !! field cols row col_OBJEKT).
Qed.

(** ** The pass over the Assay sheet *)

Lemma unknown_holes_cons cols m idx row rs :
  unknown_holes cols m idx (row :: rs) =
  match m !! field cols row col_OBJEKT with
  | None => [UnknownHole (field cols row col_OBJEKT) (idx + 2)]
  | Some _ => []
  end ++ unknown_holes cols m (idx + 1) rs.
Proof.
  unfold unknown_holes. rewrite imap_cons. simpl. f_equal.
  - replace (idx + Z.of_nat 0 + 2) with (idx + 2) by lia. done.
  - f_equal. apply imap_ext. intros i r _. simpl.
    replace (idx + Z.of_nat (S i) + 2) with (idx + 1 + Z.of_nat i + 2) by lia. done.
Qed.


(** ** The dictionary of hole names *)

Lemma load_names_snoc (fetched : list (Z * option val)) id k :
  load_names (fetched ++ [(id, k)]) = <[k := id]> (load_names fetched).
Proof. unfold load_names. by rewrite foldl_snoc. Qed.

Lemma load_names_Some (fetched : list (Z * option val)) k id :
  load_names fetched !! k = Some id → (id, k) ∈ fetched.
Proof.
  induction fetched as [|[id' k'] fetched IH] using rev_ind.
  - unfold load_names. simpl. by rewrite lookup_empty.
  - rewrite load_names_snoc, elem_of_app, list_elem_of_singleton.
    destruct (decide (k' = k)) as [->|Hne].
    + rewrite lookup_insert_eq. intros [= ->]. by right.
    + rewrite lookup_insert_ne by done. intros Hl. left. by apply IH.
Qed.

Lemma load_names_is_Some (fetched : list (Z * option val)) k id :
  (id, k) ∈ fetched → is_Some (load_names fetched !! k).
Proof.
  induction fetched as [|[id' k'] fetched IH] using rev_ind.
  - by intros ?%elem_of_nil.
  - rewrite load_names_snoc, elem_of_app, list_elem_of_singleton.
    destruct (decide (k' = k)) as [->|Hne].
    + rewrite lookup_insert_eq. eauto.
    + rewrite lookup_insert_ne by done. intros [Hin|[= -> ->]]; [by apply IH|done].
Qed.

Lemma elem_of_fetchall t id k :
  (id, k) ∈ fetchall t ↔ ∃ h, h ∈ holes t ∧ h_id h = id ∧ h_name h = k.
Proof.
  unfold fetchall. rewrite list_elem_of_fmap. split.
  - intros (h & [= -> ->] & Hin). eauto.
  - intros (h & Hin & <- & <-). eauto.
Qed.

Lemma read_hole_name cols row f :
  read_hole cols row = inr f →
  getitem cols row col_IMYA = inr (Scalar (f_name f)).
Proof.
  unfold read_hole. intros Hr.
  destruct (getitem cols row col_IMYA) as [?|name]; [done|]. simpl in Hr.
  do 6 (apply bind_exn_inr in Hr as (? & _ & Hr)).
  apply bind_exn_inr in Hr as (key & Hk & Hr).
  do 6 (apply bind_exn_inr in Hr as (? & _ & Hr)).
  injection Hr as <-. simpl. destruct name; simpl in Hk; [|done]. congruence.
Qed.

(** A name the dictionary holds after the loop was already there or is
    the name of one of the rows. *)
Lemma holes_loop_dom E cols rs : ∀ m t m' t' k hole_id,
  holes_loop E cols (m, t) rs = inr (m', t') →
  m' !! k = Some hole_id →
  is_Some (m !! k) ∨ ∃ row, row ∈ rs ∧ getitem cols row col_IMYA = inr (Scalar k).
Proof.
  induction rs as [|row rs IH]; intros m t m' t' k hole_id.
  - simpl. intros [= <- <-] Hk. left. eauto.
  - intros (m1 & t1 & Hs & Hl)%holes_loop_cons_inr Hk.
    destruct (IH _ _ _ _ _ _ Hl Hk) as [[id1 Hk1]|(r & Hr & Hg)].
    2:{ right. exists r. split; [by apply list_elem_of_further | done]. }
    apply hole_step_inr in Hs as (f & Hf & Hu).
    apply upsert_hole_inr in Hu as [(id & _ & _ & -> & _)|(Hn & _ & -> & _)].
    + left. eauto.
    + destruct (decide (f_name f = k)) as [<-|Hne].
      * right. exists row. split; [apply list_elem_of_here | by apply read_hole_name].
      * rewrite lookup_insert_ne in Hk1 by done. left. eauto.
Qed.

Lemma assay_step_inr E cols m idx errs t row errs' t' :
  assay_step E cols m idx (errs, t) row = inr (errs', t') →
  ∃ k, getitem cols row col_OBJEKT = inr (Scalar k) ∧
    ( (m !! k = None ∧ errs' = errs ++ [UnknownHole k (idx + 2)] ∧ t' = t)
    ∨ (∃ hole_id fr to au, m !! k = Some hole_id ∧ errs' = errs
         ∧ rejects E (INSERT_assay hole_id fr to au) t = None
         ∧ t' = apply_stmt (bind E (INSERT_assay hole_id fr to au)) t) ).
Proof.
  unfold assay_step. intros Hs.
  destruct (getitem cols row col_OBJEKT) as [?|name]; [done|]. simpl in Hs.
  apply bind_exn_inr in Hs as (from_val & _ & Hs).
  apply bind_exn_inr in Hs as (to_val & _ & Hs).
  apply bind_exn_inr in Hs as (au_val & _ & Hs).
  apply bind_exn_inr in Hs as (k & Hk & Hs).
  destruct name as [c|?]; simpl in Hk; [|done]. injection Hk as ->.
  exists k. split; [done|].
  destruct (m !! k) as [hole_id|] eqn:Hm.
  - right. apply bind_exn_inr in Hs as (fr & _ & Hs).
    apply bind_exn_inr in Hs as (to & _ & Hs).
    apply bind_exn_inr in Hs as (au & _ & Hs).
    apply bind_exn_inr in Hs as (t1 & Hx & Hs). injection Hs as <- <-.
    unfold execute in Hx.
    destruct (rejects E (INSERT_assay hole_id fr to au) t) eqn:Hr; [done|].
    injection Hx as <-. exists hole_id, fr, to, au. done.
  - left. injection Hs as <- <-. done.
Qed.

(** The pass over the Assay sheet leaves the holes alone, only adds
    diagnostics, and reports every row it cannot resolve. *)
Lemma assay_loop_inr E cols m rs : ∀ idx errs t errs' t',
  assay_loop E cols m idx (errs, t) rs = inr (errs', t') →
  holes t' = holes t
  ∧ (∃ more, errs' = errs ++ more)
  ∧ (∀ (i : nat) row k, rs !! i = Some row →
       getitem cols row col_OBJEKT = inr (Scalar k) → m !! k = None →
       UnknownHole k (idx + Z.of_nat i + 2) ∈ errs').
Proof.
  induction rs as [|row rs IH]; intros idx errs t errs' t'.
  - simpl. intros [= <- <-]. split_and!; [done| |].
    + exists []. by rewrite app_nil_r.
    + intros i row k Hi. by rewrite lookup_nil in Hi.
  - simpl. intros ([errs1 t1] & Hs & Hl)%bind_exn_inr.
    apply IH in Hl as (Hh & (more & ->) & Hin).
    apply assay_step_inr in Hs as (k & Hk & Hcase).
    assert (Hh1 : holes t1 = holes t ∧ ∃ more1, errs1 = errs ++ more1).
    { destruct Hcase as [(_ & -> & ->)|(id & fr & to & au & _ & -> & _ & ->)].
      - split; [done|]. eauto.
      - split; [done|]. exists []. by rewrite app_nil_r. }
    destruct Hh1 as [Hh1 (more1 & Hm1)].
    split_and!.
    + congruence.
    + exists (more1 ++ more). rewrite Hm1. by rewrite <-app_assoc.
    + intros [|i] r k' Hi Hg Hn; simpl in Hi.
      * injection Hi as ->. assert (k' = k) as -> by congruence.
        destruct Hcase as [(_ & -> & _)|(id & ? & ? & ? & Hsome & _)]; [|congruence].
        replace (idx + Z.of_nat 0 + 2) with (idx + 2) by lia.
        rewrite !elem_of_app. left. right. apply list_elem_of_here.
      * replace (idx + Z.of_nat (S i) + 2) with (idx + 1 + Z.of_nat i + 2) by lia.
        by eapply Hin.
Qed.

Lemma merge_rows_inr E hdf adf errs0 t0 errs t :
  merge_rows E hdf adf errs0 t0 = inr (errs, t) →
  ∃ m' t', holes_loop E (columns hdf) (load_names (fetchall t0), t0) (rows hdf)
             = inr (m', t')
    ∧ assay_loop E (columns adf) m' 0 (errs0, t') (rows adf) = inr (errs, t).
Proof.
  unfold merge_rows, execute. intros Hm.
  destruct (rejects E PRAGMA_foreign_keys t0); [done|]. simpl in Hm.
  destruct (rejects E SELECT_holes t0); [done|]. simpl in Hm.
  apply bind_exn_inr in Hm as ([m' t'] & Hl & Ha). eauto.
Qed.

(** C1. In a validated call whose Assay sheet has a row naming a hole that
    is neither stored nor on the Holes sheet, the call fails with at least
    one diagnostic and the store is what it was before the call: both
    tables keep their rows, whatever the connection had inserted or updated.
    If the two passes over the sheets ran to their end, the diagnostics
    returned are the accumulated ones, the diagnostic of that row (numbered
    index + 2) among them, and the trace ends in a rollback. *)
Theorem unresolved_assay_row_rolls_back
    E excel_path db_path w xls hdf adf (i : nat) row k :
  validated E w xls hdf adf →
  rows adf !! i = Some row →
  getitem (columns adf) row col_OBJEKT = inr (Scalar k) →
  Forall (fun h => h_name h ≠ k) (holes (db w)) →
  Forall (fun r => getitem (columns hdf) r col_IMYA ≠ inr (Scalar k)) (rows hdf) →
  ∃ errs w',
    import_excel_to_db E excel_path db_path w = ((false, errs), w')
    ∧ errs ≠ []
    ∧ db w' = db w
    ∧ length (holes (db w')) = length (holes (db w))
    ∧ length (assay (db w')) = length (assay (db w))
    ∧ (∀ errs' t,
         connect_error E = None →
         merge_rows E hdf adf [] (db w) = inr (errs', t) →
         errs = errs'
         ∧ UnknownHole k (Z.of_nat i + 2) ∈ errs
         ∧ log w' = log w ++ reader_trace
                      ++ [SqliteConnect; SqliteRollback; SqliteClose]).
Proof.
  intros Hv Hi Hg Hstore Hsheet.
  rewrite Forall_forall in Hstore. rewrite Forall_forall in Hsheet.
  rewrite (import_validated E excel_path db_path w xls hdf adf Hv).
  assert (Hrows : ∀ errs' t, merge_rows E hdf adf [] (db w) = inr (errs', t) →
            UnknownHole k (Z.of_nat i + 2) ∈ errs').
  { intros errs' t (m' & t' & Hl & Ha)%merge_rows_inr.
    apply assay_loop_inr in Ha as (_ & _ & Hin).
    replace (Z.of_nat i + 2) with (0 + Z.of_nat i + 2) by lia.
    apply (Hin i row k Hi Hg).
    destruct (m' !! k) as [hole_id|] eqn:Hk; [exfalso|done].
    destruct (holes_loop_dom _ _ _ _ _ _ _ _ _ Hl Hk) as [[id Hl0]|(r & Hr & Hgr)].
    - apply load_names_Some, elem_of_fetchall in Hl0 as (h & Hh & _ & Hn).
      by apply (Hstore h).
    - by apply (Hsheet r). }
  destruct (merge_cases E hdf adf (emit reader_trace w))
    as [(errs & evs & Hm & Hne & Hc)|[(errs & b & Hm & Hne & Hc & Hshape)|(t & Hm & Hc & Hmr & _)]].
  - exists errs, (emit evs (emit reader_trace w)). rewrite Hm.
    split_and!; [done..|]. intros errs' t Hc'. congruence.
  - eexists errs, _. rewrite Hm. simpl. split_and!; [done..|].
    intros errs' t _ Hmr.
    change (db (emit reader_trace w)) with (db w) in Hshape.
    rewrite Hmr in Hshape.
    assert (Hin := Hrows _ _ Hmr).
    destruct Hshape as [->|[-> _]]; [|by apply elem_of_nil in Hin].
    split_and!; [done..|]. by rewrite <-app_assoc.
  - exfalso. change (db (emit reader_trace w)) with (db w) in Hmr.
    apply Hrows in Hmr. by apply elem_of_nil in Hmr.
Qed.

(** ** Importing the same Holes sheet again *)

Lemma elem_of_names t k :
  k ∈ map h_name (holes t) ↔ ∃ id, (id, k) ∈ fetchall t.
Proof.
  rewrite list_elem_of_fmap. split.
  - intros (h & -> & Hin). exists (h_id h). apply elem_of_fetchall. eauto.
  - intros (id & (h & Hin & _ & <-)%elem_of_fetchall). eauto.
Qed.

Lemma getitem_scalar_field cols row label c :
  getitem cols row label = inr (Scalar c) → c = field cols row label.
Proof.
  unfold getitem, field. destruct (positions label cols) as [|i [|j ps]]; congruence.
Qed.

Lemma read_hole_name_field cols row f :
  read_hole cols row = inr f → f_name f = field cols row col_IMYA.
Proof. intros Hf%read_hole_name. by apply getitem_scalar_field. Qed.

(** After the loop over a sheet whose names the store keeps as written,
    every name in the dictionary is the name of a stored hole, and the name
    of every row is in the dictionary. *)
Lemma holes_loop_names E cols rs : ∀ m t m' t',
  holes_loop E cols (m, t) rs = inr (m', t') →
  names_kept E cols rs →
  (∀ k, is_Some (m !! k) → k ∈ map h_name (holes t)) →
  (∀ k, is_Some (m' !! k) → k ∈ map h_name (holes t'))
  ∧ (∀ row f, row ∈ rs → read_hole cols row = inr f → is_Some (m' !! f_name f)).
Proof.
  induction rs as [|row rs IH]; intros m t m' t'.
  - simpl. intros [= <- <-] _ Hinv. split; [done|].
    intros row f Hin. by apply elem_of_nil in Hin.
  - intros (m1 & t1 & Hs & Hl)%holes_loop_cons_inr [Hkept Hkepts]%Forall_cons_1 Hinv.
    apply hole_step_inr in Hs as (f & Hf & Hu).
    assert (Hinv1 : (∀ k, is_Some (m1 !! k) → k ∈ map h_name (holes t1))
                    ∧ is_Some (m1 !! f_name f)).
    { apply upsert_hole_inr in Hu as [(id & Hm & _ & -> & ->)|(Hn & _ & -> & ->)].
      - split; [|eauto]. intros k Hk. rewrite update_names. by apply Hinv.
      - split; [|rewrite lookup_insert_eq; eauto].
        intros k Hk. rewrite apply_insert_holes, map_app, elem_of_app. simpl.
        destruct (decide (f_name f = k)) as [<-|Hne].
        + right. rewrite (read_hole_name_field _ _ _ Hf), Hkept.
          apply list_elem_of_here.
        + rewrite lookup_insert_ne in Hk by done. left. by apply Hinv. }
    destruct Hinv1 as [Hinv1 [id1 Hkey]].
    destruct (IH _ _ _ _ Hl Hkepts Hinv1) as [Hinv' Hrows]. split; [done|].
    intros r g [->|Hin]%elem_of_cons Hg.
    + assert (g = f) as -> by congruence.
      exists id1. eapply holes_loop_keeps; done.
    + by eapply Hrows.
Qed.

(** When the dictionary holds the name of every row, the loop only
    updates: no identity and no name of the table changes. *)
Lemma holes_loop_all_known E cols rs : ∀ m t m' t',
  (∀ row f, row ∈ rs → read_hole cols row = inr f → is_Some (m !! f_name f)) →
  holes_loop E cols (m, t) rs = inr (m', t') →
  m' = m ∧ fetchall t' = fetchall t ∧ assay t' = assay t.
Proof.
  induction rs as [|row rs IH]; intros m t m' t' Hknown.
  - simpl. by intros [= <- <-].
  - intros (m1 & t1 & Hs & Hl)%holes_loop_cons_inr.
    apply hole_step_inr in Hs as (f & Hf & Hu).
    destruct (Hknown row f (list_elem_of_here _ _) Hf) as [id Hid].
    apply upsert_hole_inr in Hu as [(id' & Hm & _ & -> & ->)|(Hn & _)]; [|congruence].
    apply IH in Hl as (-> & Hfetch & Hassay).
    + rewrite Hfetch, Hassay, update_fetchall. done.
    + intros r g Hin. apply Hknown. by apply list_elem_of_further.
Qed.

Lemma fetchall_holes_eq t t' : holes t' = holes t → fetchall t' = fetchall t.
Proof. unfold fetchall. by intros ->. Qed.

(** When the first import is of a sheet whose hole names the store keeps
    as written, importing a workbook with the same Holes sheet into the
    resulting store creates no hole: the identities and names of the holes
    table, row by row, are those the first import left, and so is its row
    count. *)
Lemma second_import_finds_kept_names
    E1 E2 excel_path db_path w w1 xls1 xls2 hdf adf1 adf2 :
  excel E1 = inr xls1 → parse_sheets xls1 = inr (hdf, adf1) →
  excel E2 = inr xls2 → parse_sheets xls2 = inr (hdf, adf2) →
  names_kept E1 (columns hdf) (rows hdf) →
  import_excel_to_db E1 excel_path db_path w = ((true, []), w1) →
  let r2 := import_excel_to_db E2 excel_path db_path w1 in
  fetchall (db r2.2) = fetchall (db w1)
  ∧ length (holes (db r2.2)) = length (holes (db w1)).
Proof.
  intros HE1 Hp1 HE2 Hp2 Hkept Hfirst r2.
  assert (Hlen : ∀ t t' : tables (val:=val), fetchall t' = fetchall t →
            length (holes t') = length (holes t)).
  { intros t t' Hf. apply (f_equal length) in Hf. unfold fetchall in Hf.
    by rewrite !length_map in Hf. }
  enough (Hfetch : fetchall (db r2.2) = fetchall (db w1)) by (split; [done | by apply Hlen]).
  (* what the first import left *)
  assert (Hknown : ∀ row f, row ∈ rows hdf → read_hole (columns hdf) row = inr f →
            is_Some (load_names (fetchall (db w1)) !! f_name f)).
  { destruct (import_inv E1 excel_path db_path w)
      as [(errs & evs & Hr & _)|(xls & hdf' & adf' & Hv)]; [congruence|].
    assert (hdf' = hdf ∧ adf' = adf1) as [-> ->].
    { destruct Hv as (HE & Hp & _). split; congruence. }
    rewrite (import_validated _ _ _ _ _ _ _ Hv) in Hfirst.
    destruct (merge_cases E1 hdf adf1 (emit reader_trace w))
      as [(errs & evs & Hm & _)|[(errs & b & Hm & _)|(t & Hm & _ & Hmr & _)]];
      [congruence..|].
    assert (db w1 = t) as Hdb by (rewrite Hm in Hfirst; by injection Hfirst as <-).
    apply merge_rows_inr in Hmr as (m' & t' & Hl & Ha).
    apply assay_loop_inr in Ha as (Hh & _).
    apply holes_loop_names in Hl as [Hnames Hrows]; [|done|].
    2:{ intros k [id Hk]. apply load_names_Some in Hk.
        apply elem_of_names. eauto. }
    intros row f Hin Hf. specialize (Hrows row f Hin Hf).
    apply Hnames in Hrows. rewrite <-Hh, <-Hdb in Hrows.
    apply elem_of_names in Hrows as [id Hid].
    by eapply load_names_is_Some. }
  (* the second import *)
  subst r2.
  destruct (import_inv E2 excel_path db_path w1)
    as [(errs & evs & -> & _)|(xls & hdf' & adf' & Hv)]; [done|].
  assert (hdf' = hdf ∧ adf' = adf2) as [-> ->].
  { destruct Hv as (HE & Hp & _). split; congruence. }
  rewrite (import_validated _ _ _ _ _ _ _ Hv).
  destruct (merge_cases E2 hdf adf2 (emit reader_trace w1))
    as [(errs & evs & -> & _)|[(errs & b & -> & _)|(t & -> & _ & Hmr & _)]];
    [done..|].
  simpl. change (db (emit reader_trace w1)) with (db w1) in Hmr.
  apply merge_rows_inr in Hmr as (m' & t' & Hl & Ha).
  apply assay_loop_inr in Ha as (Hh & _).
  apply holes_loop_all_known in Hl as (_ & Hf & _); [|done].
  rewrite (fetchall_holes_eq _ _ Hh). done.
Qed.

(** ** The store seen by name *)

Lemma NoDup_map_inj {A B} (g : A → B) (l : list A) x y :
  NoDup (map g l) → x ∈ l → y ∈ l → g x = g y → x = y.
Proof.
  induction l as [|a l IH]; simpl.
  - by intros _ ?%elem_of_nil.
  - intros [Hna Hnd]%NoDup_cons [->|Hx]%elem_of_cons [->|Hy]%elem_of_cons Heq.
    + done.
    + exfalso. apply Hna. rewrite Heq. by apply list_elem_of_fmap_2.
    + exfalso. apply Hna. rewrite <-Heq. by apply list_elem_of_fmap_2.
    + by apply IH.
Qed.

Lemma fetchall_fst t : map fst (fetchall t) = map h_id (holes t).
Proof. unfold fetchall. rewrite map_map. done. Qed.

Lemma fetchall_snd t : map snd (fetchall t) = map h_name (holes t).
Proof. unfold fetchall. rewrite map_map. done. Qed.

Lemma hole_view_lookup t k a :
  NoDup (map h_name (holes t)) →
  hole_view t !! k = Some a ↔ ∃ h, h ∈ holes t ∧ h_name h = k ∧ attrs_of h = a.
Proof.
  intros Hnd. unfold hole_view. rewrite <-elem_of_list_to_map.
  - rewrite list_elem_of_fmap. split.
    + intros (h & [= -> ->] & Hin). eauto.
    + intros (h & Hin & <- & <-). eauto.
  - replace (_.*1) with (map h_name (holes t)); [done|].
    change (map h_name (holes t) = map fst (map (λ h, (h_name h, attrs_of h)) (holes t))).
    by rewrite map_map.
Qed.

Lemma id_names_lookup t hole_id k :
  NoDup (map h_id (holes t)) →
  id_names t !! hole_id = Some k ↔ (hole_id, k) ∈ fetchall t.
Proof.
  intros Hnd. unfold id_names. rewrite <-elem_of_list_to_map; [done|].
  change (NoDup (map fst (fetchall t))). by rewrite fetchall_fst.
Qed.

Lemma load_names_lookup (fetched : list (Z * option val)) k hole_id :
  NoDup (map snd fetched) → (hole_id, k) ∈ fetched →
  load_names fetched !! k = Some hole_id.
Proof.
  induction fetched as [|[id' k'] fetched IH] using rev_ind.
  - by intros _ ?%elem_of_nil.
  - rewrite map_app. simpl. intros (Hnd & Hfresh & _)%NoDup_app.
    rewrite load_names_snoc, elem_of_app, list_elem_of_singleton.
    intros [Hin|[= -> ->]].
    + rewrite lookup_insert_ne; [by apply IH|]. intros ->.
      apply (Hfresh k); [|apply list_elem_of_here].
      change k with (snd (hole_id, k)). by apply list_elem_of_fmap_2.
    + apply lookup_insert_eq.
Qed.

(** Lines 138-141 build the index of the stored holes. *)
Lemma load_names_indexed t : store_ok t → indexed (load_names (fetchall t)) t.
Proof.
  intros Hok. split; [done|]. intros k hole_id. split.
  - apply load_names_Some.
  - apply load_names_lookup. rewrite fetchall_snd. by destruct Hok as (_ & ? & _).
Qed.

Lemma indexed_row m t h :
  indexed m t → h ∈ holes t → m !! h_name h = Some (h_id h).
Proof. intros [_ Hi] Hin. apply Hi, elem_of_fetchall. eauto. Qed.

Lemma fetchall_insert t f :
  fetchall (apply_stmt (insert_of f) t) =
  fetchall t ++ [(next_id (map h_id (holes t)), f_name f)].
Proof. unfold fetchall. simpl. by rewrite map_app. Qed.

(** An update through the index rewrites the attributes recorded under
    the name and nothing else. *)
Lemma update_by_name m t f hole_id :
  indexed m t → m !! f_name f = Some hole_id →
  let t' := apply_stmt (update_of f hole_id) t in
  indexed m t'
  ∧ hole_view t' = <[f_name f := attrs_of_fields f]> (hole_view t)
  ∧ assay_view t' = assay_view t.
Proof.
  intros [(Hids & Hnames & Hfk) Hidx] Hm t'. rewrite Forall_forall in Hfk.
  assert (Hfetch : fetchall t' = fetchall t) by apply update_fetchall.
  assert (Hids' : map h_id (holes t') = map h_id (holes t)) by apply update_ids.
  assert (Hnames' : map h_name (holes t') = map h_name (holes t)) by apply update_names.
  assert (Hrow : ∃ h0, h0 ∈ holes t ∧ h_id h0 = hole_id ∧ h_name h0 = f_name f).
  { apply elem_of_fetchall, Hidx, Hm. }
  destruct Hrow as (h0 & Hh0 & Hid0 & Hname0).
  assert (Hsame : ∀ h, h ∈ holes t → h_id h = hole_id ↔ h_name h = f_name f).
  { intros h Hh. split.
    - intros Hid. assert (h = h0) as ->; [|done].
      apply (NoDup_map_inj h_id (holes t)); [done..|congruence].
    - intros Hn. assert (h = h0) as ->; [|done].
      apply (NoDup_map_inj h_name (holes t)); [done..|congruence]. }
  split_and!.
  - split.
    + split_and!; [by rewrite Hids' | by rewrite Hnames' |].
      apply Forall_forall. intros a Ha. rewrite Hids'. by apply Hfk.
    + intros k id. by rewrite Hfetch.
  - apply map_eq. intros k. apply option_eq. intros a.
    rewrite hole_view_lookup by (by rewrite Hnames').
    split.
    + intros (h' & Hin & <- & <-). subst t'. simpl in Hin.
      apply list_elem_of_fmap in Hin as (h & -> & Hh).
      case_decide as Hid.
      * apply (Hsame h Hh) in Hid. simpl. rewrite Hid.
        by rewrite lookup_insert_eq.
      * assert (h_name h ≠ f_name f) as Hne by (by rewrite <-(Hsame h Hh)).
        rewrite lookup_insert_ne by done.
        apply hole_view_lookup; [done|]. eauto.
    + destruct (decide (f_name f = k)) as [<-|Hne].
      * rewrite lookup_insert_eq. intros [= <-].
        exists (set_attrs (f_x f) (f_y f) (f_z f) (f_lenght f) (f_level f)
                  (f_issue_date f) h0).
        split_and!; [|done..]. subst t'. simpl.
        apply list_elem_of_fmap. exists h0. by rewrite decide_True.
      * rewrite lookup_insert_ne by done.
        intros (h & Hh & <- & <-)%hole_view_lookup; [|done].
        exists h. split_and!; [|done..]. subst t'. simpl.
        apply list_elem_of_fmap. exists h. split; [|done].
        rewrite decide_False; [done|]. intros Hid. by apply Hne, eq_sym, Hsame.
  - unfold assay_view, id_names. by rewrite Hfetch.
Qed.

(** An insert under a name the index does not hold records the
    attributes under that name and extends the index. *)
Lemma insert_by_name m t f :
  indexed m t → m !! f_name f = None →
  let hole_id := next_id (map h_id (holes t)) in
  let t' := apply_stmt (insert_of f) t in
  indexed (<[f_name f := hole_id]> m) t'
  ∧ hole_view t' = <[f_name f := attrs_of_fields f]> (hole_view t)
  ∧ assay_view t' = assay_view t.
Proof.
  intros [(Hids & Hnames & Hfk) Hidx] Hm hole_id t'. rewrite Forall_forall in Hfk.
  assert (Hnew : ∀ h, h ∈ holes t → h_name h ≠ f_name f).
  { intros h Hh Hn. assert (m !! h_name h = Some (h_id h)) as Hl.
    { apply Hidx, elem_of_fetchall. eauto. }
    congruence. }
  assert (Hfresh : hole_id ∉ map h_id (holes t)) by apply next_id_fresh.
  assert (Hids' : NoDup (map h_id (holes t'))).
  { subst t'. rewrite apply_insert_holes, map_app. apply NoDup_app. split_and!.
    - done.
    - intros id Hin [->|?%elem_of_nil]%elem_of_cons; [|done]. by apply Hfresh.
    - apply NoDup_singleton. }
  assert (Hnames' : NoDup (map h_name (holes t'))).
  { subst t'. rewrite apply_insert_holes, map_app. apply NoDup_app. split_and!.
    - done.
    - intros k (h & -> & Hh)%list_elem_of_fmap [Heq|?%elem_of_nil]%elem_of_cons; [|done].
      by apply (Hnew h Hh).
    - apply NoDup_singleton. }
  split_and!.
  - split.
    + split_and!; [done..|]. apply Forall_forall. intros a Ha. subst t'.
      rewrite apply_insert_holes, map_app, elem_of_app. left. by apply Hfk.
    + intros k id. subst t'. rewrite fetchall_insert, elem_of_app, list_elem_of_singleton.
      destruct (decide (f_name f = k)) as [<-|Hne].
      * rewrite lookup_insert_eq. split.
        -- intros [= <-]. by right.
        -- intros [(h & Hh & _ & Hn)%elem_of_fetchall|[= ->]]; [|done].
           by destruct (Hnew h Hh).
      * rewrite lookup_insert_ne by done. rewrite Hidx. split.
        -- by left.
        -- intros [?|Heq]; [done|]. exfalso. apply Hne. congruence.
  - apply map_eq. intros k. apply option_eq. intros a.
    rewrite hole_view_lookup by done. subst t'. rewrite apply_insert_holes.
    split.
    + intros (h & Hin & <- & <-).
      apply elem_of_app in Hin as [Hh|Hlast].
      * rewrite lookup_insert_ne by (intros Heq; by apply (Hnew h Hh)).
        apply hole_view_lookup; [done|]. eauto.
      * apply list_elem_of_singleton in Hlast as ->. simpl.
        by rewrite lookup_insert_eq.
    + destruct (decide (f_name f = k)) as [<-|Hne].
      * rewrite lookup_insert_eq. intros [= <-].
        exists (new_hole hole_id f). split_and!; [|done..].
        apply elem_of_app. right. apply list_elem_of_here.
      * rewrite lookup_insert_ne by done.
        intros (h & Hh & <- & <-)%hole_view_lookup; [|done].
        exists h. split_and!; [|done..]. apply elem_of_app. by left.
  - unfold assay_view. change (assay t') with (assay t).
    apply map_ext_in. intros a Ha%list_elem_of_In. f_equal. f_equal. f_equal.
    apply option_eq. intros k.
    rewrite !id_names_lookup by done. subst t'.
    rewrite fetchall_insert, elem_of_app, list_elem_of_singleton. split.
    + intros [?|[= Hid _]]; [done|]. exfalso. apply Hfresh.
      unfold hole_id. rewrite <-Hid. by apply Hfk.
    + by left.
Qed.

(** ** Reading a row depends on the header only for its failures *)




Lemma getitem_scalar_unique cols row label c :
  getitem cols row label = inr (Scalar c) → length (positions label cols) = 1%nat.
Proof.
  unfold getitem. by destruct (positions label cols) as [|i [|j ps]].
Qed.

Lemma read_hole_inr_unique cols row f :
  read_hole cols row = inr f → unique_labels cols (keys holes_cols).
Proof.
  unfold read_hole. intros Hr.
  apply bind_exn_inr in Hr as (o1 & H1 & Hr). apply bind_exn_inr in Hr as (o2 & H2 & Hr).
  apply bind_exn_inr in Hr as (o3 & H3 & Hr). apply bind_exn_inr in Hr as (o4 & H4 & Hr).
  apply bind_exn_inr in Hr as (o5 & H5 & Hr). apply bind_exn_inr in Hr as (o6 & H6 & Hr).
  apply bind_exn_inr in Hr as (o7 & H7 & Hr).
  destruct o1, o2, o3, o4, o5, o6, o7; try done.
  unfold unique_labels, keys, holes_cols. simpl.
  repeat (apply Forall_cons; split; [by eapply getitem_scalar_unique|]).
  apply Forall_nil_2.
Qed.

(** ** The pass over the Holes sheet, by name *)


Lemma record_rows_cons E cols row rs (v : gmap (option val) attrs) :
  record_rows E cols (row :: rs) v =
  record_rows E cols rs
    (<[f_name (hole_of_row cols row) :=
         attrs_of_fields (kept_fields E (hole_of_row cols row))]> v).
Proof. done. Qed.

(** With a store that accepts every statement, the loop over the Holes
    sheet keeps the dictionary an index of the table and acts on the
    by-name view as [record_rows]. *)
Lemma kept_fields_name E f : f_name (kept_fields E f) = kept E Holes (f_name f).
Proof. done. Qed.

Lemma holes_loop_by_name E cols rs : ∀ m t,
  unique_labels cols (keys holes_cols) →
  (∀ st t', rejects E st t' = None) →
  names_kept E cols rs →
  indexed m t →
  ∃ m' t', holes_loop E cols (m, t) rs = inr (m', t')
    ∧ indexed m' t'
    ∧ hole_view t' = record_rows E cols rs (hole_view t)
    ∧ assay_view t' = assay_view t
    ∧ assay t' = assay t
    ∧ (∀ k, is_Some (m' !! k) ↔
            is_Some (m !! k) ∨ k ∈ map (fun row => field cols row col_IMYA) rs).
Proof.
  induction rs as [|row rs IH]; intros m t Hu Hr Hkept Hidx.
  - exists m, t. simpl. split_and!; [done..|].
    intros k. split; [by left | intros [?|?%elem_of_nil]; done].
  - apply Forall_cons_1 in Hkept as [Hk Hkept].
    simpl. rewrite hole_step_read, read_hole_unique by done. cbn [bind_exn].
    set (f := hole_of_row cols row).
    assert (Hname : f_name (kept_fields E f) = f_name f) by exact Hk.
    unfold upsert_hole, execute. cbn [fst snd].
    destruct (m !! f_name f) as [hole_id|] eqn:Hm; rewrite Hr; cbn [bind_exn].
    + rewrite bind_update_of.
      assert (Hm' : m !! f_name (kept_fields E f) = Some hole_id) by (by rewrite Hname).
      destruct (update_by_name m t (kept_fields E f) hole_id Hidx Hm')
        as (Hidx' & Hview & Hassay).
      rewrite Hname in Hview.
      destruct (IH m (apply_stmt (update_of (kept_fields E f) hole_id) t) Hu Hr Hkept Hidx')
        as (m' & t' & Hl & Hidx'' & Hv & Ha & Has & Hdom).
      exists m', t'. rewrite Hl. split_and!; [done..| | | |].
      * rewrite Hv, Hview. done.
      * by rewrite Ha.
      * by rewrite Has.
      * intros k. rewrite Hdom, elem_of_cons. split; [tauto|].
        intros [?|[->|?]]; [tauto| |tauto]. left. exists hole_id. exact Hm.
    + rewrite bind_insert_of, lastrowid_insert.
      assert (Hm' : m !! f_name (kept_fields E f) = None) by (by rewrite Hname).
      destruct (insert_by_name m t (kept_fields E f) Hidx Hm') as (Hidx' & Hview & Hassay).
      rewrite Hname in Hview, Hidx'.
      destruct (IH _ (apply_stmt (insert_of (kept_fields E f)) t) Hu Hr Hkept Hidx')
        as (m' & t' & Hl & Hidx'' & Hv & Ha & Has & Hdom).
      exists m', t'. rewrite Hl. split_and!; [done..| | | |].
      * rewrite Hv, Hview. done.
      * by rewrite Ha.
      * by rewrite Has.
      * intros k. rewrite Hdom, elem_of_cons, lookup_insert_is_Some'.
        change (field cols row col_IMYA) with (f_name f).
        split; [intros [[->|?]|?] | intros [?|[->|?]]]; eauto.
Qed.

(** What is recorded under a name is decided by the last row that carries
    it; a name no row carries keeps what it had. *)
Lemma record_rows_lookup E cols rs : ∀ (v : gmap (option val) attrs) k,
  record_rows E cols rs v !! k =
  match last_named cols k rs with
  | Some row => Some (attrs_of_fields (kept_fields E (hole_of_row cols row)))
  | None => v !! k
  end.
Proof.
  unfold last_named.
  induction rs as [|row rs IH]; intros v k; [done|].
  rewrite record_rows_cons, IH, filter_cons.
  destruct (decide (field cols row col_IMYA = k)) as [Heq|Hne].
  - rewrite last_cons. destruct (last (filter _ rs)); [done|].
    change (f_name (hole_of_row cols row)) with (field cols row col_IMYA).
    by rewrite Heq, lookup_insert_eq.
  - destruct (last (filter _ rs)); [done|]. by rewrite lookup_insert_ne.
Qed.




(** ** The pass over the Assay sheet, by name *)

Lemma insert_assay_by_name m t k hole_id fr to au :
  indexed m t → m !! k = Some hole_id →
  let t' := apply_stmt (INSERT_assay hole_id fr to au) t in
  indexed m t'
  ∧ hole_view t' = hole_view t
  ∧ assay_view t' = assay_view t ++ [(Some k, fr, to, au)].
Proof.
  intros [(Hids & Hnames & Hfk) Hidx] Hm t'. rewrite Forall_forall in Hfk.
  assert (Hin : (hole_id, k) ∈ fetchall t) by by apply Hidx.
  split_and!.
  - split; [|done]. split_and!; [done..|]. apply Forall_forall.
    intros a [Ha|Ha]%elem_of_app; [by apply Hfk|].
    apply list_elem_of_singleton in Ha as ->. simpl.
    rewrite <-fetchall_fst. change hole_id with (fst (hole_id, k)).
    by apply list_elem_of_fmap_2.
  - done.
  - unfold assay_view. subst t'. simpl. rewrite map_app. simpl.
    f_equal. f_equal. f_equal. f_equal. f_equal.
    change (id_names t !! hole_id = Some k). by apply id_names_lookup.
Qed.


(** ** The order of the rows of the Holes sheet *)







(** The merge phase does not look at the workbook behind the path. *)
Lemma holes_loop_with_excel E x cols rs : ∀ s,
  holes_loop (with_excel E x) cols s rs = holes_loop E cols s rs.
Proof.
  induction rs as [|row rs IH]; intros s; [done|]. simpl.
  change (hole_step (with_excel E x) cols s row) with (hole_step E cols s row).
  destruct (hole_step E cols s row); [done|]. apply IH.
Qed.

Lemma assay_loop_with_excel E x cols m rs : ∀ idx (s : list diagnostic * tables),
  assay_loop (with_excel E x) cols m idx s rs = assay_loop E cols m idx s rs.
Proof.
  induction rs as [|row rs IH]; intros idx s; [done|]. simpl.
  change (assay_step (with_excel E x) cols m idx s row)
    with (assay_step E cols m idx s row).
  destruct (assay_step E cols m idx s row); [done|]. apply IH.
Qed.

Lemma merge_with_excel E x hdf adf errors w :
  merge (with_excel E x) hdf adf errors w = merge E hdf adf errors w.
Proof.
  unfold merge. cbn [connect_error with_excel].
  destruct (connect_error E); [done|].
  assert (Hrows : ∀ t0, merge_rows (with_excel E x) hdf adf errors t0 =
                        merge_rows E hdf adf errors t0).
  { intros t0. unfold merge_rows.
    change (execute (with_excel E x)) with (execute E).
    destruct (execute E PRAGMA_foreign_keys t0) as [|t1]; [done|]. cbn [bind_exn].
    destruct (execute E SELECT_holes t1) as [|t2]; [done|]. cbn [bind_exn].
    rewrite holes_loop_with_excel.
    destruct (holes_loop E _ _ _) as [|s]; [done|]. cbn [bind_exn].
    apply assay_loop_with_excel. }
  rewrite Hrows. change (execute (with_excel E x)) with (execute E). done.
Qed.


Lemma holes_loop_inr_unique E cols s rs s' :
  holes_loop E cols s rs = inr s' → rs ≠ [] →
  unique_labels cols (keys holes_cols).
Proof.
  destruct rs as [|row rs]; [done|]. destruct s as [m t], s' as [m' t'].
  intros (m1 & t1 & (f & Hf & _)%hole_step_inr & _)%holes_loop_cons_inr _.
  by eapply read_hole_inr_unique.
Qed.

(** On a sheet with pairwise distinct names every order of the rows has
    the same last row for every name. *)
Lemma filter_name_NoDup cols k rs :
  NoDup (map (fun row => field cols row col_IMYA) rs) →
  (length (filter (fun row => field cols row col_IMYA = k) rs) ≤ 1)%nat.
Proof.
  induction rs as [|row rs IH]; [simpl; lia|]. cbn [map].
  intros [Hn Hnd]%NoDup_cons. rewrite filter_cons.
  destruct (decide (field cols row col_IMYA = k)) as [Heq|Hne]; [|by apply IH].
  assert (Hnil : filter (fun r => field cols r col_IMYA = k) rs = []).
  { clear IH Hnd. rewrite Heq in Hn. induction rs as [|r rs IH]; [done|].
    cbn [map] in Hn. apply not_elem_of_cons in Hn as [Hne Hn].
    rewrite filter_cons, decide_False by done. by apply IH. }
  rewrite Hnil. simpl. lia.
Qed.

Lemma last_named_perm_NoDup cols rs rs' k :
  rs' ≡ₚ rs →
  NoDup (map (fun row => field cols row col_IMYA) rs) →
  last_named cols k rs' = last_named cols k rs.
Proof.
  intros Hp Hnd. unfold last_named.
  pose proof (filter_name_NoDup cols k rs Hnd) as Hlen.
  assert (Hpf : filter (fun row => field cols row col_IMYA = k) rs'
                ≡ₚ filter (fun row => field cols row col_IMYA = k) rs) by (by rewrite Hp).
  destruct (filter _ rs) as [|r [|r' l]]; simpl in Hlen; [| |lia].
  - by apply Permutation_nil_r in Hpf as ->.
  - by apply Permutation_singleton_r in Hpf as ->.
Qed.


(** ** The workbook handles *)

Lemma unreleased_app (evs1 evs2 : list event) :
  unreleased (evs1 ++ evs2) = unreleased evs1 + unreleased evs2.
Proof.
  induction evs1 as [|ev evs1 IH]; simpl; [lia|]. destruct ev; lia.
Qed.

Lemma merge_log E hdf adf errors w :
  ∃ evs, log (merge E hdf adf errors w).2 = log w ++ evs ∧ unreleased evs = 0.
Proof.
  unfold merge. destruct (connect_error E).
  { exists [SqliteConnect]. done. }
  destruct (merge_rows _ _ _ _ _) as [e|[errs t]]; simpl.
  { exists [SqliteConnect; SqliteRollback; SqliteClose]. by rewrite <-app_assoc. }
  destruct errs.
  2:{ exists [SqliteConnect; SqliteRollback; SqliteClose]. simpl. by rewrite <-app_assoc. }
  destruct (execute E COMMIT t); simpl.
  - exists [SqliteConnect; SqliteRollback; SqliteClose]. by rewrite <-app_assoc.
  - exists [SqliteConnect; SqliteCommit; SqliteClose]. by rewrite <-app_assoc.
Qed.

(** Every validated call, whether the merge then succeeds or fails, returns
    with one workbook handle still open: the one of line 73. *)
Lemma validated_call_keeps_a_handle E excel_path db_path w xls hdf adf :
  validated E w xls hdf adf →
  ∃ evs, log (import_excel_to_db E excel_path db_path w).2 = log w ++ evs
    ∧ unreleased evs = 1.
Proof.
  intros Hv. rewrite (import_validated _ _ _ _ _ _ _ Hv).
  destruct (merge_log E hdf adf [] (emit reader_trace w)) as (evs & -> & Hevs).
  exists (reader_trace ++ evs). split.
  - simpl. by rewrite <-app_assoc.
  - rewrite unreleased_app, Hevs. done.
Qed.

End Properties.

(** * The properties on the small journal *)

Section OnTheJournal.

Import Journal.

Ltac by_compute := apply (bool_decide_unpack _); vm_compute; reflexivity.

(** The headers are trimmed before they are compared: " X " and "Z\t"
    count as "X" and "Z". *)
Example trimmed_headers_are_found :
  parse_sheets (book holes_AB assay_AB) =
  inr ({| columns := keys holes_cols; rows := [hole_A; hole_B] |},
       {| columns := keys assay_cols; rows := rows assay_AB |}).
Proof. reflexivity. Qed.

Example import_into_empty_store :
  import_excel_to_db (quiet (book holes_AB assay_AB)) journal_path store_path empty_store
  = ((true, []),
     {| db_isfile := true;
        db := {| holes := [ new_hole 1 (hole_of_row (keys holes_cols) hole_A);
                            new_hole 2 (hole_of_row (keys holes_cols) hole_B) ];
                 assay := [ {| a_id := 1; a_hole_id := 1; a_from := num 0;
                               a_to := num 1; a_Au := num 7 |};
                            {| a_id := 2; a_hole_id := 2; a_from := num 0;
                               a_to := num 1; a_Au := num 3 |} ] |};
        log := [ExcelOpen; ExcelClose; ExcelOpen; SqliteConnect; SqliteCommit;
                SqliteClose] |}).
Proof. vm_compute. reflexivity. Qed.

(** C9, at a workbook the call accepts: the call succeeds, and of the
    two handles it opened on the workbook it closed one. *)
Theorem second_workbook_handle_stays_open :
  let r := import_excel_to_db (quiet (book holes_AB assay_AB))
             journal_path store_path empty_store in
  r.1 = (true, [])
  ∧ log r.2 = [ExcelOpen; ExcelClose; ExcelOpen; SqliteConnect; SqliteCommit; SqliteClose]
  ∧ unreleased (log r.2) = 1.
Proof. vm_compute. done. Qed.


(** A journal without the Assay sheet is rejected before the store is
    contacted. *)
Lemma missing_assay_sheet_never_connects :
  ∃ errs evs,
    import_excel_to_db (quiet [(Holes, inr holes_AB)]) journal_path store_path old_store
      = ((false, errs), emit evs old_store)
    ∧ MissingSheet Assay ∈ errs ∧ (SqliteConnect ∉ evs).
Proof.
  assert (Hreq : Assay ∈ required_sheets) by by_compute.
  assert (Hno : Assay ∉ sheet_names (val:=pyval) [(Holes, inr holes_AB)]) by by_compute.
  destruct (validation_failure_never_connects
              (quiet [(Holes, inr holes_AB)]) journal_path store_path old_store
              [(Holes, inr holes_AB)] eq_refl
              (or_introl (ex_intro _ Assay (conj Hreq Hno))))
    as (errs & evs & Hr & _ & Hev & _ & _ & Hsheet).
  exists errs, evs. split_and!; [done| |done]. by apply Hsheet.
Defined.

(** Without a database file the journal is refused. *)
Lemma no_store_is_refused :
  import_excel_to_db (quiet (book holes_AB assay_AB)) journal_path store_path no_store
  = ((false, [DbFileNotFound store_path]), emit [ExcelOpen; ExcelClose] no_store).
Proof.
  destruct (missing_database_is_refused
              (quiet (book holes_AB assay_AB)) journal_path store_path no_store eq_refl)
    as [_ Hdiag].
  exact (Hdiag (book holes_AB assay_AB) (rename_strip holes_AB) (rename_strip assay_AB)
           eq_refl eq_refl eq_refl).
Defined.

(** One column missing on each sheet: two diagnostics. *)
Lemma two_missing_columns_two_diagnostics :
  import_excel_to_db (quiet (book holes_no_X assay_no_Au)) journal_path store_path old_store
  = ((false, [MissingColumn col_X Holes; MissingColumn col_Au Assay]),
     emit reader_trace old_store).
Proof.
  assert (Hne : missing_columns (val:=pyval) (map strip (columns holes_no_X)) holes_cols Holes
                ++ missing_columns (map strip (columns assay_no_Au)) assay_cols Assay ≠ []).
  { vm_compute. discriminate. }
  destruct (column_check_reports_every_missing_column
              (quiet (book holes_no_X assay_no_Au)) journal_path store_path old_store
              (book holes_no_X assay_no_Au) holes_no_X assay_no_Au
              eq_refl eq_refl eq_refl eq_refl eq_refl Hne)
    as (Hr & _).
  exact Hr.
Defined.

(** Three empty cells on two sheets: two diagnostics. *)
Lemma nulls_on_both_sheets_two_diagnostics :
  ∃ errs,
    import_excel_to_db (quiet (book holes_null assay_null)) journal_path store_path old_store
      = ((false, errs), emit reader_trace old_store)
    ∧ errs = [NullValues Holes; NullValues Assay].
Proof.
  assert (Hh : null_in_required (rename_strip holes_null) (keys holes_cols)).
  { exists [name_A; num 0; None; num 0; num 10; num 100; num 20231231],
           col_Y, 2%nat.
    split_and!; [by_compute | by_compute | reflexivity | reflexivity]. }
  assert (Ha : null_in_required (rename_strip assay_null) (keys assay_cols)).
  { exists [name_A; num 0; None; num 7], col_DO, 2%nat.
    split_and!; [by_compute | by_compute | reflexivity | reflexivity]. }
  destruct (null_check_reports_once_per_sheet
              (quiet (book holes_null assay_null)) journal_path store_path old_store
              (book holes_null assay_null)
              (rename_strip holes_null) (rename_strip assay_null)
              eq_refl eq_refl eq_refl eq_refl eq_refl eq_refl (or_introl Hh))
    as (errs & Hr & _ & _ & _ & Hboth).
  exists errs. split; [done|]. by apply Hboth.
Defined.

(** An interval of the unknown hole "C" undoes the whole batch: the holes
    "A" and "B" the connection had inserted are gone with it. *)
Lemma unknown_hole_leaves_the_store :
  ∃ w',
    import_excel_to_db (quiet (book holes_AB assay_unknown)) journal_path store_path
      old_store = ((false, [UnknownHole name_C 3]), w')
    ∧ db w' = old_tables
    ∧ log w' = reader_trace ++ [SqliteConnect; SqliteRollback; SqliteClose].
Proof.
  assert (Hv : validated (quiet (book holes_AB assay_unknown)) old_store
                 (book holes_AB assay_unknown)
                 (rename_strip holes_AB) (rename_strip assay_unknown)).
  { repeat split; reflexivity. }
  assert (Hstore : Forall (fun h => h_name h ≠ name_C) (holes (db old_store))).
  { repeat constructor; discriminate. }
  assert (Hsheet : Forall (fun r => getitem (columns (rename_strip holes_AB)) r col_IMYA
                                    ≠ inr (Scalar (name_C)))
                     (rows (rename_strip holes_AB))).
  { repeat constructor; vm_compute; discriminate. }
  destruct (unresolved_assay_row_rolls_back
              (quiet (book holes_AB assay_unknown)) journal_path store_path old_store
              (book holes_AB assay_unknown)
              (rename_strip holes_AB) (rename_strip assay_unknown)
              1%nat [name_C; num 0; num 1; num 3] (name_C)
              Hv eq_refl eq_refl Hstore Hsheet)
    as (errs & w' & Hr & _ & Hdb & _ & _ & Hrows).
  destruct (Hrows [UnknownHole name_C 3]
              {| holes := holes old_tables ++
                   [ new_hole 2 (hole_of_row (keys holes_cols) hole_A);
                     new_hole 3 (hole_of_row (keys holes_cols) hole_B) ];
                 assay := assay old_tables ++
                   [ {| a_id := 2; a_hole_id := 2; a_from := num 0; a_to := num 1;
                        a_Au := num 7 |} ] |}
              eq_refl eq_refl) as (-> & _ & Hlog).
  exists w'. done.
Defined.


(** C7, on the ledger of integers, imported twice into the old store.
    The first import stores the hole names 101 and 102 as the BLOBs of
    their bytes; the second import reads them back as byte strings, finds
    neither 101 nor 102 among them and inserts both holes again: the holes
    table grows from three rows to five. Where the store enforces the
    unique name of the spec, the second import fails on the first insert
    instead and rolls back. *)
Theorem second_import_of_the_ledger_adds_holes :
  let b101 := Some (Bytes [101; 0; 0; 0; 0; 0; 0; 0]%N) in
  let b102 := Some (Bytes [102; 0; 0; 0; 0; 0; 0; 0]%N) in
  let first := import_excel_to_db lenient journal_path store_path old_store in
  let second := import_excel_to_db lenient journal_path store_path first.2 in
  let first' := import_excel_to_db strict journal_path store_path old_store in
  let second' := import_excel_to_db strict journal_path store_path first'.2 in
  first.1 = (true, [])
  ∧ map h_name (holes (db first.2)) = [name_O; b101; b102]
  ∧ second.1 = (true, [])
  ∧ map h_name (holes (db second.2)) = [name_O; b101; b102; b101; b102]
  ∧ map h_id (holes (db second.2)) = [1; 2; 3; 4; 5]
  ∧ length (holes (db first.2)) = 3%nat ∧ length (holes (db second.2)) = 5%nat
  ∧ first'.1 = (true, [])
  ∧ second'.1 = (false, [DbError unique_failed])
  ∧ db second'.2 = db first'.2.
Proof. vm_compute. done. Qed.


End OnTheJournal.

(** * Further properties of the import *)

Section Further.

Context `{Countable val}.

Implicit Types (E : env (val:=val)) (w : world (val:=val)) (t : tables (val:=val)).
Implicit Types (df hdf adf : DataFrame (val:=val)) (xls : workbook (val:=val)).
Implicit Types (errors errs : list (diagnostic (val:=val))).
Implicit Types (m : gmap (option val) Z) (row : list (option val)).
Implicit Types (cols : list pystr) (rs : list (list (option val))).

(** ** Every way a call can end *)

Lemma not_connected (evs : list event) :
  evs = [] ∨ evs = [ExcelOpen; ExcelClose] ∨ evs = reader_trace →
  (SqliteConnect ∉ evs) ∧ store_events evs = [].
Proof.
  intros [-> | [-> | ->]]; (split; [|done]); unfold reader_trace;
    rewrite ?not_elem_of_cons; split_and?; try discriminate; apply not_elem_of_nil.
Qed.

Lemma import_stopped_or_validated E excel_path db_path w :
  (∃ errs evs,
     import_excel_to_db E excel_path db_path w = ((false, errs), emit evs w)
     ∧ errs ≠ [] ∧ stopped_early E excel_path db_path errs evs)
  ∨ (∃ xls hdf adf, validated E w xls hdf adf).
Proof.
  unfold import_excel_to_db, validate_and_merge, stopped_early.
  destruct (excel E) as [e|xls] eqn:HE.
  { left. exists [ExcelReadOrParseError e], []. rewrite emit_nil.
    split_and!; [done..|]. left. eauto. }
  destruct (check_sheets xls []) as [|d ds] eqn:Hs.
  2:{ left. exists (d :: ds), [ExcelOpen; ExcelClose]. rewrite emit_emit.
      split_and!; [done..|]. right. left. split; [|done]. exists xls. by rewrite Hs. }
  destruct (parse_sheets xls) as [e|[hdf adf]] eqn:Hp.
  { left. exists [ExcelReadOrParseError e], [ExcelOpen; ExcelClose].
    rewrite emit_emit. split_and!; [done..|]. left. eauto. }
  destruct (excel_isfile E) eqn:Hx; simpl.
  2:{ left. exists [ExcelFileNotFound excel_path], [ExcelOpen; ExcelClose].
      rewrite emit_emit. split_and!; [done..|]. do 2 right. left. done. }
  destruct (db_isfile w) eqn:Hd; simpl.
  2:{ left. exists [DbFileNotFound db_path], [ExcelOpen; ExcelClose].
      rewrite emit_emit. split_and!; [done..|]. do 3 right. left. done. }
  rewrite !check_columns_eq. simpl.
  destruct (missing_columns (columns hdf) holes_cols Holes ++
            missing_columns (columns adf) assay_cols Assay) as [|d ds] eqn:Hc.
  2:{ left. exists (d :: ds), reader_trace. rewrite !emit_emit.
      split_and!; [done..|]. do 4 right. left. split; [|done].
      exists hdf, adf. by rewrite Hc. }
  apply app_eq_nil in Hc as [Hmh Hma].
  rewrite !check_nulls_eq. simpl.
  destruct (null_report hdf holes_cols Holes ++
            null_report adf assay_cols Assay) as [|d ds] eqn:Hn.
  2:{ left. exists (d :: ds), reader_trace. rewrite !emit_emit.
      split_and!; [done..|]. do 5 right. split; [|done].
      exists hdf, adf. by rewrite Hn. }
  right. exists xls, hdf, adf. apply app_eq_nil in Hn as [Hnh Hna].
  unfold null_report in Hnh, Hna.
  destruct (any_null hdf _) eqn:Hnh'; [done|].
  destruct (any_null adf _) eqn:Hna'; [done|].
  unfold validated. split_and!; eauto.
Qed.

(** The three ways the merge phase can end. *)
Lemma merge_outcome E hdf adf w :
  (∃ e, connect_error E = Some e
     ∧ merge E hdf adf [] w = ((false, [DbError e]), emit [SqliteConnect] w))
  ∨ (∃ errs, connect_error E = None
     ∧ merge E hdf adf [] w =
       ((false, errs),
        {| db_isfile := true; db := db w;
           log := log w ++ [SqliteConnect; SqliteRollback; SqliteClose] |})
     ∧ errs ≠ []
     ∧ ((∃ e, errs = [DbError e]) ∨ (∃ t, merge_rows E hdf adf [] (db w) = inr (errs, t))))
  ∨ (∃ t, connect_error E = None
     ∧ merge E hdf adf [] w =
       ((true, []),
        {| db_isfile := true; db := t;
           log := log w ++ [SqliteConnect; SqliteCommit; SqliteClose] |})
     ∧ merge_rows E hdf adf [] (db w) = inr ([], t)
     ∧ rejects E COMMIT t = None).
Proof.
  unfold merge. destruct (connect_error E) as [e|] eqn:Hc.
  { left. eauto. }
  right. simpl.
  destruct (merge_rows E hdf adf [] (db w)) as [e|[errs t]] eqn:Hm.
  { left. exists [DbError e]. unfold emit; simpl. rewrite <-app_assoc.
    split_and!; [done..|]. left. eauto. }
  destruct errs as [|d ds].
  2:{ left. exists (d :: ds). unfold emit; simpl. rewrite <-app_assoc.
      split_and!; [done..|]. right. eauto. }
  unfold execute. destruct (rejects E COMMIT t) as [e|] eqn:Hr.
  { left. exists [DbError e]. unfold emit; simpl. rewrite <-app_assoc.
    split_and!; [done..|]. left. eauto. }
  right. exists t. simpl. rewrite <-app_assoc. done.
Qed.

(** A call either leaves the store as it was, with a failure and at least
    one diagnostic, or succeeds and commits what the two passes built. *)
Lemma import_store_cases E excel_path db_path w :
  let r := import_excel_to_db E excel_path db_path w in
  (r.1.1 = false ∧ r.1.2 ≠ [] ∧ db r.2 = db w ∧ db_isfile r.2 = db_isfile w)
  ∨ (∃ xls hdf adf t,
       validated E w xls hdf adf ∧ r.1 = (true, []) ∧ db r.2 = t
       ∧ db_isfile r.2 = db_isfile w
       ∧ connect_error E = None
       ∧ merge_rows E hdf adf [] (db w) = inr ([], t)
       ∧ rejects E COMMIT t = None).
Proof.
  intros r. subst r.
  destruct (import_stopped_or_validated E excel_path db_path w)
    as [(errs & evs & -> & Hne & _)|(xls & hdf & adf & Hv)]; [by left|].
  rewrite (import_validated _ _ _ _ _ _ _ Hv).
  assert (Hd : db_isfile w = true) by (by destruct Hv as (_ & _ & _ & ? & _)).
  destruct (merge_outcome E hdf adf (emit reader_trace w))
    as [(e & Hc & ->)|[(errs & Hc & -> & Hne & _)|(t & Hc & -> & Hmr & Hr)]].
  - left. done.
  - left. simpl. done.
  - right. exists xls, hdf, adf, t. simpl. done.
Qed.

(** X1. Whatever the workbook and the store, a call returns either success
    with no diagnostic or failure with at least one. *)
Theorem result_is_success_or_diagnostics E excel_path db_path w :
  let r := import_excel_to_db E excel_path db_path w in
  r.1 = (true, []) ∨ (r.1.1 = false ∧ r.1.2 ≠ []).
Proof.
  intros r. destruct (import_store_cases E excel_path db_path w)
    as [(Hf & Hne & _)|(xls & hdf & adf & t & _ & Hs & _)]; [by right | by left].
Qed.

(** X2. A call that returns failure, for whatever reason (validation, an
    unknown hole, an exception of the store layer at any statement or at the
    commit), leaves the committed contents of the store exactly as they
    were, and no call creates the database file. *)
Theorem failure_leaves_the_store E excel_path db_path w :
  (import_excel_to_db E excel_path db_path w).1.1 = false →
  db (import_excel_to_db E excel_path db_path w).2 = db w
  ∧ db_isfile (import_excel_to_db E excel_path db_path w).2 = db_isfile w.
Proof.
  intros Hf. destruct (import_store_cases E excel_path db_path w)
    as [(_ & _ & Hdb & Hfile)|(xls & hdf & adf & t & _ & Hs & _)]; [done|].
  rewrite Hs in Hf. done.
Qed.

Lemma store_events_after_reader (evs : list event) :
  store_events (reader_trace ++ evs) = store_events evs.
Proof. done. Qed.

(** X3. The store connection is used in one of four ways only: not at all
    (the call stopped before the merge), a connect that raises, a connect
    followed by rollback and close (every failure behind the connect), or a
    connect followed by commit and close, the last exactly when the call
    succeeds. *)
Theorem connection_is_committed_or_rolled_back E excel_path db_path w :
  let r := import_excel_to_db E excel_path db_path w in
  ∃ evs, log r.2 = log w ++ evs ∧
    ( (r.1.1 = true ∧ store_events evs = [SqliteConnect; SqliteCommit; SqliteClose])
    ∨ (r.1.1 = false ∧ store_events evs = [SqliteConnect; SqliteRollback; SqliteClose])
    ∨ (r.1.1 = false ∧ store_events evs = [SqliteConnect] ∧ connect_error E ≠ None)
    ∨ (r.1.1 = false ∧ store_events evs = []) ).
Proof.
  intros r. subst r.
  destruct (import_stopped_or_validated E excel_path db_path w)
    as [(errs & evs & -> & Hne & Hstop)|(xls & hdf & adf & Hv)].
  { exists evs. split; [done|]. do 3 right. split; [done|].
    apply not_connected.
    destruct Hstop as [[_ [?|?]]|[[_ ?]|[[_ ?]|[[_ ?]|[[_ ?]|[_ ?]]]]]]; eauto. }
  rewrite (import_validated _ _ _ _ _ _ _ Hv).
  destruct (merge_outcome E hdf adf (emit reader_trace w))
    as [(e & Hc & ->)|[(errs & Hc & -> & Hne & _)|(t & Hc & -> & Hmr & Hr)]]; simpl.
  - exists (reader_trace ++ [SqliteConnect]). rewrite <-app_assoc. split; [done|].
    do 2 right. left. split_and!; [done..|congruence].
  - exists (reader_trace ++ [SqliteConnect; SqliteRollback; SqliteClose]).
    rewrite <-app_assoc. split; [done|]. right. left. done.
  - exists (reader_trace ++ [SqliteConnect; SqliteCommit; SqliteClose]).
    rewrite <-app_assoc. split; [done|]. left. done.
Qed.

(** The pass over the Assay sheet adds diagnostics of unknown holes only,
    one stored interval for each other row, and removes nothing. *)
Lemma assay_loop_grows E cols m rs : ∀ idx errs t errs' t',
  assay_loop E cols m idx (errs, t) rs = inr (errs', t') →
  holes t' = holes t
  ∧ (∃ more, errs' = errs ++ more
       ∧ Forall (fun d => ∃ k n, d = UnknownHole k n) more
       ∧ ∃ new, assay t' = assay t ++ new
           ∧ (length new + length more = length rs)%nat).
Proof.
  induction rs as [|row rs IH]; intros idx errs t errs' t'.
  - simpl. intros [= <- <-]. split; [done|]. exists []. rewrite app_nil_r.
    split_and!; [done..|]. exists []. by rewrite app_nil_r.
  - simpl. intros ([errs1 t1] & Hs & Hl)%bind_exn_inr.
    apply IH in Hl as (Hh & more & -> & Hkinds & new & Ha & Hlen).
    apply assay_step_inr in Hs as (k & _ & [(_ & -> & ->)|(id & fr & to & au & _ & -> & _ & ->)]).
    + split; [done|]. exists (UnknownHole k (idx + 2) :: more).
      rewrite <-app_assoc. split_and!; [done| |].
      * apply Forall_cons. split; [eauto|done].
      * exists new. split; [done|]. simpl. lia.
    + split; [done|]. exists more. split_and!; [done..|].
      eexists (_ :: new). rewrite Ha. simpl. rewrite <-app_assoc. split; [done|].
      simpl. lia.
Qed.

(** The pass over the Holes sheet keeps the identity and the name of every
    stored hole, in place, and leaves the assay table alone. *)
Lemma holes_loop_grows E cols rs : ∀ m t m' t',
  holes_loop E cols (m, t) rs = inr (m', t') →
  fetchall t `prefix_of` fetchall t' ∧ assay t' = assay t.
Proof.
  induction rs as [|row rs IH]; intros m t m' t'.
  - simpl. by intros [= <- <-].
  - intros (m1 & t1 & Hs & Hl)%holes_loop_cons_inr.
    apply IH in Hl as [Hpre Ha].
    apply hole_step_inr in Hs as (f & _ & Hu).
    apply upsert_hole_inr in Hu as [(id & _ & _ & _ & ->)|(_ & _ & _ & ->)].
    + rewrite update_fetchall in Hpre. done.
    + rewrite fetchall_insert in Hpre. split; [|done].
      by eapply prefix_app_l.
Qed.

(** X4. The diagnostics of one call are of one kind: a single read or parse
    error, a single file-not-found, a single store error, or only missing
    sheets, only missing columns, only null reports, or only unknown holes.
    The messages of lines 75 and 93, of the second reading of the workbook,
    are never returned (the workbook being the same at both readings). *)
Theorem diagnostics_are_of_one_kind E excel_path db_path w :
  let errs := (import_excel_to_db E excel_path db_path w).1.2 in
  ( (∃ e, errs = [ExcelReadOrParseError e])
  ∨ errs = [ExcelFileNotFound excel_path]
  ∨ errs = [DbFileNotFound db_path]
  ∨ (∃ e, errs = [DbError e])
  ∨ Forall (fun d => ∃ sheet, d = MissingSheet sheet) errs
  ∨ Forall (fun d => ∃ col sheet, d = MissingColumn col sheet) errs
  ∨ Forall (fun d => ∃ sheet, d = NullValues sheet) errs
  ∨ Forall (fun d => ∃ k n, d = UnknownHole k n) errs )
  ∧ (∀ d1 d2, d1 ∈ errs → d2 ∈ errs → kind_of d1 = kind_of d2)
  ∧ (∀ e, (ExcelReadError e ∉ errs) ∧ (SheetParseError e ∉ errs)).
Proof.
  intros errs.
  assert (Hforms :
    (∃ e, errs = [ExcelReadOrParseError e])
    ∨ errs = [ExcelFileNotFound excel_path]
    ∨ errs = [DbFileNotFound db_path]
    ∨ (∃ e, errs = [DbError e])
    ∨ Forall (fun d => ∃ sheet, d = MissingSheet sheet) errs
    ∨ Forall (fun d => ∃ col sheet, d = MissingColumn col sheet) errs
    ∨ Forall (fun d => ∃ sheet, d = NullValues sheet) errs
    ∨ Forall (fun d => ∃ k n, d = UnknownHole k n) errs).
  { subst errs.
    destruct (import_stopped_or_validated E excel_path db_path w)
      as [(errs & evs & -> & Hne & Hstop)|(xls & hdf & adf & Hv)].
    - simpl.
      destruct Hstop as [[? _]|[[(xls & _ & ->) _]|[[-> _]|[[-> _]|[[(h & a & ->) _]|[(h & a & ->) _]]]]]].
      + by left.
      + do 4 right. left. rewrite check_sheets_eq. simpl.
        repeat case_decide; repeat constructor; eauto.
      + right. by left.
      + do 2 right. by left.
      + do 5 right. left. apply Forall_forall. intros d Hd.
        apply elem_of_app in Hd as [Hd|Hd];
          apply elem_of_missing_columns in Hd as (c & -> & _); eauto.
      + do 6 right. left. unfold null_report.
        destruct (any_null h _), (any_null a _); repeat constructor; eauto.
    - rewrite (import_validated _ _ _ _ _ _ _ Hv).
      destruct (merge_outcome E hdf adf (emit reader_trace w))
        as [(e & Hc & ->)|[(errs & Hc & -> & Hne & Hshape)|(t & Hc & -> & Hmr & Hr)]]; simpl.
      + do 3 right. left. eauto.
      + destruct Hshape as [?|(t & Hmr)]; [do 3 right; by left|].
        do 7 right. apply merge_rows_inr in Hmr as (m' & t' & _ & Ha).
        apply assay_loop_grows in Ha as (_ & more & -> & Hk & _). done.
      + do 7 right. constructor. }
  split; [exact Hforms|].
  assert (Hall : ∀ (P : diagnostic (val:=val) → Prop) K,
            (∀ d, P d → kind_of d = K) → Forall P errs →
            ∀ d1 d2, d1 ∈ errs → d2 ∈ errs → kind_of d1 = kind_of d2).
  { intros P K HP Hf d1 d2 H1 H2. rewrite Forall_forall in Hf.
    rewrite (HP d1), (HP d2); auto. }
  assert (Hone : ∀ d, errs = [d] →
            ∀ d1 d2, d1 ∈ errs → d2 ∈ errs → kind_of d1 = kind_of d2).
  { intros d -> d1 d2 ->%list_elem_of_singleton ->%list_elem_of_singleton. done. }
  split.
  - destruct Hforms as [[e He]|[He|[He|[[e He]|[Hf|[Hf|[Hf|Hf]]]]]]];
      try (by eapply Hone).
    + refine (Hall _ SheetMissing _ Hf). by intros d [? ->].
    + refine (Hall _ ColumnMissing _ Hf). by intros d (? & ? & ->).
    + refine (Hall _ ValuesMissing _ Hf). by intros d [? ->].
    + refine (Hall _ HoleUnknown _ Hf). by intros d (? & ? & ->).
  - intros e.
    assert (Hno : ∀ d, d ∈ errs → d ≠ ExcelReadError e ∧ d ≠ SheetParseError e).
    { intros d Hd.
      destruct Hforms as [[e' He]|[He|[He|[[e' He]|[Hf|[Hf|[Hf|Hf]]]]]]];
        try (rewrite He in Hd; apply list_elem_of_singleton in Hd as ->; done);
        rewrite Forall_forall in Hf; specialize (Hf d Hd).
      - by destruct Hf as [? ->].
      - by destruct Hf as (? & ? & ->).
      - by destruct Hf as [? ->].
      - by destruct Hf as (? & ? & ->). }
    split; intros Hin; by destruct (Hno _ Hin).
Qed.

(** X5. No call takes anything away from the store: the identities and
    names of the holes that were stored are still there, in place, and so
    is every assay row; the tables only grow at their end. *)
Theorem nothing_is_deleted E excel_path db_path w :
  let r := import_excel_to_db E excel_path db_path w in
  fetchall (db w) `prefix_of` fetchall (db r.2)
  ∧ assay (db w) `prefix_of` assay (db r.2).
Proof.
  intros r.
  destruct (import_store_cases E excel_path db_path w)
    as [(_ & _ & Hdb & _)|(xls & hdf & adf & t & _ & _ & Hdb & _ & _ & Hmr & _)];
    fold r in Hdb; rewrite Hdb; [done|].
  apply merge_rows_inr in Hmr as (m' & t' & Hl & Ha).
  apply holes_loop_grows in Hl as [Hpre Hassay].
  apply assay_loop_grows in Ha as (Hh & more & _ & _ & new & Hnew & _).
  split.
  - by rewrite (fetchall_holes_eq _ _ Hh).
  - rewrite Hnew, Hassay. by exists new.
Qed.

(** ** The keys, whatever the store answers and keeps *)

Lemma load_names_resolves E t : resolves E (load_names (fetchall t)) t.
Proof.
  intros k id Hk. apply load_names_Some, elem_of_fetchall in Hk as (h & Hh & Hid & Hn).
  exists h. eauto.
Qed.

Lemma resolves_id E m t k hole_id :
  resolves E m t → m !! k = Some hole_id → hole_id ∈ map h_id (holes t).
Proof.
  intros Hres Hk. destruct (Hres k hole_id Hk) as (h & Hh & <- & _).
  by apply list_elem_of_fmap_2.
Qed.

Lemma update_elem_of t f hole_id h :
  h ∈ holes t →
  ∃ h', h' ∈ holes (apply_stmt (update_of f hole_id) t)
        ∧ h_id h' = h_id h ∧ h_name h' = h_name h.
Proof.
  intros Hh. simpl.
  exists (if decide (h_id h = hole_id)
          then set_attrs (f_x f) (f_y f) (f_z f) (f_lenght f) (f_level f)
                 (f_issue_date f) h
          else h).
  split; [|by case_decide].
  apply list_elem_of_fmap. exists h. done.
Qed.

Lemma hole_step_keys E cols m t row m' t' :
  hole_step E cols (m, t) row = inr (m', t') →
  keys_ok t → resolves E m t →
  keys_ok t' ∧ resolves E m' t' ∧ is_Some (m' !! field cols row col_IMYA).
Proof.
  intros (f & Hf & Hu)%hole_step_inr [Hids Hfk] Hres.
  rewrite <-(read_hole_name_field _ _ _ Hf). rewrite Forall_forall in Hfk.
  apply upsert_hole_inr in Hu as [(id & Hm & _ & -> & ->)|(Hm & _ & -> & ->)].
  - split_and!; [split| |by eauto].
    + by rewrite update_ids.
    + apply Forall_forall. intros a Ha. rewrite update_ids. by apply Hfk.
    + intros k id' Hk. destruct (Hres k id' Hk) as (h & Hh & Hid & Hn).
      destruct (update_elem_of t (kept_fields E f) id h Hh) as (h' & Hh' & Hid' & Hn').
      exists h'. rewrite Hid', Hn'. done.
  - split_and!; [split| |by rewrite lookup_insert_eq; eauto].
    + rewrite apply_insert_holes, map_app. apply NoDup_app. split_and!; [done| |].
      * intros id Hin [->|?%elem_of_nil]%elem_of_cons; [|done].
        by apply (next_id_fresh (map h_id (holes t))).
      * apply NoDup_singleton.
    + apply Forall_forall. intros a Ha.
      rewrite apply_insert_holes, map_app, elem_of_app. left. by apply Hfk.
    + intros k id' Hk. rewrite apply_insert_holes.
      destruct (decide (f_name f = k)) as [<-|Hne].
      * rewrite lookup_insert_eq in Hk. injection Hk as <-.
        exists (new_hole (next_id (map h_id (holes t))) (kept_fields E f)).
        split_and!; [|done|by right].
        apply elem_of_app. right. apply list_elem_of_here.
      * rewrite lookup_insert_ne in Hk by done.
        destruct (Hres k id' Hk) as (h & Hh & Hid & Hn).
        exists h. split_and!; [|done..]. apply elem_of_app. by left.
Qed.

Lemma holes_loop_keys E cols rs : ∀ m t m' t',
  holes_loop E cols (m, t) rs = inr (m', t') →
  keys_ok t → resolves E m t →
  keys_ok t' ∧ resolves E m' t'
  ∧ Forall (fun row => is_Some (m' !! field cols row col_IMYA)) rs.
Proof.
  induction rs as [|row rs IH]; intros m t m' t'.
  - simpl. by intros [= <- <-].
  - intros (m1 & t1 & Hs & Hl)%holes_loop_cons_inr Hok Hres.
    destruct (hole_step_keys _ _ _ _ _ _ _ Hs Hok Hres) as (Hok1 & Hres1 & [id Hid]).
    destruct (IH _ _ _ _ Hl Hok1 Hres1) as (Hok' & Hres' & Hall).
    split_and!; [done..|]. apply Forall_cons. split; [|done].
    exists id. eapply holes_loop_keeps; [exact Hl|exact Hid].
Qed.

Lemma assay_loop_keys E cols m rs : ∀ idx errs t errs' t',
  assay_loop E cols m idx (errs, t) rs = inr (errs', t') →
  keys_ok t → resolves E m t → keys_ok t'.
Proof.
  induction rs as [|row rs IH]; intros idx errs t errs' t'.
  - simpl. by intros [= <- <-].
  - simpl. intros ([errs1 t1] & Hs & Hl)%bind_exn_inr Hok Hres.
    apply assay_step_inr in Hs
      as (k & _ & [(_ & -> & ->)|(id & fr & to & au & Hm & -> & _ & ->)]).
    + by eapply IH.
    + eapply IH; [exact Hl| |done].
      destruct Hok as [Hids Hfk]. split; [done|]. simpl.
      apply Forall_app. split; [done|]. apply Forall_singleton. simpl.
      by eapply resolves_id.
Qed.

(** X6. The key constraints of the store (unique hole identities, every
    interval referring to a stored hole) hold after any call if they held
    before, successful or not, whatever the store layer raises and however
    it keeps the values. *)
Theorem key_constraints_are_kept E excel_path db_path w :
  keys_ok (db w) →
  keys_ok (db (import_excel_to_db E excel_path db_path w).2).
Proof.
  intros Hok.
  destruct (import_store_cases E excel_path db_path w)
    as [(_ & _ & -> & _)|(xls & hdf & adf & t & _ & _ & -> & _ & _ & Hmr & _)]; [done|].
  apply merge_rows_inr in Hmr as (m' & t' & Hl & Ha).
  destruct (holes_loop_keys _ _ _ _ _ _ _ Hl Hok (load_names_resolves E _))
    as (Hok' & Hres' & _).
  by eapply assay_loop_keys.
Qed.

(** ** The pass over the Holes sheet, row by row *)

Lemma overwrite_update hole_id f t :
  overwrite hole_id f t = apply_stmt (update_of f hole_id) t.
Proof. done. Qed.

Lemma upsert_hole_upsert_row E cols m t row m' t' :
  upsert_hole E (m, t) (hole_of_row cols row) = inr (m', t') →
  (m', t') = upsert_row E cols (m, t) row.
Proof.
  unfold upsert_row. cbn [fst snd].
  change (field cols row col_IMYA) with (f_name (hole_of_row cols row)).
  intros [(id & Hm & _ & -> & ->)|(Hm & _ & -> & ->)]%upsert_hole_inr; rewrite Hm; done.
Qed.

(** Whenever the loop over the Holes sheet runs to its end, it has done
    to the dictionary and the tables what the step of the spec does, row
    after row in the order of the sheet. *)
Lemma holes_loop_is_fold E cols rs : ∀ s s',
  holes_loop E cols s rs = inr s' → s' = foldl (upsert_row E cols) s rs.
Proof.
  induction rs as [|row rs IH]; intros [m t] [m' t'].
  - simpl. by intros [= <- <-].
  - intros (m1 & t1 & Hs & Hl)%holes_loop_cons_inr.
    apply hole_step_inr in Hs as (f & Hf & Hu).
    apply read_hole_inr_unique in Hf as Huniq.
    rewrite (read_hole_unique _ _ Huniq) in Hf. injection Hf as <-.
    apply upsert_hole_upsert_row in Hu. simpl. rewrite <-Hu. by apply IH.
Qed.

(** Under a header that holds each label once, with a store that accepts
    the statements, it does run to its end. *)
Lemma holes_loop_runs E cols rs : ∀ s,
  unique_labels cols (keys holes_cols) →
  (∀ st t, rejects E st t = None) →
  holes_loop E cols s rs = inr (foldl (upsert_row E cols) s rs).
Proof.
  induction rs as [|row rs IH]; intros [m t] Hu Hr; [done|].
  simpl. rewrite hole_step_read, read_hole_unique by done. cbn [bind_exn].
  destruct (upsert_hole E (m, t) (hole_of_row cols row)) as [e|[m1 t1]] eqn:Hup.
  - exfalso. revert Hup. unfold upsert_hole, execute. cbn [fst snd].
    destruct (m !! _); rewrite Hr; done.
  - cbn [bind_exn]. rewrite <-(upsert_hole_upsert_row _ _ _ _ _ _ _ Hup). by apply IH.
Qed.

Lemma upsert_row_keeps E cols s row k hole_id :
  s.1 !! k = Some hole_id → (upsert_row E cols s row).1 !! k = Some hole_id.
Proof.
  intros Hk. unfold upsert_row.
  destruct (s.1 !! field cols row col_IMYA) as [id|] eqn:Hm; [done|]. simpl.
  rewrite lookup_insert_ne; [done|]. congruence.
Qed.

Lemma pass_keeps E cols rs : ∀ s k hole_id,
  s.1 !! k = Some hole_id → (foldl (upsert_row E cols) s rs).1 !! k = Some hole_id.
Proof.
  induction rs as [|row rs IH]; intros s k id Hk; [done|].
  simpl. apply IH. by apply upsert_row_keeps.
Qed.

Lemma upsert_row_ids E cols s row hole_id :
  hole_id ∈ map h_id (holes s.2) →
  hole_id ∈ map h_id (holes (upsert_row E cols s row).2).
Proof.
  intros Hin. unfold upsert_row.
  destruct (s.1 !! field cols row col_IMYA) as [id|]; cbn [snd].
  - by rewrite overwrite_update, update_ids.
  - cbn [holes]. rewrite map_app, elem_of_app. by left.
Qed.

Lemma pass_ids E cols rs : ∀ s hole_id,
  hole_id ∈ map h_id (holes s.2) →
  hole_id ∈ map h_id (holes (foldl (upsert_row E cols) s rs).2).
Proof.
  induction rs as [|row rs IH]; intros s id Hin; [done|].
  simpl. apply IH. by apply upsert_row_ids.
Qed.

(** The dictionary binds names to identities of stored holes. *)
Lemma pass_bound E cols rs : ∀ s,
  (∀ k hole_id, s.1 !! k = Some hole_id → hole_id ∈ map h_id (holes s.2)) →
  ∀ k hole_id, (foldl (upsert_row E cols) s rs).1 !! k = Some hole_id →
    hole_id ∈ map h_id (holes (foldl (upsert_row E cols) s rs).2).
Proof.
  induction rs as [|row rs IH]; intros s Hb; [done|].
  simpl. apply IH. intros k id. unfold upsert_row.
  destruct (s.1 !! field cols row col_IMYA) as [id0|] eqn:Hm; cbn [fst snd].
  - intros Hk. rewrite overwrite_update, update_ids. by eapply Hb.
  - cbn [holes]. rewrite map_app, elem_of_app.
    destruct (decide (field cols row col_IMYA = k)) as [<-|Hne].
    + rewrite lookup_insert_eq. intros [= <-]. right. apply list_elem_of_here.
    + rewrite lookup_insert_ne by done. intros Hk. left. by eapply Hb.
Qed.

(** C3. The pass over the Holes sheet is the step of the spec applied to
    the rows one after the other, in the order of the sheet, starting from
    the dictionary of the stored holes: whenever the loop runs to its end
    it has computed exactly that, and it does run to its end, and hands
    dictionary and tables over to the pass over the Assay sheet, under a
    header that holds each label once and a store that accepts the
    statements. When a row is reached whose name the dictionary holds, all
    six attributes of the record with that identity are overwritten with
    the values of the row, as the store keeps them, and nothing else
    changes, the dictionary neither; when the name is new, a record with a
    fresh identity is appended and the name bound to it at once. Either
    way the name stays bound to that identity through the rest of the
    sheet, so that a later row of that name updates the same record, and
    an assay row of that name is inserted under that identity. *)
Theorem holes_pass_updates_or_inserts E hdf adf t0 :
  let cols := columns hdf in
  let s0 := (load_names (fetchall t0), t0) in
  let pass := foldl (upsert_row E cols) s0 in
  (∀ s', holes_loop E cols s0 (rows hdf) = inr s' → s' = pass (rows hdf))
  ∧ (unique_labels cols (keys holes_cols) → (∀ st t, rejects E st t = None) →
       holes_loop E cols s0 (rows hdf) = inr (pass (rows hdf))
       ∧ merge_rows E hdf adf [] t0 =
         assay_loop E (columns adf) (pass (rows hdf)).1 0
           ([], (pass (rows hdf)).2) (rows adf))
  ∧ (∀ rs1 row rs2, rows hdf = rs1 ++ row :: rs2 →
       let k := field cols row col_IMYA in
       let f := kept_fields E (hole_of_row cols row) in
       let s := pass rs1 in
       let s' := pass (rs1 ++ [row]) in
       (∀ hole_id, s.1 !! k = Some hole_id →
          s'.1 = s.1 ∧ fetchall s'.2 = fetchall s.2 ∧ assay s'.2 = assay s.2
          ∧ (∃ h, h ∈ holes s'.2 ∧ h_id h = hole_id ∧ attrs_of h = attrs_of_fields f)
          ∧ ∀ (i : nat) h, holes s.2 !! i = Some h →
              ∃ h', holes s'.2 !! i = Some h' ∧
                if decide (h_id h = hole_id)
                then attrs_of h' = attrs_of_fields f
                     ∧ h_id h' = h_id h ∧ h_name h' = h_name h
                else h' = h)
       ∧ (s.1 !! k = None →
          ∃ hole_id, (hole_id ∉ map h_id (holes s.2))
            ∧ s'.1 = <[k := hole_id]> s.1
            ∧ holes s'.2 = holes s.2 ++ [new_hole hole_id f]
            ∧ assay s'.2 = assay s.2)
       ∧ ∃ hole_id,
           (∀ rs2', rs2' `prefix_of` rs2 →
              (pass (rs1 ++ row :: rs2')).1 !! k = Some hole_id)
           ∧ hole_id ∈ map h_id (holes (pass (rows hdf)).2)
           ∧ (unique_labels (columns adf) (keys assay_cols) →
              ∀ arow idx errs t,
                field (columns adf) arow col_OBJEKT = k →
                rejects E (INSERT_assay hole_id (field (columns adf) arow col_OT)
                             (field (columns adf) arow col_DO)
                             (field (columns adf) arow col_Au)) t = None →
                assay_step E (columns adf) (pass (rows hdf)).1 idx (errs, t) arow =
                inr (errs, {| holes := holes t;
                              assay := assay t ++
                                [new_assay E t hole_id (columns adf) arow] |}))).
Proof.
  intros cols s0 pass.
  assert (Hb0 : ∀ k hole_id, s0.1 !! k = Some hole_id → hole_id ∈ map h_id (holes s0.2)).
  { intros k id Hk. eapply resolves_id; [apply (load_names_resolves E)|exact Hk]. }
  split_and!.
  - intros s' Hl. by apply holes_loop_is_fold.
  - intros Hu Hr. split; [by apply holes_loop_runs|].
    unfold merge_rows, execute. rewrite !Hr. cbn [bind_exn apply_stmt bind].
    rewrite !Hr. cbn [bind_exn apply_stmt bind].
    fold s0. fold cols. rewrite (holes_loop_runs E cols (rows hdf) s0 Hu Hr). done.
  - intros rs1 row rs2 Hrows k f s s'.
    assert (Hs' : s' = upsert_row E cols s row).
    { subst s' s pass. by rewrite foldl_app. }
    assert (Hbs : ∀ k hole_id, s.1 !! k = Some hole_id → hole_id ∈ map h_id (holes s.2)).
    { apply pass_bound, Hb0. }
    split_and!.
    + intros hole_id Hk. rewrite Hs'. unfold upsert_row. fold k. rewrite Hk. cbn [fst snd].
      fold f. rewrite overwrite_update.
      split_and!; [done|apply update_fetchall|done| |].
      * apply Hbs in Hk. apply list_elem_of_fmap in Hk as (h & Hid & Hh).
        exists (set_attrs (f_x f) (f_y f) (f_z f) (f_lenght f) (f_level f)
                  (f_issue_date f) h).
        split_and!; [|done..]. simpl. apply list_elem_of_fmap. exists h.
        by rewrite decide_True.
      * intros i h Hi. eexists. split; [by apply update_lookup|].
        case_decide; done.
    + intros Hk. exists (next_id (map h_id (holes s.2))).
      rewrite Hs'. unfold upsert_row. fold k. rewrite Hk. cbn [fst snd].
      split_and!; [apply next_id_fresh|done..].
    + assert (Hbound : ∃ hole_id, s'.1 !! k = Some hole_id) .
      { rewrite Hs'. unfold upsert_row. fold k.
        destruct (s.1 !! k) as [id|] eqn:Hk; cbn [fst]; [by eauto|].
        rewrite lookup_insert_eq. eauto. }
      destruct Hbound as [hole_id Hid]. exists hole_id.
      assert (Hlater : ∀ rs2', (pass (rs1 ++ row :: rs2')).1 !! k = Some hole_id).
      { intros rs2'. subst pass. cbn beta.
        replace (rs1 ++ row :: rs2') with ((rs1 ++ [row]) ++ rs2')
          by (by rewrite <-app_assoc).
        rewrite foldl_app. by apply pass_keeps. }
      assert (Hfinal : (pass (rows hdf)).1 !! k = Some hole_id).
      { rewrite Hrows. apply Hlater. }
      split_and!.
      * intros rs2' _. apply Hlater.
      * eapply (pass_bound E cols (rows hdf) s0 Hb0). exact Hfinal.
      * intros Hua arow idx errs t Hname Hr.
        rewrite assay_step_unique by done. rewrite Hname, Hfinal.
        unfold execute. rewrite Hr. done.
Qed.

(** ** The two passes by name, for names kept as written *)

Lemma read_hole_inr_fields cols row f :
  read_hole cols row = inr f → f = hole_of_row cols row.
Proof.
  intros Hr. pose proof (read_hole_inr_unique _ _ _ Hr) as Hu.
  rewrite (read_hole_unique _ row Hu) in Hr. congruence.
Qed.

Lemma holes_loop_by_name_inr E cols rs : ∀ m t m' t',
  holes_loop E cols (m, t) rs = inr (m', t') →
  names_kept E cols rs → indexed m t →
  indexed m' t'
  ∧ hole_view t' = record_rows E cols rs (hole_view t)
  ∧ assay_view t' = assay_view t.
Proof.
  induction rs as [|row rs IH]; intros m t m' t'.
  - simpl. by intros [= <- <-].
  - intros (m1 & t1 & Hs & Hl)%holes_loop_cons_inr [Hk Hkept]%Forall_cons_1 Hidx.
    apply hole_step_inr in Hs as (f & Hf & Hu).
    apply read_hole_inr_fields in Hf as ->.
    set (f := hole_of_row cols row) in *.
    assert (Hname : f_name (kept_fields E f) = f_name f) by exact Hk.
    rewrite record_rows_cons. fold f.
    apply upsert_hole_inr in Hu as [(id & Hm & _ & -> & ->)|(Hm & _ & -> & ->)].
    + assert (Hm' : m !! f_name (kept_fields E f) = Some id) by (by rewrite Hname).
      destruct (update_by_name _ _ _ _ Hidx Hm') as (Hidx' & Hv & Ha).
      rewrite Hname in Hv.
      destruct (IH _ _ _ _ Hl Hkept Hidx') as (? & Hv' & Ha').
      rewrite Hv', Ha', Hv, Ha. done.
    + assert (Hm' : m !! f_name (kept_fields E f) = None) by (by rewrite Hname).
      destruct (insert_by_name _ _ _ Hidx Hm') as (Hidx' & Hv & Ha).
      rewrite Hname in Hv, Hidx'.
      destruct (IH _ _ _ _ Hl Hkept Hidx') as (? & Hv' & Ha').
      rewrite Hv', Ha', Hv, Ha. done.
Qed.

Lemma assay_step_inr_fields E cols m idx errs t row errs' t' :
  assay_step E cols m idx (errs, t) row = inr (errs', t') →
  (m !! field cols row col_OBJEKT = None
   ∧ errs' = errs ++ [UnknownHole (field cols row col_OBJEKT) (idx + 2)] ∧ t' = t)
  ∨ (∃ hole_id, m !! field cols row col_OBJEKT = Some hole_id ∧ errs' = errs
       ∧ t' = apply_stmt (INSERT_assay hole_id (kept E Assay (field cols row col_OT))
                            (kept E Assay (field cols row col_DO))
                            (kept E Assay (field cols row col_Au))) t).
Proof.
  unfold assay_step. intros Hs.
  apply bind_exn_inr in Hs as (o1 & H1 & Hs). apply bind_exn_inr in Hs as (o2 & H2 & Hs).
  apply bind_exn_inr in Hs as (o3 & H3 & Hs). apply bind_exn_inr in Hs as (o4 & H4 & Hs).
  apply bind_exn_inr in Hs as (k & Hk & Hs).
  destruct o1 as [c|?]; simpl in Hk; [|done]. injection Hk as ->.
  apply getitem_scalar_field in H1 as ->. cbn [fst snd] in Hs.
  destruct (m !! field cols row col_OBJEKT) as [hole_id|] eqn:Hm.
  - right. apply bind_exn_inr in Hs as (fr & Hfr & Hs).
    apply bind_exn_inr in Hs as (to & Hto & Hs).
    apply bind_exn_inr in Hs as (au & Hau & Hs).
    apply bind_exn_inr in Hs as (t1 & Hx & Hs). injection Hs as <- <-.
    destruct o2 as [c2|?], o3 as [c3|?], o4 as [c4|?]; simpl in *; try done.
    injection Hfr as ->. injection Hto as ->. injection Hau as ->.
    apply getitem_scalar_field in H2 as ->. apply getitem_scalar_field in H3 as ->.
    apply getitem_scalar_field in H4 as ->.
    unfold execute in Hx. destruct (rejects E _ t); [done|]. injection Hx as <-.
    exists hole_id. done.
  - left. injection Hs as <- <-. done.
Qed.

Lemma named_intervals_cons E cols m row rs :
  named_intervals E cols m (row :: rs) =
  match m !! field cols row col_OBJEKT with
  | Some _ => [(Some (field cols row col_OBJEKT), kept E Assay (field cols row col_OT),
                kept E Assay (field cols row col_DO), kept E Assay (field cols row col_Au))]
  | None => []
  end ++ named_intervals E cols m rs.
Proof.
  unfold named_intervals. rewrite filter_cons.
  destruct (m !! field cols row col_OBJEKT) as [id|] eqn:Hm.
  - rewrite decide_True by eauto. done.
  - rewrite decide_False; [done|]. by intros [? ?].
Qed.

Lemma assay_loop_by_name_inr E cols m rs : ∀ idx errs t errs' t',
  assay_loop E cols m idx (errs, t) rs = inr (errs', t') → indexed m t →
  indexed m t'
  ∧ hole_view t' = hole_view t
  ∧ assay_view t' = assay_view t ++ named_intervals E cols m rs
  ∧ errs' = errs ++ unknown_holes cols m idx rs.
Proof.
  induction rs as [|row rs IH]; intros idx errs t errs' t'.
  - simpl. intros [= <- <-] Hidx. unfold named_intervals, unknown_holes. simpl.
    by rewrite !app_nil_r.
  - simpl. intros ([errs1 t1] & Hs & Hl)%bind_exn_inr Hidx.
    rewrite named_intervals_cons, unknown_holes_cons.
    apply assay_step_inr_fields in Hs as [(Hm & -> & ->)|(id & Hm & -> & ->)]; rewrite Hm.
    + destruct (IH _ _ _ _ _ Hl Hidx) as (? & ? & Ha & ->).
      rewrite <-app_assoc. done.
    + destruct (insert_assay_by_name m t _ id (kept E Assay (field cols row col_OT))
                  (kept E Assay (field cols row col_DO))
                  (kept E Assay (field cols row col_Au)) Hidx Hm)
        as (Hidx' & Hv & Ha).
      destruct (IH _ _ _ _ _ Hl Hidx') as (? & Hv' & Ha' & ->).
      rewrite Hv', Ha', Hv, Ha, <-app_assoc. done.
Qed.

Lemma named_intervals_all E cols m idx rs :
  unknown_holes (val:=val) cols m idx rs = [] →
  named_intervals E cols m rs = sheet_intervals E cols rs.
Proof.
  revert idx. induction rs as [|row rs IH]; intros idx; [done|].
  rewrite unknown_holes_cons, named_intervals_cons.
  destruct (m !! field cols row col_OBJEKT); [|done].
  simpl. intros Hu. by rewrite (IH _ Hu).
Qed.

Lemma record_rows_other E cols rs (v : gmap (option val) attrs) k :
  k ∉ map (fun row => field cols row col_IMYA) rs →
  record_rows E cols rs v !! k = v !! k.
Proof.
  revert v. induction rs as [|row rs IH]; intros v Hk; [done|].
  rewrite record_rows_cons. simpl in Hk. apply not_elem_of_cons in Hk as [Hne Hk].
  rewrite IH by done. by rewrite lookup_insert_ne.
Qed.

(** What a successful call has run: both passes to their end, without a
    diagnostic, and a commit. *)
Lemma import_success_inv E excel_path db_path w xls hdf adf :
  excel E = inr xls → parse_sheets xls = inr (hdf, adf) →
  (import_excel_to_db E excel_path db_path w).1.1 = true →
  ∃ m' t',
    holes_loop E (columns hdf) (load_names (fetchall (db w)), db w) (rows hdf)
      = inr (m', t')
    ∧ assay_loop E (columns adf) m' 0 ([], t') (rows adf)
      = inr ([], db (import_excel_to_db E excel_path db_path w).2).
Proof.
  intros HE Hp Hs.
  destruct (import_store_cases E excel_path db_path w)
    as [(Hf & _)|(xls' & hdf' & adf' & t & Hv & _ & Hdb & _ & _ & Hmr & _)];
    [congruence|].
  assert (hdf' = hdf ∧ adf' = adf) as [-> ->].
  { destruct Hv as (HE' & Hp' & _). split; congruence. }
  rewrite Hdb. by apply merge_rows_inr.
Qed.

(** A successful call on a store that satisfies its schema, for a sheet
    whose names are kept as written, seen by name. *)
Lemma import_success_views E excel_path db_path w xls hdf adf :
  excel E = inr xls → parse_sheets xls = inr (hdf, adf) →
  store_ok (db w) → names_kept E (columns hdf) (rows hdf) →
  (import_excel_to_db E excel_path db_path w).1.1 = true →
  let t := db (import_excel_to_db E excel_path db_path w).2 in
  store_ok t
  ∧ hole_view t = record_rows E (columns hdf) (rows hdf) (hole_view (db w))
  ∧ assay_view t = assay_view (db w) ++ sheet_intervals E (columns adf) (rows adf).
Proof.
  intros HE Hp Hok Hkept Hs t.
  destruct (import_success_inv E excel_path db_path w xls hdf adf HE Hp Hs)
    as (m' & t' & Hl & Ha). fold t in Ha.
  apply holes_loop_by_name_inr in Hl as (Hidx & Hv & Hav);
    [|done|by apply load_names_indexed].
  apply assay_loop_by_name_inr in Ha as ([Hok' _] & Hv' & Hav' & Herrs); [|done].
  split_and!; [done| |].
  - by rewrite Hv', Hv.
  - rewrite Hav', Hav. f_equal. eapply named_intervals_all. symmetry. exact Herrs.
Qed.

(** X7. What a successful call has done to a store that satisfies its
    schema, for a sheet whose hole names the store keeps as written, seen
    by name: the store still satisfies its schema; under every hole name of
    the Holes sheet stand the values, as the store keeps them, of the last
    row carrying it; every other hole has the attributes it had; and the
    intervals of the Assay sheet, one per row and in row order, follow the
    intervals that were stored, each under the hole name its row carries. *)
Theorem successful_import_by_name E excel_path db_path w xls hdf adf :
  excel E = inr xls → parse_sheets xls = inr (hdf, adf) →
  store_ok (db w) → names_kept E (columns hdf) (rows hdf) →
  (import_excel_to_db E excel_path db_path w).1.1 = true →
  let t := db (import_excel_to_db E excel_path db_path w).2 in
  store_ok t
  ∧ hole_view t = record_rows E (columns hdf) (rows hdf) (hole_view (db w))
  ∧ (∀ k, hole_view t !! k =
          match last_named (columns hdf) k (rows hdf) with
          | Some row =>
              Some (attrs_of_fields (kept_fields E (hole_of_row (columns hdf) row)))
          | None => hole_view (db w) !! k
          end)
  ∧ assay_view t = assay_view (db w) ++ sheet_intervals E (columns adf) (rows adf).
Proof.
  intros HE Hp Hok Hkept Hs t.
  destruct (import_success_views E excel_path db_path w xls hdf adf HE Hp Hok Hkept Hs)
    as (Hok' & Hview & Hav). fold t in Hok', Hview, Hav.
  split_and!; [done..| |done].
  intros k. rewrite Hview. apply record_rows_lookup.
Qed.


(** ** Importing the same workbook again *)

Lemma record_rows_idem E cols rs (v : gmap (option val) attrs) :
  record_rows E cols rs (record_rows E cols rs v) = record_rows E cols rs v.
Proof.
  apply map_eq. intros k. rewrite !record_rows_lookup.
  by destruct (last_named cols k rs).
Qed.

Lemma indexed_is_Some m t k :
  indexed m t → is_Some (m !! k) ↔ k ∈ map h_name (holes t).
Proof.
  intros [_ Hidx]. rewrite elem_of_names. split.
  - intros [id Hid]. exists id. by apply Hidx.
  - intros [id Hid]. exists id. by apply Hidx.
Qed.

Lemma unknown_holes_same_names cols m1 m2 idx rs :
  (∀ k, is_Some (m1 !! k) ↔ is_Some (m2 !! k)) →
  unknown_holes (val:=val) cols m1 idx rs = unknown_holes cols m2 idx rs.
Proof.
  intros Hdom. revert idx. induction rs as [|row rs IH]; intros idx; [done|].
  rewrite !unknown_holes_cons, IH. f_equal.
  destruct (m1 !! field cols row col_OBJEKT) as [id1|] eqn:H1,
           (m2 !! field cols row col_OBJEKT) as [id2|] eqn:H2; try done.
  - assert (is_Some (m2 !! field cols row col_OBJEKT)) as [? ?] by (apply Hdom; eauto).
    congruence.
  - assert (is_Some (m1 !! field cols row col_OBJEKT)) as [? ?] by (apply Hdom; eauto).
    congruence.
Qed.

(** With a store that accepts every statement, whether the pass over the
    Assay sheet runs to its end depends on the names the dictionary holds,
    not on the identities behind them. *)
Lemma assay_loop_runs_again E cols rs : ∀ idx m1 m2 errs1 t1 errs2 t2 s1,
  (∀ st t', rejects E st t' = None) →
  (∀ k, is_Some (m1 !! k) ↔ is_Some (m2 !! k)) →
  assay_loop E cols m1 idx (errs1, t1) rs = inr s1 →
  ∃ s2, assay_loop E cols m2 idx (errs2, t2) rs = inr s2.
Proof.
  induction rs as [|row rs IH]; intros idx m1 m2 errs1 t1 errs2 t2 s1 Hr Hdom.
  - simpl. eauto.
  - simpl. unfold assay_step. cbn [fst snd].
    destruct (getitem cols row col_OBJEKT) as [e|hole_name]; cbn [bind_exn]; [done|].
    destruct (getitem cols row col_OT) as [e|from_val]; cbn [bind_exn]; [done|].
    destruct (getitem cols row col_DO) as [e|to_val]; cbn [bind_exn]; [done|].
    destruct (getitem cols row col_Au) as [e|au_val]; cbn [bind_exn]; [done|].
    destruct (hashable hole_name) as [e|k]; cbn [bind_exn]; [done|].
    destruct (m1 !! k) as [id1|] eqn:Hm1, (m2 !! k) as [id2|] eqn:Hm2.
    + destruct (param from_val) as [e|fr]; cbn [bind_exn]; [done|].
      destruct (param to_val) as [e|to]; cbn [bind_exn]; [done|].
      destruct (param au_val) as [e|au]; cbn [bind_exn]; [done|].
      unfold execute. rewrite !Hr. cbn [bind_exn]. by apply IH.
    + exfalso. assert (is_Some (m2 !! k)) as [? ?] by (apply Hdom; eauto). congruence.
    + exfalso. assert (is_Some (m1 !! k)) as [? ?] by (apply Hdom; eauto). congruence.
    + by apply IH.
Qed.

Lemma merge_success E hdf adf w t :
  connect_error E = None →
  merge_rows E hdf adf [] (db w) = inr ([], t) →
  rejects E COMMIT t = None →
  merge E hdf adf [] w =
  ((true, []),
   {| db_isfile := true; db := t;
      log := log w ++ [SqliteConnect; SqliteCommit; SqliteClose] |}).
Proof.
  intros Hc Hmr Hr. unfold merge. rewrite Hc. simpl. rewrite Hmr.
  unfold execute. rewrite Hr. simpl. by rewrite <-app_assoc.
Qed.

(** X9. Importing a workbook again after a successful import, for a sheet
    whose hole names the store keeps as written and a store that satisfies
    its schema and accepts every statement, succeeds again; it leaves every
    hole with the identity, the name and the attributes it had, and stores
    the intervals of the Assay sheet a second time. *)
Theorem reimport_duplicates_intervals E excel_path db_path w xls hdf adf :
  excel E = inr xls → parse_sheets xls = inr (hdf, adf) →
  store_ok (db w) →
  (∀ st t', rejects E st t' = None) →
  names_kept E (columns hdf) (rows hdf) →
  (import_excel_to_db E excel_path db_path w).1.1 = true →
  let w1 := (import_excel_to_db E excel_path db_path w).2 in
  let r2 := import_excel_to_db E excel_path db_path w1 in
  r2.1 = (true, [])
  ∧ fetchall (db r2.2) = fetchall (db w1)
  ∧ hole_view (db r2.2) = hole_view (db w1)
  ∧ assay_view (db r2.2) =
    assay_view (db w1) ++ sheet_intervals E (columns adf) (rows adf)
  ∧ length (assay (db r2.2)) =
    (length (assay (db w)) + 2 * length (rows adf))%nat.
Proof.
  intros HE Hp Hok Hr Hkept Hs w1 r2.
  (* the first import *)
  destruct (import_store_cases E excel_path db_path w)
    as [(Hf & _)|(xls' & hdf' & adf' & t1 & Hv & _ & Hdb & Hfile & Hc & Hmr & _)];
    [congruence|]. fold w1 in Hdb, Hfile.
  assert (xls' = xls ∧ hdf' = hdf ∧ adf' = adf) as (-> & -> & ->).
  { destruct Hv as (HE' & Hp' & _). split_and!; congruence. }
  apply merge_rows_inr in Hmr as (m1 & t1' & Hl1 & Ha1).
  pose proof (holes_loop_by_name_inr _ _ _ _ _ _ _ Hl1 Hkept (load_names_indexed _ Hok))
    as (Hidx1 & Hv1 & Hav1).
  pose proof (assay_loop_by_name_inr _ _ _ _ _ _ _ _ _ Ha1 Hidx1)
    as (Hidx1' & Hv1' & Hav1' & Herrs1).
  assert (Hok1 : store_ok t1) by by destruct Hidx1'.
  assert (Hunk1 : unknown_holes (columns adf) m1 0 (rows adf) = []) by done.
  (* the second import is validated as the first was *)
  assert (Hv2 : validated E w1 xls hdf adf).
  { destruct Hv as (? & ? & ? & Hd & ? & ? & ? & ?).
    unfold validated. rewrite Hfile. done. }
  subst r2. rewrite (import_validated _ _ _ _ _ _ _ Hv2).
  (* its pass over the Holes sheet *)
  set (m2 := load_names (fetchall t1)).
  assert (Hidx2 : indexed m2 t1) by by apply load_names_indexed.
  assert (Hholes : ∃ m2' t2',
            holes_loop E (columns hdf) (m2, t1) (rows hdf) = inr (m2', t2')
            ∧ indexed m2' t2'
            ∧ hole_view t2' = record_rows E (columns hdf) (rows hdf) (hole_view t1)
            ∧ assay_view t2' = assay_view t1
            ∧ fetchall t2' = fetchall t1).
  { destruct (rows hdf) as [|row rs] eqn:Hrows.
    { exists m2, t1. done. }
    rewrite <-Hrows in *.
    assert (Hu : unique_labels (columns hdf) (keys holes_cols)).
    { eapply holes_loop_inr_unique; [exact Hl1|]. by rewrite Hrows. }
    destruct (holes_loop_by_name E (columns hdf) (rows hdf) m2 t1 Hu Hr Hkept Hidx2)
      as (m2' & t2' & Hl2 & Hidx2' & Hv2' & Hav2' & _ & _).
    exists m2', t2'. split_and!; [done..|].
    eapply holes_loop_all_known; [|exact Hl2].
    intros row' f Hin Hf. apply (indexed_is_Some _ _ _ Hidx2).
    destruct (holes_loop_names _ _ _ _ _ _ _ Hl1 Hkept) as [Hnames Hknown].
    { intros k [id Hk]. apply load_names_Some in Hk. apply elem_of_names. eauto. }
    rewrite (proj1 (assay_loop_grows _ _ _ _ _ _ _ _ _ Ha1)).
    apply Hnames. by eapply Hknown. }
  destruct Hholes as (m2' & t2' & Hl2 & Hidx2' & Hview2 & Hav2 & Hfetch2).
  (* its pass over the Assay sheet *)
  assert (Hdom : ∀ k, is_Some (m1 !! k) ↔ is_Some (m2' !! k)).
  { intros k. rewrite (indexed_is_Some _ _ _ Hidx1'), (indexed_is_Some _ _ _ Hidx2').
    rewrite <-!fetchall_snd, Hfetch2. done. }
  destruct (assay_loop_runs_again E (columns adf) (rows adf) 0 m1 m2' [] t1' [] t2' _
              Hr Hdom Ha1) as ([errs2 t2] & Ha2).
  pose proof (assay_loop_by_name_inr _ _ _ _ _ _ _ _ _ Ha2 Hidx2')
    as (Hidx2'' & Hv2' & Hav2' & Herrs2).
  rewrite <-(unknown_holes_same_names _ m1 m2' _ _ Hdom), Hunk1 in Herrs2.
  simpl in Herrs2. subst errs2.
  assert (Hmr2 : merge_rows E hdf adf [] (db (emit reader_trace w1)) = inr ([], t2)).
  { change (db (emit reader_trace w1)) with (db w1). rewrite Hdb.
    unfold merge_rows, execute. rewrite Hr. cbn [bind_exn apply_stmt bind].
    rewrite Hr. cbn [bind_exn apply_stmt bind]. fold m2. rewrite Hl2. exact Ha2. }
  rewrite (merge_success E hdf adf _ t2 Hc Hmr2 (Hr _ _)). simpl.
  rewrite Hdb.
  assert (Hnamed : named_intervals E (columns adf) m2' (rows adf)
                   = sheet_intervals E (columns adf) (rows adf)).
  { eapply named_intervals_all.
    rewrite <-(unknown_holes_same_names _ m1 m2' 0 _ Hdom). exact Hunk1. }
  split_and!.
  - done.
  - rewrite (fetchall_holes_eq _ _ (proj1 (assay_loop_grows _ _ _ _ _ _ _ _ _ Ha2))).
    done.
  - rewrite Hv2', Hview2, Hv1', Hv1. apply record_rows_idem.
  - rewrite Hav2', Hav2, Hnamed. done.
  - pose proof (assay_loop_grows _ _ _ _ _ _ _ _ _ Ha1)
      as (_ & more1 & Hm1 & _ & new1 & Hn1 & Hlen1).
    pose proof (assay_loop_grows _ _ _ _ _ _ _ _ _ Ha2)
      as (_ & more2 & Hm2 & _ & new2 & Hn2 & Hlen2).
    symmetry in Hm1, Hm2.
    apply app_eq_nil in Hm1 as [_ ->]. apply app_eq_nil in Hm2 as [_ ->].
    pose proof (holes_loop_grows _ _ _ _ _ _ _ Hl1) as [_ Has1].
    pose proof (holes_loop_grows _ _ _ _ _ _ _ Hl2) as [_ Has2].
    rewrite Hn2, length_app, Has2, Hn1, length_app, Has1. simpl in *. lia.
Qed.

End Further.

(** * The widget: properties *)

Section WidgetProperties.

Context `{Countable val}.

Implicit Types (E : env (val:=val)) (w : world (val:=val)) (t : tables (val:=val)).
Implicit Types (self : ImportWidget) (V : viewer (val:=val)).
Implicit Types (xls : workbook (val:=val)).

(** ** Trimming *)

Lemma lstrip_blank s : blank s → lstrip s = [].
Proof. induction 1 as [|c s Hc _ IH]; [done|]. simpl. by rewrite Hc. Qed.

Lemma lstrip_nil s : lstrip s = [] → blank s.
Proof.
  induction s as [|c s IH]; [constructor|]. simpl.
  destruct (isspace c) eqn:Hc; [|done]. intros Hs. apply Forall_cons_2; [done|by apply IH].
Qed.

Lemma lstrip_app_blank p s : blank p → lstrip (p ++ s) = lstrip s.
Proof. induction 1 as [|c p Hc _ IH]; [done|]. simpl. by rewrite Hc. Qed.

Lemma lstrip_app_r s p : lstrip s ≠ [] → lstrip (s ++ p) = lstrip s ++ p.
Proof.
  induction s as [|c s IH]; [done|]. simpl.
  destruct (isspace c); [exact IH|done].
Qed.

Lemma blank_rev s : blank s → blank (rev s).
Proof. apply Forall_rev. Qed.

Lemma strip_nil_iff s : strip s = [] ↔ blank s.
Proof.
  unfold strip. split.
  - intros Hs. apply lstrip_nil.
    assert (Hr : lstrip (rev (lstrip s)) = []).
    { apply (f_equal (@rev N)) in Hs. by rewrite rev_involutive in Hs. }
    apply lstrip_nil, blank_rev in Hr. rewrite rev_involutive in Hr.
    destruct (lstrip s) as [|c s'] eqn:Hl; [done|].
    apply Forall_cons_1 in Hr as [Hc _].
    clear -Hl Hc. exfalso. induction s as [|d s IH]; [done|]. simpl in Hl.
    destruct (isspace d) eqn:Hd; [auto|]. congruence.
  - intros Hs. by rewrite (lstrip_blank _ Hs).
Qed.

Lemma strip_padded p1 s p2 :
  blank p1 → blank p2 → strip (p1 ++ s ++ p2) = strip s.
Proof.
  intros H1 H2. unfold strip. rewrite (lstrip_app_blank _ _ H1).
  destruct (lstrip s) as [|c s'] eqn:Hl.
  - rewrite (lstrip_blank (s ++ p2)); [done|].
    apply Forall_app. split; [by apply lstrip_nil|done].
  - rewrite lstrip_app_r by (by rewrite Hl). rewrite Hl, rev_app_distr.
    by rewrite (lstrip_app_blank _ _ (blank_rev _ H2)).
Qed.


(** ** The import handler *)

Lemma handle_import_blank E self w :
  blank (file_line_edit self) → handle_import E self w = (Warning, w).
Proof. intros Hb%strip_nil_iff. unfold handle_import. by rewrite Hb. Qed.

(** X10. The import handler shows its warning exactly when the line edit
    holds nothing but whitespace, and then it touches nothing: no file is
    opened, no connection made, the store is as it was. *)
Theorem blank_path_is_warned E self w :
  ((handle_import E self w).1 = Warning ↔ blank (file_line_edit self))
  ∧ ((handle_import E self w).1 = Warning → (handle_import E self w).2 = w).
Proof.
  assert (Hw : (handle_import E self w).1 = Warning → blank (file_line_edit self)).
  { unfold handle_import. destruct (strip (file_line_edit self)) as [|c s] eqn:Hs.
    - intros _. by apply strip_nil_iff.
    - by destruct (import_excel_to_db E _ _ w).1.1. }
  split; [split; [done|]|].
  - intros Hb. by rewrite handle_import_blank.
  - intros Hb%Hw. by rewrite handle_import_blank.
Qed.

(** X11. Unless the import handler shows the success box, the store holds
    what it held before; an error box always carries at least one message;
    and the success box is shown only after [import_excel_to_db] has run on
    the trimmed, non-empty path. *)
Theorem only_success_changes_the_store E self w :
  let r := handle_import E self w in
  (r.1 = Information ∨ (db r.2 = db w ∧ db_isfile r.2 = db_isfile w))
  ∧ (∀ msgs, r.1 = Critical msgs → msgs ≠ [])
  ∧ (r.1 = Information →
     r.2 = (import_excel_to_db E (strip (file_line_edit self)) (self_db_path self) w).2
     ∧ strip (file_line_edit self) ≠ []).
Proof.
  intros r. subst r. unfold handle_import.
  destruct (strip (file_line_edit self)) as [|c s] eqn:Hs.
  { split_and!; [by right|done|done]. }
  destruct (import_store_cases E (c :: s) (self_db_path self) w)
    as [(Hf & Hne & Hdb & Hfile)|(xls & hdf & adf & t & _ & Hr & _)].
  - rewrite Hf. simpl. split_and!; [by right| |done]. by intros msgs [= <-].
  - rewrite Hr. simpl. split_and!; [by left|done|done].
Qed.

(** X12. Whitespace around the path in the line edit is ignored: the
    handler imports the trimmed path. *)
Theorem path_padding_is_ignored E self w p1 s p2 :
  blank p1 → blank p2 →
  handle_import E (setText (p1 ++ s ++ p2) self) w = handle_import E (setText s self) w.
Proof.
  intros H1 H2. unfold handle_import. simpl. by rewrite (strip_padded _ _ _ H1 H2).
Qed.

(** ** Headers are compared once trimmed *)

Lemma same_trimmed_names xls xls' :
  same_trimmed xls xls' → sheet_names xls = sheet_names xls'.
Proof.
  unfold sheet_names. induction 1 as [|s s' xls xls' [Hn _] _ IH]; [done|].
  simpl. by rewrite Hn, IH.
Qed.

Lemma same_trimmed_parse xls xls' name :
  same_trimmed xls xls' →
  (let! df := parse xls name in inr (rename_strip df))
  = (let! df := parse xls' name in inr (rename_strip df)).
Proof.
  induction 1 as [|[n r] [n' r'] xls xls' [Hn Hr] _ IH]; [done|].
  simpl in *. subst n'. destruct (decide (n = name)) as [_|_]; [|done].
  destruct r as [e|df], r' as [e'|df']; try done.
  - by subst.
  - destruct Hr as [Hrows Hcols]. simpl. unfold rename_strip. by rewrite Hrows, Hcols.
Qed.

Lemma same_trimmed_parse_sheets xls xls' :
  same_trimmed xls xls' → parse_sheets xls = parse_sheets xls'.
Proof.
  intros Hs. unfold parse_sheets.
  pose proof (same_trimmed_parse _ _ Holes Hs) as Hh.
  pose proof (same_trimmed_parse _ _ Assay Hs) as Ha.
  destruct (parse xls Holes) as [e1|h], (parse xls' Holes) as [e1'|h']; simpl in *;
    try congruence.
  destruct (parse xls Assay) as [e2|a], (parse xls' Assay) as [e2'|a']; simpl in *;
    congruence.
Qed.

(** X13. Column labels are compared once trimmed (line 88): two workbooks
    with the same sheet names and the same rows, whose headers agree after
    trimming, are imported alike, with the same result and the same store. *)
Theorem header_padding_is_ignored E excel_path db_path w xls xls' :
  same_trimmed xls xls' →
  import_excel_to_db (with_excel E (inr xls')) excel_path db_path w
  = import_excel_to_db (with_excel E (inr xls)) excel_path db_path w.
Proof.
  intros Hs. unfold import_excel_to_db, validate_and_merge. simpl.
  rewrite !check_sheets_eq, <-(same_trimmed_names _ _ Hs),
    <-(same_trimmed_parse_sheets _ _ Hs).
  destruct (_ ++ _ ++ _) as [|d ds]; [|done].
  destruct (parse_sheets xls) as [e|[hdf adf]]; [done|].
  destruct (negb (excel_isfile E)); [done|].
  destruct (negb (db_isfile _)); [done|].
  destruct (check_columns adf _ _ _); [|done].
  destruct (check_nulls adf _ _ _); [|done].
  by rewrite !merge_with_excel.
Qed.


(** ** The view of the store *)

Section Viewing.

Variable str : option val → pystr.
Variable sql_le : option val → option val → bool.

Lemma join_no_hole (a : assay_row (val:=val)) (hs : list (hole_row (val:=val))) :
  a_hole_id a ∉ map h_id hs →
  (h ← hs; if decide (a_hole_id a = h_id h)
           then [(h_name h, a_from a, a_to a, a_Au a)] else []) = [].
Proof.
  induction hs as [|h hs IH]; [done|]. cbn [map].
  intros [Hne Hnin]%not_elem_of_cons.
  rewrite bind_cons, decide_False by done. by apply IH.
Qed.

Lemma join_one_hole (a : assay_row (val:=val)) (hs : list (hole_row (val:=val))) :
  NoDup (map h_id hs) → a_hole_id a ∈ map h_id hs →
  ∃ h, h ∈ hs ∧ h_id h = a_hole_id a ∧
    (h ← hs; if decide (a_hole_id a = h_id h)
             then [(h_name h, a_from a, a_to a, a_Au a)] else [])
    = [(h_name h, a_from a, a_to a, a_Au a)].
Proof.
  induction hs as [|h hs IH]; cbn [map].
  { intros _ Hin. by apply elem_of_nil in Hin. }
  intros [Hnin Hnd]%NoDup_cons Hin. rewrite bind_cons.
  destruct (decide (a_hole_id a = h_id h)) as [Heq|Hne].
  - exists h. split_and!; [by left|done|].
    rewrite join_no_hole; [done|]. by rewrite Heq.
  - apply elem_of_cons in Hin as [?|Hin]; [done|].
    destruct (IH Hnd Hin) as (h' & Hh' & Hid & Hj).
    exists h'. split_and!; [by right|done|]. by rewrite Hj.
Qed.

(** In a store that satisfies its schema the join pairs every interval
    with exactly one hole: it is the by-name view of the assay table. *)
Lemma join_rows_by_name t : store_ok t → map by_name (join_rows t) = assay_view t.
Proof.
  intros (Hids & _ & Hfk). unfold join_rows, assay_view.
  induction Hfk as [|a rest Ha _ IH]; [done|].
  rewrite bind_cons, map_app, IH.
  destruct (join_one_hole a (holes t) Hids Ha) as (h & Hh & Hid & ->).
  unfold by_name. simpl. do 4 f_equal. symmetry.
  apply id_names_lookup; [done|]. unfold fetchall. rewrite <-Hid.
  apply (list_elem_of_fmap_2 (fun h => (h_id h, h_name h))). done.
Qed.

Lemma order_by_total :
  (∀ a b, sql_le a b = true ∨ sql_le b a = true) → Total (order_by sql_le).
Proof.
  intros Htot [[[n1 f1] ?] ?] [[[n2 f2] ?] ?]. unfold order_by. simpl.
  destruct (sql_le n1 n2) eqn:H12, (sql_le n2 n1) eqn:H21.
  - destruct (Htot f1 f2); [left|right]; done.
  - left. done.
  - right. done.
  - destruct (Htot n1 n2); congruence.
Qed.

Lemma insert_row_Permutation r l : insert_row sql_le r l ≡ₚ r :: l.
Proof.
  induction l as [|r' l IH]; [done|]. simpl. case_decide; [done|].
  rewrite IH. apply perm_swap.
Qed.

Lemma select_rows_Permutation t : select_rows sql_le t ≡ₚ join_rows t.
Proof.
  unfold select_rows. induction (join_rows t) as [|r l IH]; [done|].
  simpl. by rewrite insert_row_Permutation, IH.
Qed.

Lemma insert_row_HdRel r r' l :
  order_by sql_le r' r → HdRel (order_by sql_le) r' l →
  HdRel (order_by sql_le) r' (insert_row sql_le r l).
Proof.
  intros Hr Hhd. destruct l as [|r'' l]; simpl.
  - by constructor.
  - case_decide; constructor; [done|]. by inversion Hhd.
Qed.

Lemma insert_row_Sorted r l :
  Total (order_by sql_le) →
  Sorted (order_by sql_le) l → Sorted (order_by sql_le) (insert_row sql_le r l).
Proof.
  intros Htot. induction 1 as [|r' l Hs IH Hhd]; simpl.
  - by repeat constructor.
  - case_decide as Hle.
    + constructor; [by constructor|]. by constructor.
    + constructor; [done|]. apply insert_row_HdRel; [|done].
      by destruct (Htot r r').
Qed.

Lemma select_rows_Sorted t :
  Total (order_by sql_le) → Sorted (order_by sql_le) (select_rows sql_le t).
Proof.
  intros Htot. unfold select_rows. induction (join_rows t) as [|r l IH]; simpl.
  - constructor.
  - by apply insert_row_Sorted.
Qed.

(** X14. When the store satisfies its schema and raises nothing,
    [show_data] fills the table with exactly the stored intervals, each one
    once and under the name of its hole, ordered by name and then by
    [_from]; the store itself is not changed. *)
Theorem stored_intervals_are_shown V self w :
  view_connect_error V = None → view_query_error V (db w) = None →
  store_ok (db w) →
  (∀ a b, sql_le a b = true ∨ sql_le b a = true) →
  let r := show_data str sql_le V self w in
  r.1.1 = None
  ∧ db r.2 = db w
  ∧ ∃ fetched, table r.1.2 = map (items str) fetched
      ∧ map by_name fetched ≡ₚ assay_view (db w)
      ∧ Sorted (order_by sql_le) fetched.
Proof.
  intros Hc Hq Hok Htot r. subst r. unfold show_data. rewrite Hc. simpl. rewrite Hq.
  simpl. split_and!; [done..|].
  exists (select_rows sql_le (db w)). split_and!; [done| |].
  - rewrite <-(join_rows_by_name _ Hok). apply Permutation_map.
    apply select_rows_Permutation.
  - apply select_rows_Sorted, order_by_total, Htot.
Qed.

(** X15. [show_data] never changes the contents of the store. When the
    load fails it leaves the widget as it was, and [conn.close()] is not
    reached: after [sqlite3.connect] the trace holds no close, so a
    connection whose query raised stays open. *)
Theorem failed_view_keeps_the_table V self w :
  let r := show_data str sql_le V self w in
  db r.2 = db w
  ∧ ((r.1.1 = None ∧ log r.2 = log w ++ [SqliteConnect; SqliteClose])
     ∨ ((∃ e, r.1.1 = Some (LoadFailed e)) ∧ r.1.2 = self
        ∧ log r.2 = log w ++ [SqliteConnect])).
Proof.
  intros r. subst r. unfold show_data.
  destruct (view_connect_error V) as [e|]; simpl.
  { split; [done|]. right. eauto. }
  destruct (view_query_error V (db w)) as [e|]; simpl.
  { split; [done|]. right. eauto. }
  split; [done|]. left. by rewrite <-app_assoc.
Qed.


(** X16. After the import handler has shown the success box, for a sheet
    whose hole names the store keeps as written and a store that satisfied
    its schema, [show_data] shows the intervals that were stored before
    together with one interval for each row of the Assay sheet, under the
    hole name the row carries. *)
Theorem imported_intervals_are_shown E V self w xls hdf adf :
  excel E = inr xls → parse_sheets xls = inr (hdf, adf) → store_ok (db w) →
  names_kept E (columns hdf) (rows hdf) →
  (handle_import E self w).1 = Information →
  let w' := (handle_import E self w).2 in
  view_connect_error V = None → view_query_error V (db w') = None →
  ∃ fetched, table (show_data str sql_le V self w').1.2 = map (items str) fetched
    ∧ map by_name fetched ≡ₚ
      assay_view (db w) ++ sheet_intervals E (columns adf) (rows adf).
Proof.
  intros HE Hp Hok Hkept Hbox w' Hc Hq.
  assert (Hs : ∃ excel_path,
             (import_excel_to_db E excel_path (self_db_path self) w).1.1 = true
             ∧ w' = (import_excel_to_db E excel_path (self_db_path self) w).2).
  { subst w'. revert Hbox. unfold handle_import.
    destruct (strip (file_line_edit self)) as [|c s]; [done|].
    exists (c :: s). by destruct (import_excel_to_db E (c :: s) _ w).1.1. }
  destruct Hs as (excel_path & Hs & Hw').
  destruct (import_success_views E excel_path (self_db_path self) w xls hdf adf
              HE Hp Hok Hkept Hs) as (Hok' & _ & Hav).
  rewrite <-Hw' in Hok', Hav.
  unfold show_data. rewrite Hc. simpl. rewrite Hq. simpl.
  exists (select_rows sql_le (db w')). split; [done|].
  rewrite <-Hav, <-(join_rows_by_name _ Hok'). apply Permutation_map.
  apply select_rows_Permutation.
Qed.



End Viewing.

End WidgetProperties.

(** * The further properties on the journal *)

Section FurtherOnTheJournal.

Import Journal.

Ltac by_evaluation := apply (bool_decide_unpack _); vm_compute; reflexivity.

Lemma old_store_ok : store_ok (db old_store).
Proof. split_and!; [by_evaluation | by_evaluation | repeat constructor]. Qed.

Lemma old_store_keys_ok : keys_ok (db old_store).
Proof. split; [by_evaluation | repeat constructor]. Qed.

Lemma journal_names_kept df :
  names_kept (quiet (book df assay_AB)) (columns (rename_strip df)) (rows (rename_strip df)).
Proof.
  apply Forall_forall. intros row _. unfold kept. simpl.
  by destruct (field _ row col_IMYA).
Qed.

Lemma lex_le_total (a b : list N) : lex_le a b = true ∨ lex_le b a = true.
Proof.
  revert b. induction a as [|x a IH]; intros [|y b]; simpl; auto.
  destruct (N.ltb_spec x y) as [Hlt|Hle]; [by left|]. simpl.
  destruct (N.eqb_spec x y) as [->|Hne].
  - rewrite N.ltb_irrefl, N.eqb_refl. simpl. apply IH.
  - right. assert ((y <? x)%N = true) as -> by (apply N.ltb_lt; lia). done.
Qed.

Lemma le_cell_total (a b : option pyval) : le_cell a b = true ∨ le_cell b a = true.
Proof.
  destruct a as [[s|x|bs]|], b as [[s'|y|bs']|]; simpl; auto using lex_le_total.
  destruct (Z.leb_spec x y); [by left|]. right. apply Z.leb_le. lia.
Qed.

(** The table after the journal has been imported into the old store: the
    intervals of "A" and "B", then the one of "O". *)
Example table_after_the_journal :
  table (show_data str_cell le_cell calm window
           (handle_import (quiet (book holes_AB assay_AB)) window old_store).2).1.2
  = [ [[65]; [48]; [49]; [55]];
      [[66]; [48]; [49]; [51]];
      [[79]; [48]; [50]; [52]] ]%N.
Proof. vm_compute. reflexivity. Qed.

(** The first column of the table after the ledger of integers has been
    imported into an empty store: the hole names are shown as the byte
    strings the store hands back, b'e\x00\x00\x00\x00\x00\x00\x00' for
    101 and b'f\x00\x00\x00\x00\x00\x00\x00' for 102. *)
Example table_after_the_ledger :
  map (fun r => r !! 0%nat)
    (table (show_data str_cell le_cell calm window
              (import_excel_to_db lenient journal_path store_path empty_store).2).1.2)
  = [ Some [98; 39; 101; 92; 120; 48; 48; 92; 120; 48; 48; 92; 120; 48; 48; 92; 120; 48; 48;
            92; 120; 48; 48; 92; 120; 48; 48; 92; 120; 48; 48; 39];
      Some [98; 39; 102; 92; 120; 48; 48; 92; 120; 48; 48; 92; 120; 48; 48; 92; 120; 48; 48;
            92; 120; 48; 48; 92; 120; 48; 48; 92; 120; 48; 48; 39] ]%N.
Proof. vm_compute. reflexivity. Qed.

(** The hole of the old store is updated, the hole "A" inserted under a
    fresh identity and updated by the row that names it again, and its
    interval stored under that identity. *)
Lemma old_hole_is_updated_and_new_hole_inserted :
  let E := quiet (book holes_OAA assay_A) in
  let cols := keys holes_cols in
  let s0 := (load_names (fetchall old_tables), old_tables) in
  let pass := foldl (upsert_row E cols) s0 in
  holes_loop E cols s0 [hole_O; hole_A; hole_A'] = inr (pass [hole_O; hole_A; hole_A'])
  ∧ (pass [hole_O]).1 = s0.1
  ∧ fetchall (pass [hole_O]).2 = fetchall old_tables
  ∧ (∃ h, h ∈ holes (pass [hole_O]).2 ∧ h_id h = 1
          ∧ attrs_of h = (num 2, num 2, num 2, num 9, num 90, num 20220101))
  ∧ (∃ hole_id, (hole_id ∉ map h_id (holes (pass [hole_O]).2))
       ∧ (pass [hole_O; hole_A]).1 = <[name_A := hole_id]> (pass [hole_O]).1
       ∧ (pass [hole_O; hole_A; hole_A']).1 !! name_A = Some hole_id)
  ∧ (pass [hole_O; hole_A; hole_A']).1 = (pass [hole_O; hole_A]).1
  ∧ fetchall (pass [hole_O; hole_A; hole_A']).2 = fetchall (pass [hole_O; hole_A]).2.
Proof.
  intros E cols s0 pass.
  destruct (holes_pass_updates_or_inserts E (rename_strip holes_OAA) (rename_strip assay_A)
              old_tables) as (_ & Hruns & Hrow).
  assert (Hu : unique_labels cols (keys holes_cols)) by repeat constructor.
  destruct (Hruns Hu (fun _ _ => eq_refl)) as [Hloop _].
  destruct (Hrow [] hole_O [hole_A; hole_A'] eq_refl) as (Hknown & _ & _).
  destruct (Hknown 1 eq_refl) as (Hd0 & Hf0 & _ & Hh0 & _).
  destruct (Hrow [hole_O] hole_A [hole_A'] eq_refl) as (_ & Hnew & Hlater).
  destruct (Hnew eq_refl) as (id1 & Hfresh & Hd1 & _).
  destruct Hlater as (id1' & Hbound & _).
  assert (Some id1' = Some id1) as [= ->].
  { etrans; [symmetry; exact (Hbound [] (prefix_nil _))|].
    etrans; [exact (f_equal (fun m => m !! name_A) Hd1)|]. apply lookup_insert_eq. }
  destruct (Hrow [hole_O; hole_A] hole_A' [] eq_refl) as (Hknown2 & _ & _).
  destruct (Hknown2 2 eq_refl) as (Hd2 & Hf2 & _).
  split_and!; [exact Hloop|exact Hd0|exact Hf0|exact Hh0| |exact Hd2|exact Hf2].
  exists id1. split_and!; [exact Hfresh|exact Hd1|].
  exact (Hbound [hole_A'] (reflexivity _)).
Defined.

Lemma unknown_hole_keeps_old_tables :
  let r := import_excel_to_db (quiet (book holes_AB assay_unknown))
             journal_path store_path old_store in
  db r.2 = db old_store ∧ db_isfile r.2 = db_isfile old_store.
Proof.
  exact (failure_leaves_the_store (quiet (book holes_AB assay_unknown))
           journal_path store_path old_store eq_refl).
Defined.

(** The keys of the store survive both imports of the ledger, though the
    second one stores every hole a second time. *)
Lemma ledger_twice_keeps_the_keys :
  let w1 := (import_excel_to_db lenient journal_path store_path empty_store).2 in
  keys_ok (db (import_excel_to_db lenient journal_path store_path w1).2).
Proof.
  assert (Hempty : keys_ok (db empty_store)) by (split; constructor).
  exact (key_constraints_are_kept lenient journal_path store_path _
           (key_constraints_are_kept lenient journal_path store_path empty_store Hempty)).
Defined.

Lemma journal_by_name :
  let E := quiet (book holes_OAA assay_A) in
  let t := db (import_excel_to_db (quiet (book holes_OAA assay_A))
                 journal_path store_path old_store).2 in
  store_ok t
  ∧ hole_view t = record_rows E (keys holes_cols) [hole_O; hole_A; hole_A']
                    (hole_view old_tables)
  ∧ (∀ k, hole_view t !! k =
          match last_named (keys holes_cols) k [hole_O; hole_A; hole_A'] with
          | Some row =>
              Some (attrs_of_fields (kept_fields E (hole_of_row (keys holes_cols) row)))
          | None => hole_view old_tables !! k
          end)
  ∧ assay_view t =
    assay_view old_tables ++ sheet_intervals E (keys assay_cols) (rows assay_A).
Proof.
  assert (Hkept : names_kept (quiet (book holes_OAA assay_A))
                    (columns (rename_strip holes_OAA)) (rows (rename_strip holes_OAA))).
  { repeat constructor. }
  exact (successful_import_by_name (quiet (book holes_OAA assay_A))
           journal_path store_path old_store (book holes_OAA assay_A)
           (rename_strip holes_OAA) (rename_strip assay_A)
           eq_refl eq_refl old_store_ok Hkept eq_refl).
Defined.


Lemma journal_twice_doubles_the_intervals :
  let E := quiet (book holes_AB assay_AB) in
  let w1 := (import_excel_to_db E journal_path store_path old_store).2 in
  let r2 := import_excel_to_db E journal_path store_path w1 in
  r2.1 = (true, [])
  ∧ fetchall (db r2.2) = fetchall (db w1)
  ∧ hole_view (db r2.2) = hole_view (db w1)
  ∧ assay_view (db r2.2) =
    assay_view (db w1) ++ sheet_intervals E (keys assay_cols) (rows assay_AB)
  ∧ length (assay (db r2.2)) = (length (assay old_tables) + 2 * 2)%nat.
Proof.
  exact (reimport_duplicates_intervals (quiet (book holes_AB assay_AB))
           journal_path store_path old_store (book holes_AB assay_AB)
           (rename_strip holes_AB) (rename_strip assay_AB)
           eq_refl eq_refl old_store_ok (fun _ _ => eq_refl)
           (journal_names_kept holes_AB) eq_refl).
Defined.

Lemma padded_journal_path_is_trimmed :
  handle_import (quiet (book holes_AB assay_AB))
    (setText ([32; 9]%N ++ journal_path ++ [10]%N) window) old_store
  = handle_import (quiet (book holes_AB assay_AB)) (setText journal_path window) old_store.
Proof.
  apply (path_padding_is_ignored (quiet (book holes_AB assay_AB)) window old_store
           [32; 9]%N journal_path [10]%N).
  - repeat constructor.
  - repeat constructor.
Defined.

Lemma trimmed_journal_is_imported_alike :
  import_excel_to_db (quiet (book (rename_strip holes_AB) assay_AB))
    journal_path store_path old_store
  = import_excel_to_db (quiet (book holes_AB assay_AB)) journal_path store_path old_store.
Proof.
  apply (header_padding_is_ignored (quiet (book holes_AB assay_AB))
           journal_path store_path old_store
           (book holes_AB assay_AB) (book (rename_strip holes_AB) assay_AB)).
  repeat constructor.
Defined.

Lemma old_interval_is_shown :
  let r := show_data str_cell le_cell calm window old_store in
  r.1.1 = None
  ∧ db r.2 = db old_store
  ∧ ∃ fetched, table r.1.2 = map (items str_cell) fetched
      ∧ map by_name fetched ≡ₚ assay_view old_tables
      ∧ Sorted (order_by le_cell) fetched.
Proof.
  exact (stored_intervals_are_shown str_cell le_cell calm window old_store
           eq_refl eq_refl old_store_ok le_cell_total).
Defined.

Lemma journal_is_shown_after_import :
  let E := quiet (book holes_AB assay_AB) in
  let w' := (handle_import E window old_store).2 in
  ∃ fetched, table (show_data str_cell le_cell calm window w').1.2
             = map (items str_cell) fetched
    ∧ map by_name fetched ≡ₚ
      assay_view old_tables ++ sheet_intervals E (keys assay_cols) (rows assay_AB).
Proof.
  exact (imported_intervals_are_shown str_cell le_cell (quiet (book holes_AB assay_AB)) calm
           window old_store (book holes_AB assay_AB)
           (rename_strip holes_AB) (rename_strip assay_AB)
           eq_refl eq_refl old_store_ok (journal_names_kept holes_AB)
           eq_refl eq_refl eq_refl).
Defined.


End FurtherOnTheJournal.
